(** * ProjectRD: infraction store, interaction dispatcher and handler registry

    A shallow embedding of the three parts of the bot that carry its
    contracts:

    - [InfractionStore]: the [DatabaseManager] class over the
      [user_infractions] table (random 8-character ids, scoped queries);
    - [Dispatcher]: [events/interactionCreate.ts], the single funnel for
      inbound interactions;
    - [Registry]: the loaders of [index.ts] that fill the [client]
      collections at startup.

    The SQL engine, the JavaScript runtime and the platform client are
    modelled only as far as the code uses them: a table is the list of its
    rows in rowid (insertion) order, a [Collection] is a finite map, a
    promise that rejects is an exception value. *)

From stdpp Require Import base strings list gmap sorting pretty.

Local Open Scope string_scope.
Local Open Scope list_scope.
Local Open Scope Z_scope.

(** ** JavaScript strings *)

(** [s.charAt(i)]: the one-character string at index [i], or the empty
    string when [i] is out of range. *)
Definition charAt (s : string) (i : nat) : string :=
  match String.get i s with
  | Some c => String c EmptyString
  | None => EmptyString
  end.

(** [s.endsWith(suffix)]. *)
Definition endsWith (s suffix : string) : bool :=
  let n := String.length s in
  let k := String.length suffix in
  (k <=? n)%nat && String.eqb (String.substring (n - k) k s) suffix.

(** [path.join(a, b)] on the POSIX paths the bot runs with. *)
Definition join (a b : string) : string := a +:+ "/" +:+ b.

(** ** JavaScript dates *)

(** The time zone the process runs in: [local_time t] is the instant
    that the wall-clock reading [t] denotes there.  A reading and an
    instant are both counted in seconds from 1970-01-01 00:00:00, the
    reading as if the clock on the wall showed UTC. *)
Class TimeZone := local_time : Z -> Z.

(** A [Date], by its time value (in seconds: nothing here is finer). *)
Definition Date := Z.

(** [new Date(text)] for a text [YYYY-MM-DD HH:MM:SS], which is how
    SQLite writes CURRENT_TIMESTAMP.  The text carries no zone and is not
    in the ISO format, and the engine reads it as a local time, although
    SQLite wrote it in UTC; [text] is the number of seconds the text
    denotes as a UTC time. *)
Definition new_Date {zone : TimeZone} (text : Z) : Date := local_time text.

(** * The infraction store *)

Module InfractionStore.

Inductive InfractionType := WARN | MUTE | KICK | BAN | TIMEOUT.

#[export] Instance InfractionType_eq_dec : EqDecision InfractionType.
Proof. solve_decision. Defined.

Record Infraction := {
  id : string;
  userId : string;
  guildId : string;
  moderatorId : string;
  type : InfractionType;
  reason : string;
  createdAt : Date
}.

(** A row of [user_infractions].  [created_at] is filled by [DEFAULT
    CURRENT_TIMESTAMP], a UTC text of one-second resolution whose text
    order is the chronological one; it is kept as the number of seconds
    it denotes. *)
Record Row := {
  row_id : string;
  user_id : string;
  guild_id : string;
  moderator_id : string;
  row_type : InfractionType;
  row_reason : string;
  created_at : Z
}.

(** The [better-sqlite3] handle: the connection flag and the table, its
    rows in rowid order (an INSERT appends). *)
Record Database := {
  open : bool;
  user_infractions : list Row
}.

(** What a statement can throw. *)
Inductive error :=
| ConnectionNotOpen                      (* TypeError: The database connection is not open *)
| UniqueConstraintFailed (key : string). (* SqliteError: UNIQUE constraint failed: user_infractions.id *)

Inductive result (A : Type) :=
| Ok (a : A)
| Err (e : error).
Arguments Ok {A} a.
Arguments Err {A} e.

#[export] Instance result_ret : MRet result := fun A a => Ok a.
#[export] Instance result_bind : MBind result := fun A B k r =>
  match r with
  | Ok a => k a
  | Err e => Err e
  end.
#[export] Instance result_fmap : FMap result := fun A B f r =>
  match r with
  | Ok a => Ok (f a)
  | Err e => Err e
  end.

(** [this.db.prepare(sql)]: needs an open connection. *)
Definition prepare (db : Database) : result (list Row) :=
  if open db then Ok (user_infractions db) else Err ConnectionNotOpen.

(** *** SQL fragments *)

Definition where_id (i : string) (r : Row) : bool := String.eqb (row_id r) i.

(** [WHERE user_id = ? AND guild_id = ?], and [AND type = ?] when the
    optional filter is given ([if (type)]: every member of the enum is a
    non-empty string, hence truthy). *)
Definition where_scope (u g : string) (t : option InfractionType) (r : Row) : bool :=
  String.eqb (user_id r) u && String.eqb (guild_id r) g &&
  match t with
  | Some ty => bool_decide (row_type r = ty)
  | None => true
  end.

(** [ORDER BY created_at DESC].  The query names no second key; the
    engine's sorter is stable, so rows with equal keys stay in the order
    the scan delivers them, which is rowid order. *)
Fixpoint sorter_insert (r : Row) (sorted : list Row) : list Row :=
  match sorted with
  | [] => [r]
  | x :: rest =>
      if created_at x <=? created_at r then r :: x :: rest
      else x :: sorter_insert r rest
  end.

Fixpoint order_by_created_at_desc (rows : list Row) : list Row :=
  match rows with
  | [] => []
  | r :: rest => sorter_insert r (order_by_created_at_desc rest)
  end.

(** [INSERT INTO user_infractions (...) VALUES (...)]: [id] is the
    PRIMARY KEY. *)
Definition insert (r : Row) (db : Database) : result Database :=
  rows ← prepare db;
  if existsb (where_id (row_id r)) rows
  then Err (UniqueConstraintFailed (row_id r))
  else Ok {| open := open db; user_infractions := rows ++ [r] |}.

(** The schema's PRIMARY KEY constraint as a predicate on tables. *)
Definition primary_key_ok (db : Database) : Prop :=
  NoDup (map row_id (user_infractions db)).

Definition row_to_infraction {zone : TimeZone} (row : Row) : Infraction :=
  {| id := row_id row;
     userId := user_id row;
     guildId := guild_id row;
     moderatorId := moderator_id row;
     type := row_type row;
     reason := row_reason row;
     createdAt := new_Date (created_at row) |}.

(** *** Identifier generation *)

Definition chars : string := "ABCDEFGHIJKLMNOPQRSTUVWXYZ0123456789".

(** The runtime: the store and the number of [Math.random()] calls made
    so far. *)
Record World := {
  db : Database;
  random_calls : nat
}.

Section WithRandom.

(** [Math.random()]: the [n]-th call returns [Math_random n / 2^53], a
    value of [[0, 1)] ([Math_random n] is read modulo [2^53]). *)
Variable Math_random : nat -> Z.

(** [Math.floor(Math.random() * len)] for the [n]-th call, the product
    taken exactly. *)
Definition random_index (n : nat) (len : nat) : nat :=
  Z.to_nat (((Math_random n `mod` 2 ^ 53) * Z.of_nat len) `div` 2 ^ 53).

(** The body of [for (let i = 0; i < 8; i++)], [todo] rounds left. *)
Fixpoint generate_loop (todo : nat) (result : string) (calls : nat) : string * nat :=
  match todo with
  | O => (result, calls)
  | S todo' =>
      generate_loop todo'
        (result +:+ charAt chars (random_index calls (String.length chars)))
        (S calls)
  end.

Definition generateInfractionId (calls : nat) : string * nat :=
  generate_loop 8 EmptyString calls.

Definition isInfractionIdUnique (i : string) (d : Database) : result bool :=
  rows ← prepare d;
  Ok (bool_decide (length (filter (fun r => where_id i r = true) rows) = 0%nat)).

(** [do { id = generate() } while (!unique(id))], cut off after [fuel]
    rounds: [None] means the loop is still running. *)
Fixpoint getUniqueInfractionId (fuel : nat) (w : World) : option (result string * World) :=
  match fuel with
  | O => None
  | S fuel' =>
      let '(i, calls) := generateInfractionId (random_calls w) in
      let w' := {| db := db w; random_calls := calls |} in
      match isInfractionIdUnique i (db w) with
      | Err e => Some (Err e, w')
      | Ok true => Some (Ok i, w')
      | Ok false => getUniqueInfractionId fuel' w'
      end
  end.

(** [addInfraction]; [now] is the value of CURRENT_TIMESTAMP when the
    INSERT runs. *)
Definition addInfraction (fuel : nat) (now : Z)
    (userId guildId moderatorId : string) (type : InfractionType) (reason : string)
    (w : World) : option (result string * World) :=
  match getUniqueInfractionId fuel w with
  | None => None
  | Some (Err e, w') => Some (Err e, w')
  | Some (Ok i, w') =>
      let row := {| row_id := i; user_id := userId; guild_id := guildId;
                    moderator_id := moderatorId; row_type := type;
                    row_reason := reason; created_at := now |} in
      match insert row (db w') with
      | Err e => Some (Err e, w')
      | Ok d => Some (Ok i, {| db := d; random_calls := random_calls w' |})
      end
  end.

(** Convenience method for backwards compatibility. *)
Definition addWarning (fuel : nat) (now : Z)
    (userId guildId moderatorId reason : string) (w : World) :=
  addInfraction fuel now userId guildId moderatorId WARN reason w.

End WithRandom.

Definition getUserInfractions {zone : TimeZone} (userId guildId : string)
    (type : option InfractionType) (d : Database) : result (list Infraction) :=
  rows ← prepare d;
  let results :=
    order_by_created_at_desc
      (filter (fun r => where_scope userId guildId type r = true) rows) in
  Ok (map row_to_infraction results).

Definition getInfractionCount (userId guildId : string) (type : option InfractionType)
    (d : Database) : result nat :=
  rows ← prepare d;
  Ok (length (filter (fun r => where_scope userId guildId type r = true) rows)).

(** [stmt.get(id)] is the first matching row, [undefined] when there is
    none. *)
Definition getInfractionById {zone : TimeZone} (i : string) (d : Database)
    : result (option Infraction) :=
  rows ← prepare d;
  match find (where_id i) rows with
  | None => Ok None
  | Some r => Ok (Some (row_to_infraction r))
  end.

(** [this.db.close()]: closing an already closed handle is accepted. *)
Definition close (d : Database) : result Database :=
  Ok {| open := false; user_infractions := user_infractions d |}.

(** [this.db.backup(path)], neither awaited nor returned.  The library's
    [backup] is an [async] function: whatever goes wrong in it, a closed
    connection included, rejects the promise it returns, and that promise
    is dropped here.  The method itself returns [undefined] on every
    handle, and the table is not written. *)
Definition backup (backupPath : string) (d : Database) : result unit := Ok tt.

Record Stats := {
  infractions : nat; warns : nat; mutes : nat; kicks : nat; bans : nat; timeouts : nat
}.

Definition count_type (t : InfractionType) (rows : list Row) : nat :=
  length (filter (fun r => row_type r = t) rows).

Definition getStats (d : Database) : result Stats :=
  rows ← prepare d;
  Ok {| infractions := length rows;
        warns := count_type WARN rows;
        mutes := count_type MUTE rows;
        kicks := count_type KICK rows;
        bans := count_type BAN rows;
        timeouts := count_type TIMEOUT rows |}.

(** *** The public interface as a whole *)

(** One call of a public method of [DatabaseManager]; an adding call
    carries the time at which it runs. *)
Inductive Call :=
| call_addInfraction (now : Z) (userId guildId moderatorId : string)
    (type : InfractionType) (reason : string)
| call_addWarning (now : Z) (userId guildId moderatorId reason : string)
| call_getUserInfractions (userId guildId : string) (type : option InfractionType)
| call_getInfractionCount (userId guildId : string) (type : option InfractionType)
| call_getInfractionById (i : string)
| call_close
| call_backup (backupPath : string)
| call_getStats.

(** What the caller gets back: the return value or the thrown error. *)
Inductive Response :=
| returned_id (r : result string)
| returned_list (r : result (list Infraction))
| returned_count (r : result nat)
| returned_row (r : result (option Infraction))
| returned_void (r : result unit)
| returned_stats (r : result Stats).

Section Calls.

Variable Math_random : nat -> Z.
Context {zone : TimeZone}.

Definition adding (r : option (result string * World)) : option (Response * World) :=
  match r with
  | None => None
  | Some (res, w') => Some (returned_id res, w')
  end.

(** A call on the runtime [w]; [None] when the id loop does not end
    within [fuel] rounds. *)
Definition perform (fuel : nat) (c : Call) (w : World) : option (Response * World) :=
  match c with
  | call_addInfraction now u g m t r =>
      adding (addInfraction Math_random fuel now u g m t r w)
  | call_addWarning now u g m r =>
      adding (addWarning Math_random fuel now u g m r w)
  | call_getUserInfractions u g t =>
      Some (returned_list (getUserInfractions u g t (db w)), w)
  | call_getInfractionCount u g t =>
      Some (returned_count (getInfractionCount u g t (db w)), w)
  | call_getInfractionById i =>
      Some (returned_row (getInfractionById i (db w)), w)
  | call_close =>
      match close (db w) with
      | Ok d => Some (returned_void (Ok tt), {| db := d; random_calls := random_calls w |})
      | Err e => Some (returned_void (Err e), w)
      end
  | call_backup path =>
      Some (returned_void (backup path (db w)), w)
  | call_getStats =>
      Some (returned_stats (getStats (db w)), w)
  end.

Fixpoint perform_all (fuel : nat) (cs : list Call) (w : World)
    : option (list Response * World) :=
  match cs with
  | [] => Some ([], w)
  | c :: rest =>
      match perform fuel c w with
      | None => None
      | Some (r, w') =>
          match perform_all fuel rest w' with
          | None => None
          | Some (rs, w'') => Some (r :: rs, w'')
          end
      end
  end.

End Calls.

End InfractionStore.

(** * The JavaScript runtime shared by the dispatcher and the loaders *)

(** A thrown value, or the reason of a rejected promise: anything can
    be thrown.  An object that is not an [Error] is kept by what
    converting it to a string does, which is to return a string or to
    throw in its turn: [Object.create(null)], which has no [toString] at
    all, is [JsOpaque (JsError "TypeError: Cannot convert object to
    primitive value")]. *)
Inductive JsValue :=
| JsError (text : string)           (* an [Error] object, by its [toString()] *)
| JsString (s : string)             (* a string *)
| JsSymbol (description : string)   (* [Symbol(description)] *)
| JsObject (text : string)          (* another object, whose conversion returns [text] *)
| JsOpaque (thrown : JsValue).      (* another object, whose conversion throws [thrown] *)

(** [${v}] in a template literal, the conversion ToString: it throws a
    TypeError on a symbol, and on an object whatever the object's own
    conversion throws.  [inl] is a throw, [inr] the string. *)
Definition String_of (v : JsValue) : JsValue + string :=
  match v with
  | JsError text => inr text
  | JsString s => inr s
  | JsSymbol _ => inl (JsError "TypeError: Cannot convert a Symbol value to a string")
  | JsObject text => inr text
  | JsOpaque thrown => inl thrown
  end.

(** [String(v)]: as ToString, except that a symbol is described. *)
Definition String_call (v : JsValue) : JsValue + string :=
  match v with
  | JsSymbol description => inr ("Symbol(" +:+ description +:+ ")")
  | _ => String_of v
  end.

(** [err instanceof Error ? err : new Error(String(err))]. *)
Definition toError (err : JsValue) : JsValue + JsValue :=
  match err with
  | JsError text => inr (JsError text)
  | _ =>
      match String_call err with
      | inr s => inr (JsError ("Error: " +:+ s))
      | inl thrown => inl thrown
      end
  end.

Inductive Level := Log | Info | Warn | Error.

Inductive Method := reply | followUp.

(** What a dispatch or a loader does to the outside: console lines (with
    the value passed as second argument, if any) and messages delivered to
    the invoking user. *)
Inductive Effect :=
| Console (level : Level) (message : string) (detail : option JsValue)
| Sent (method : Method) (content : string) (ephemeral : bool).

(** Code that may throw, over a state [S]. *)
Definition M (S A : Type) : Type := S -> (JsValue + A) * S.

#[export] Instance M_ret {S} : MRet (M S) := fun A a s => (inr a, s).
#[export] Instance M_bind {S} : MBind (M S) := fun A B k m s =>
  match m s with
  | (inr a, s') => k a s'
  | (inl e, s') => (inl e, s')
  end.

Definition throw {S A} (e : JsValue) : M S A := fun s => (inl e, s).

(** An expression that touches no state: it throws or has a value. *)
Definition evaluate {S A} (completion : JsValue + A) : M S A := fun s => (completion, s).

(** [try { body } catch (err) { handler(err) }]. *)
Definition try_catch {S A} (body : M S A) (handler : JsValue -> M S A) : M S A :=
  fun s =>
    match body s with
    | (inr a, s') => (inr a, s')
    | (inl e, s') => handler e s'
    end.

(** [for (const x of xs) { body(x) }]. *)
Fixpoint for_of {S A} (xs : list A) (body : A -> M S unit) : M S unit :=
  match xs with
  | [] => mret tt
  | x :: rest => body x;; for_of rest body
  end.

(** * discord.js objects *)

Module Discord.

Inductive InteractionKind :=
| ChatInputCommand
| ContextMenuCommand
| Autocomplete
| Button
| StringSelectMenu
| OtherSelectMenu        (* user, role, mentionable and channel menus *)
| ModalSubmit.

#[export] Instance InteractionKind_eq_dec : EqDecision InteractionKind.
Proof. solve_decision. Defined.

(** An inbound interaction.  [rest_failure] is the platform's side: when
    it is [Some e], a message sent on this interaction is refused and
    the send rejects with [e]. *)
Record Interaction := {
  kind : InteractionKind;
  commandName : string;
  customId : string;
  user_tag : string;
  replied : bool;
  deferred : bool;
  rest_failure : option JsValue
}.

(** The state one dispatch runs in. *)
Record Runtime := {
  interaction : Interaction;
  Date_now : Z;
  effects : list Effect
}.

Definition Async (A : Type) : Type := M Runtime A.

Definition console (level : Level) (message : string) (detail : option JsValue) : Async unit :=
  fun rt => (inr tt, {| interaction := interaction rt; Date_now := Date_now rt;
                        effects := effects rt ++ [Console level message detail] |}).

(** The message was accepted by the platform. *)
Definition delivered (method : Method) (content : string) (ephemeral : bool) : Async unit :=
  fun rt =>
    let i := interaction rt in
    (inr tt,
     {| interaction := {| kind := kind i; commandName := commandName i;
                          customId := customId i; user_tag := user_tag i;
                          replied := true; deferred := deferred i;
                          rest_failure := rest_failure i |};
        Date_now := Date_now rt;
        effects := effects rt ++ [Sent method content ephemeral] |}).

(** [interaction.reply(message)]: refused once the interaction has been
    replied to or deferred. *)
Definition interaction_reply (content : string) (ephemeral : bool) : Async unit :=
  fun rt =>
    let i := interaction rt in
    if replied i || deferred i
    then throw (JsError "Error [InteractionAlreadyReplied]: The reply to this interaction has already been sent or deferred.") rt
    else match rest_failure i with
         | Some e => throw e rt
         | None => delivered reply content ephemeral rt
         end.

(** [interaction.followUp(message)]: needs an earlier reply or deferral. *)
Definition interaction_followUp (content : string) (ephemeral : bool) : Async unit :=
  fun rt =>
    let i := interaction rt in
    if replied i || deferred i
    then match rest_failure i with
         | Some e => throw e rt
         | None => delivered followUp content ephemeral rt
         end
    else throw (JsError "Error [InteractionNotReplied]: The reply to this interaction has not been sent or deferred.") rt.

Record SlashCommandBuilder := { name : string }.

(** The object a handler module exports; a field is [None] when the
    property is absent ([!('data' in obj)]). *)
Record ExportObject := {
  data : option SlashCommandBuilder;
  export_customId : option string;
  execute : option (Async unit)
}.

(** The collections [index.ts] attaches to the client. *)
Record Client := {
  commands : gmap string ExportObject;
  buttons : gmap string ExportObject;
  modals : gmap string ExportObject;
  selectMenus : gmap string ExportObject
}.

End Discord.

(** * The dispatcher: events/interactionCreate.ts *)

Module Dispatcher.
Import Discord.

Definition isChatInputCommand (i : Interaction) : bool := bool_decide (kind i = ChatInputCommand).
Definition isButton (i : Interaction) : bool := bool_decide (kind i = Button).
Definition isStringSelectMenu (i : Interaction) : bool := bool_decide (kind i = StringSelectMenu).
Definition isModalSubmit (i : Interaction) : bool := bool_decide (kind i = ModalSubmit).

Definition the_interaction : Async Interaction := fun rt => (inr (interaction rt), rt).
Definition Date_now_call : Async Z := fun rt => (inr (Date_now rt), rt).

(** The [error] and [errorType] arguments are accepted and not used. *)
Definition sendErrorResponse (userMessage : string) (error : string + JsValue)
    (errorType : string) : Async unit :=
  try_catch
    (i ← the_interaction;
     if replied i || deferred i
     then interaction_followUp userMessage true
     else interaction_reply userMessage true)
    (fun replyErr => console Error "Failed to reply with error:" (Some replyErr)).

(** [command.execute(interaction)]: calling an absent property throws. *)
Definition call_execute (command : ExportObject) : Async unit :=
  match execute command with
  | Some handler => handler
  | None => throw (JsError "TypeError: command.execute is not a function")
  end.

Definition handleChatInputCommand (client : Client) : Async unit :=
  i ← the_interaction;
  match commands client !! commandName i with
  | None =>
      console Warn ("Unknown command: " +:+ commandName i) None;;
      sendErrorResponse
        ("Command `" +:+ commandName i +:+ "` not found.")
        (inl ("Unknown command: " +:+ commandName i))
        "command_not_found"
  | Some command =>
      try_catch
        (console Log ("Running /" +:+ commandName i +:+ " by " +:+ user_tag i) None;;
         start ← Date_now_call;
         call_execute command;;
         finish ← Date_now_call;
         let ms := finish - start in
         i ← the_interaction;
         console Log (commandName i +:+ " executed in " +:+ pretty ms +:+ "ms") None)
        (fun err =>
           i ← the_interaction;
           console Error ("Error in command " +:+ commandName i +:+ ":") (Some err);;
           error ← evaluate (toError err);
           sendErrorResponse
             "Something went wrong while executing the command."
             (inr error)
             "command_execution_error")
  end.

Definition handleButtonInteraction : Async unit :=
  i ← the_interaction;
  console Log ("Button: " +:+ customId i +:+ " by " +:+ user_tag i) None;;
  try_catch
    (if String.eqb (customId i) "ping_refresh"
     then mret tt
     else console Info ("Unhandled button: " +:+ customId i) None)
    (fun err => console Error ("Button error (" +:+ customId i +:+ "):") (Some err)).

Definition handleSelectMenuInteraction : Async unit :=
  i ← the_interaction;
  console Log ("Select Menu: " +:+ customId i +:+ " by " +:+ user_tag i) None;;
  try_catch
    (console Info ("Unhandled select menu: " +:+ customId i) None)
    (fun err => console Error ("Select menu error (" +:+ customId i +:+ "):") (Some err)).

Definition handleModalInteraction : Async unit :=
  i ← the_interaction;
  console Log ("Modal: " +:+ customId i +:+ " by " +:+ user_tag i) None;;
  try_catch
    (console Info ("Unhandled modal: " +:+ customId i) None)
    (fun err => console Error ("Modal error (" +:+ customId i +:+ "):") (Some err)).

(** The exported [execute(interaction)]. *)
Definition execute (client : Client) : Async unit :=
  try_catch
    (i ← the_interaction;
     if isChatInputCommand i then handleChatInputCommand client
     else if isButton i then handleButtonInteraction
     else if isStringSelectMenu i then handleSelectMenuInteraction
     else if isModalSubmit i then handleModalInteraction
     else mret tt)
    (fun error => console Error "Unexpected interaction handling error:" (Some error)).

(** One inbound event as the process receives it. *)
Definition inbound (i : Interaction) (now : Z) : Runtime :=
  {| interaction := i; Date_now := now; effects := [] |}.



End Dispatcher.

(** * Startup discovery: the loaders of index.ts *)

Module Registry.
Import Discord.

Record Dirent := { dirent_name : string; isDirectory : bool }.

(** What [await import(path)] resolves to: the default export (absent
    when the file has none) and, for event files, the named exports
    [name], [once] and [execute]. *)
Record ModuleNamespace := {
  default : option ExportObject;
  event_name : option string;
  event_once : bool;
  event_execute : bool
}.

(** The directory tree under [__dirname] and what each file imports to.
    [readdir p = None] when [p] does not exist. *)
Record FileSystem := {
  readdir : string -> option (list Dirent);
  import : string -> JsValue + ModuleNamespace
}.

(** A listener installed with [client.on] or [client.once]. *)
Record Listener := { event : string; once : bool; source : string }.

Record Process := {
  client : Client;
  listeners : list Listener;
  stdout : list Effect
}.

Definition Loader (A : Type) : Type := M Process A.

Definition console (level : Level) (message : string) (detail : option JsValue) : Loader unit :=
  fun p => (inr tt, {| client := client p; listeners := listeners p;
                       stdout := stdout p ++ [Console level message detail] |}).

Definition the_client : Loader Client := fun p => (inr (client p), p).

Definition set_client (c : Client) : Loader unit :=
  fun p => (inr tt, {| client := c; listeners := listeners p; stdout := stdout p |}).

(** [client.commands.set(key, value)] and its three siblings;
    [Collection] is a [Map]: a key holds one value. *)
Definition commands_set (key : string) (value : ExportObject) : Loader unit :=
  c ← the_client;
  set_client {| commands := <[key := value]> (commands c); buttons := buttons c;
                modals := modals c; selectMenus := selectMenus c |}.

Definition buttons_set (key : string) (value : ExportObject) : Loader unit :=
  c ← the_client;
  set_client {| commands := commands c; buttons := <[key := value]> (buttons c);
                modals := modals c; selectMenus := selectMenus c |}.

Definition modals_set (key : string) (value : ExportObject) : Loader unit :=
  c ← the_client;
  set_client {| commands := commands c; buttons := buttons c;
                modals := <[key := value]> (modals c); selectMenus := selectMenus c |}.

Definition selectMenus_set (key : string) (value : ExportObject) : Loader unit :=
  c ← the_client;
  set_client {| commands := commands c; buttons := buttons c;
                modals := modals c; selectMenus := <[key := value]> (selectMenus c) |}.

Definition add_listener (l : Listener) : Loader unit :=
  fun p => (inr tt, {| client := client p; listeners := listeners p ++ [l];
                       stdout := stdout p |}).

(** [file.endsWith('.ts') || file.endsWith('.js')]. *)
Definition is_script (file : string) : bool := endsWith file ".ts" || endsWith file ".js".

Section WithFileSystem.

Variable fs : FileSystem.
Variable __dirname : string.

Definition existsSync (path : string) : bool := bool_decide (is_Some (readdir fs path)).

Definition readdirSync (path : string) : Loader (list Dirent) :=
  match readdir fs path with
  | Some entries => mret entries
  | None =>
      throw (JsError ("Error: ENOENT: no such file or directory, scandir '" +:+ path +:+ "'"))
  end.

Definition script_files (path : string) : Loader (list string) :=
  entries ← readdirSync path;
  mret (filter (fun file => is_script file = true) (map dirent_name entries)).

Definition import_module (filePath : string) : Loader ModuleNamespace :=
  match import fs filePath with
  | inr m => mret m
  | inl e => throw e
  end.

(** [x.default], to be used as the right operand of [in]: the operator
    throws a TypeError on [undefined]. *)
Definition default_for_in (key : string) (m : ModuleNamespace) : Loader ExportObject :=
  match default m with
  | Some d => mret d
  | None =>
      throw (JsError ("TypeError: Cannot use 'in' operator to search for '" +:+ key +:+
                      "' in undefined"))
  end.

(** The body of [for (const file of commandFiles)]. *)
Definition loadCommandFile (folderPath file : string) : Loader unit :=
  let filePath := join folderPath file in
  command ← import_module filePath;
  d ← default_for_in "data" command;
  match data d, execute d with
  | Some builder, Some _ =>
      commands_set (name builder) d;;
      console Log ("Loaded command: " +:+ name builder +:+ " from " +:+ filePath) None
  | _, _ =>
      console Warn ("Command in " +:+ filePath +:+ " is missing required properties.") None
  end.

Definition loadCommandFolder (commandsPath folder : string) : Loader unit :=
  let folderPath := join commandsPath folder in
  commandFiles ← script_files folderPath;
  for_of commandFiles (loadCommandFile folderPath).

Definition loadCommands : Loader unit :=
  let commandsPath := join __dirname "commands" in
  try_catch
    (entries ← readdirSync commandsPath;
     let commandFolders :=
       map dirent_name (filter (fun d => isDirectory d = true) entries) in
     console Log ("Loading commands from folders: " +:+ String.concat ", " commandFolders) None;;
     for_of commandFolders (loadCommandFolder commandsPath);;
     c ← the_client;
     console Log ("Loaded " +:+ pretty (size (commands c)) +:+ " commands.") None)
    (fun error =>
       text ← evaluate (String_of error);
       console Error ("Error loading commands: " +:+ text) None).

Definition loadEventFile (eventsPath file : string) : Loader unit :=
  let filePath := join eventsPath file in
  event ← import_module filePath;
  match event_name event, event_execute event with
  | Some n, true =>
      add_listener {| event := n; once := event_once event; source := filePath |};;
      console Log ("Loaded Event: " +:+ n +:+ " (" +:+
                   (if event_once event then "once" else "on") +:+ ")") None
  | _, _ =>
      console Log ("Event at " +:+ filePath +:+ " is missing required properties.") None
  end.

Definition loadEvents : Loader unit :=
  let eventsPath := join __dirname "events" in
  try_catch
    (if negb (existsSync eventsPath)
     then console Log "Events directory not found. Skipping event loading." None
     else
       eventFiles ← script_files eventsPath;
       for_of eventFiles (loadEventFile eventsPath);;
       console Log ("Total Events Loaded: " +:+ pretty (length eventFiles)) None)
    (fun error => console Error "Error loading events:" (Some error)).

(** The body shared, up to the collection and the wording of the log
    line, by [loadButtons], [loadModals] and [loadSelectMenus]: there
    is no [else]. *)
Definition loadComponentFile (set : string -> ExportObject -> Loader unit)
    (label dir file : string) : Loader unit :=
  let filePath := join dir file in
  component ← import_module filePath;
  d ← default_for_in "customId" component;
  match export_customId d, execute d with
  | Some cid, Some _ =>
      set cid d;;
      console Log ("Loaded " +:+ label +:+ ": " +:+ cid +:+ " from " +:+ filePath) None
  | _, _ => mret tt
  end.

Definition loadComponents (set : string -> ExportObject -> Loader unit)
    (label dir : string) : Loader unit :=
  if existsSync dir
  then files ← script_files dir; for_of files (loadComponentFile set label dir)
  else mret tt.

Definition loadButtons (interactionsPath : string) : Loader unit :=
  loadComponents buttons_set "button" (join interactionsPath "buttons").

Definition loadModals (interactionsPath : string) : Loader unit :=
  loadComponents modals_set "modal" (join interactionsPath "modals").

Definition loadSelectMenus (interactionsPath : string) : Loader unit :=
  loadComponents selectMenus_set "select menu" (join interactionsPath "selectMenus").

Definition loadInteractions : Loader unit :=
  let interactionsPath := join __dirname "interactions" in
  try_catch
    (loadButtons interactionsPath;;
     loadModals interactionsPath;;
     loadSelectMenus interactionsPath;;
     c ← the_client;
     console Log ("Total interactions loaded: " +:+
                  pretty (size (buttons c) + size (modals c) + size (selectMenus c))%nat) None)
    (fun error => console Error "Error loading interactions:" (Some error)).

(** The loading steps of [initializeBot], before the login. *)
Definition discover : Loader unit :=
  loadCommands;; loadEvents;; loadInteractions.

End WithFileSystem.

(** [new Collection()] four times, no listener, nothing printed yet. *)
Definition startup : Process :=
  {| client := {| commands := ∅; buttons := ∅; modals := ∅; selectMenus := ∅ |};
     listeners := [];
     stdout := [] |}.

End Registry.

(** * The warn command's use of the store: commands/moderation/warn.ts *)

Module WarnCommand.

Record User := { id : string; tag : string }.

Record Guild := { guild_id : string; guild_name : string }.

Record WarnResult := {
  success : bool;
  user : string;
  targetUser : option string;
  moderator : option string;
  reason : option string;
  infractionId : option string;
  errorReason : option string;
  evidence : option string            (* the [url] of [{ url }] *)
}.

(** What [warnUser] runs in: the store's runtime and the console. *)
Record Env := {
  world : InfractionStore.World;
  stderr : list Effect
}.

(** The error object a failed statement throws. *)
Definition thrown (e : InfractionStore.error) : JsValue :=
  match e with
  | InfractionStore.ConnectionNotOpen =>
      JsError "TypeError: The database connection is not open"
  | InfractionStore.UniqueConstraintFailed _ =>
      JsError "SqliteError: UNIQUE constraint failed: user_infractions.id"
  end.

(** [evidence ? { url: evidence } : undefined]: the empty string is falsy. *)
Definition evidence_url (evidence : option string) : option string :=
  match evidence with
  | Some url => if String.eqb url EmptyString then None else Some url
  | None => None
  end.

(** [warnUser(targetMember, reason, moderator, interaction, evidence)].
    Of the interaction it reads [guild] and [user]; [now] is the time of
    the INSERT and [fuel] bounds the id loop as in the store. *)
Definition warnUser (Math_random : nat -> Z) (fuel : nat) (now : Z)
    (targetMember : User) (reason moderator : string)
    (guild : option Guild) (interaction_user : User) (evidence : option string)
    (env : Env) : option (WarnResult * Env) :=
  match guild with
  | None =>
      Some ({| success := false; user := tag targetMember; targetUser := None;
               moderator := None; reason := None; infractionId := None;
               errorReason := Some "Guild information not available.";
               evidence := None |}, env)
  | Some g =>
      match InfractionStore.addWarning Math_random fuel now
              (id targetMember) (guild_id g) (id interaction_user) reason (world env) with
      | None => None
      | Some (InfractionStore.Ok infractionId, w') =>
          Some ({| success := true; user := tag targetMember;
                   targetUser := Some (tag targetMember);
                   moderator := Some moderator; reason := Some reason;
                   infractionId := Some infractionId; errorReason := None;
                   evidence := evidence_url evidence |},
                {| world := w'; stderr := stderr env |})
      | Some (InfractionStore.Err e, w') =>
          Some ({| success := false; user := tag targetMember; targetUser := None;
                   moderator := None; reason := None; infractionId := None;
                   errorReason := Some "Failed to save warning to database.";
                   evidence := None |},
                {| world := w';
                   stderr := stderr env ++
                     [Console Error "Error warning user:" (Some (thrown e))] |})
      end
  end.

End WarnCommand.

(** * The earlier store: guild settings, numbered warnings, nicknames *)

(** The [DatabaseManager] with the tables [guild_settings],
    [user_warnings] and [user_nicknames].  A table with a PRIMARY KEY that
    is only ever read by that key is a finite map from the key to the rest
    of the row; [user_warnings] is the list of its rows together with the
    AUTOINCREMENT high-water mark of [sqlite_sequence].  The FOREIGN KEY
    clauses are not enforced: the code never turns the pragma on. *)
Module LegacyStore.

Record GuildSettings := {
  guildId : string;
  prefix : option string;
  modLogChannel : option string;
  muteRole : option string;
  autoModEnabled : bool;
  createdAt : Date;
  updatedAt : Date
}.

(** [Partial<GuildSettings>], as far as the statements read it. *)
Record PartialSettings := {
  given_prefix : option string;
  given_modLogChannel : option string;
  given_muteRole : option string;
  given_autoModEnabled : option bool
}.

Record UserNickname := {
  nick_userId : string;
  nick_guildId : string;
  nickname : string;
  setBy : string;
  nick_createdAt : Date
}.

Record GuildRow := {
  col_prefix : option string;
  mod_log_channel : option string;
  mute_role : option string;
  auto_mod_enabled : Z;
  created_at : Z;
  updated_at : Z
}.

Record WarningRow := {
  warning_id : Z;
  user_id : string;
  guild_id : string;
  moderator_id : string;
  reason : string;
  warned_at : Z
}.

Record NicknameRow := {
  col_nickname : string;
  set_by : string;
  set_at : Z
}.

Record Database := {
  open : bool;
  guild_settings : gmap string GuildRow;
  user_warnings : list WarningRow;
  sqlite_sequence : Z;
  user_nicknames : gmap (string * string) NicknameRow
}.

(** What a statement can throw. *)
Inductive error :=
| ConnectionNotOpen   (* TypeError: The database connection is not open *)
| DatabaseFull.       (* SqliteError: database or disk is full *)

Inductive result (A : Type) :=
| Ok (a : A)
| Err (e : error).
Arguments Ok {A} a.
Arguments Err {A} e.

#[export] Instance result_ret : MRet result := fun A a => Ok a.
#[export] Instance result_bind : MBind result := fun A B k r =>
  match r with
  | Ok a => k a
  | Err e => Err e
  end.
#[export] Instance result_fmap : FMap result := fun A B f r =>
  match r with
  | Ok a => Ok (f a)
  | Err e => Err e
  end.

(** [this.db.prepare(sql)]. *)
Definition prepare (d : Database) : result unit :=
  if open d then Ok tt else Err ConnectionNotOpen.

(** [value || null] on an optional string: [undefined] and the empty
    string both become NULL. *)
Definition or_null (value : option string) : option string :=
  match value with
  | Some text => if String.eqb text EmptyString then None else Some text
  | None => None
  end.

(** [COALESCE(?, column)]. *)
Definition coalesce {A} (parameter : option A) (column : A) : A :=
  match parameter with
  | Some v => v
  | None => column
  end.

Definition coalesce_null {A} (parameter column : option A) : option A :=
  match parameter with
  | Some v => Some v
  | None => column
  end.

Definition bit (b : bool) : Z := if b then 1 else 0.

(** [Boolean(result.auto_mod_enabled)]. *)
Definition Boolean (n : Z) : bool := negb (n =? 0).

Definition getGuildSettings {zone : TimeZone} (guildId : string) (d : Database)
    : result (option GuildSettings) :=
  _ ← prepare d;
  match guild_settings d !! guildId with
  | None => Ok None
  | Some row =>
      Ok (Some {| guildId := guildId;
                  prefix := col_prefix row;
                  modLogChannel := mod_log_channel row;
                  muteRole := mute_role row;
                  autoModEnabled := Boolean (auto_mod_enabled row);
                  createdAt := new_Date (created_at row);
                  updatedAt := new_Date (updated_at row) |})
  end.

(** [INSERT ... ON CONFLICT(guild_id) DO UPDATE SET ...]; [now] is
    CURRENT_TIMESTAMP.  The INSERT gives every column a value, so the
    column defaults play no part. *)
Definition createOrUpdateGuildSettings (now : Z) (guildId : string)
    (settings : PartialSettings) (d : Database) : result Database :=
  _ ← prepare d;
  let row :=
    match guild_settings d !! guildId with
    | None =>
        {| col_prefix := or_null (given_prefix settings);
           mod_log_channel := or_null (given_modLogChannel settings);
           mute_role := or_null (given_muteRole settings);
           auto_mod_enabled := bit (default false (given_autoModEnabled settings));
           created_at := now;
           updated_at := now |}
    | Some old =>
        {| col_prefix := coalesce_null (or_null (given_prefix settings)) (col_prefix old);
           mod_log_channel :=
             coalesce_null (or_null (given_modLogChannel settings)) (mod_log_channel old);
           mute_role := coalesce_null (or_null (given_muteRole settings)) (mute_role old);
           auto_mod_enabled :=
             coalesce (bit <$> given_autoModEnabled settings) (auto_mod_enabled old);
           created_at := created_at old;
           updated_at := now |}
    end in
  Ok {| open := open d;
        guild_settings := <[guildId := row]> (guild_settings d);
        user_warnings := user_warnings d;
        sqlite_sequence := sqlite_sequence d;
        user_nicknames := user_nicknames d |}.

(** The empty object [{}]. *)
Definition no_settings : PartialSettings :=
  {| given_prefix := None; given_modLogChannel := None; given_muteRole := None;
     given_autoModEnabled := None |}.

(** A rowid is a signed 64-bit integer. *)
Definition max_rowid : Z := 2 ^ 63 - 1.

(** The rowid an AUTOINCREMENT table gives the next row: one more than
    the largest rowid ever used. *)
Definition next_rowid (d : Database) : Z :=
  1 + foldr Z.max (sqlite_sequence d) (warning_id <$> user_warnings d).

(** The 64-bit integer [n], not negative, as a JavaScript number: the
    nearest double, a tie going to the even significand.  Up to [2^53]
    every integer is a double; from there on the doubles are [ulp]
    apart. *)
Definition Number_of_int64 (n : Z) : Z :=
  if n <=? 2 ^ 53 then n
  else
    let ulp := 2 ^ (Z.log2 n - 52) in
    let q := n `div` ulp in
    let r := n `mod` ulp in
    if 2 * r <? ulp then q * ulp
    else if ulp <? 2 * r then (q + 1) * ulp
    else if Z.even q then q * ulp else (q + 1) * ulp.

(** [addWarning]; returns [result.lastInsertRowid], which the driver
    hands over as a number.  The two statements run one after the other
    outside any transaction: when the INSERT fails because the rowids are
    used up, the guild's settings have been written all the same, so the
    database after the call is returned beside the outcome. *)
Definition addWarning (now : Z) (userId guildId moderatorId reason : string)
    (d : Database) : result Z * Database :=
  match createOrUpdateGuildSettings now guildId no_settings d with
  | Err e => (Err e, d)
  | Ok d1 =>
      match prepare d1 with
      | Err e => (Err e, d1)
      | Ok _ =>
          let rowid := next_rowid d1 in
          if max_rowid <? rowid then (Err DatabaseFull, d1)
          else
            (Ok (Number_of_int64 rowid),
             {| open := open d1;
                guild_settings := guild_settings d1;
                user_warnings := user_warnings d1 ++
                  [{| warning_id := rowid; user_id := userId; guild_id := guildId;
                      moderator_id := moderatorId; reason := reason; warned_at := now |}];
                sqlite_sequence := rowid;
                user_nicknames := user_nicknames d1 |})
      end
  end.

Definition where_member (userId guildId : string) (row : WarningRow) : bool :=
  String.eqb (user_id row) userId && String.eqb (guild_id row) guildId.

Definition getWarningCount (userId guildId : string) (d : Database) : result nat :=
  _ ← prepare d;
  Ok (length (filter (fun row => where_member userId guildId row = true) (user_warnings d))).

(** [INSERT ... ON CONFLICT(user_id, guild_id) DO UPDATE SET ...]: both
    branches write the nickname, who set it, and the current time. *)
Definition setUserNickname (now : Z) (userId guildId nickname setBy : string)
    (d : Database) : result Database :=
  d1 ← createOrUpdateGuildSettings now guildId no_settings d;
  _ ← prepare d1;
  Ok {| open := open d1;
        guild_settings := guild_settings d1;
        user_warnings := user_warnings d1;
        sqlite_sequence := sqlite_sequence d1;
        user_nicknames :=
          <[(userId, guildId) :=
              {| col_nickname := nickname; set_by := setBy; set_at := now |}]>
            (user_nicknames d1) |}.

Definition getUserNickname {zone : TimeZone} (userId guildId : string) (d : Database)
    : result (option UserNickname) :=
  _ ← prepare d;
  match user_nicknames d !! (userId, guildId) with
  | None => Ok None
  | Some row =>
      Ok (Some {| nick_userId := userId; nick_guildId := guildId;
                  nickname := col_nickname row; setBy := set_by row;
                  nick_createdAt := new_Date (set_at row) |})
  end.

(** [DELETE ...]; returns [result.changes > 0]. *)
Definition removeUserNickname (userId guildId : string) (d : Database)
    : result (bool * Database) :=
  _ ← prepare d;
  Ok (bool_decide (is_Some (user_nicknames d !! (userId, guildId))),
      {| open := open d;
         guild_settings := guild_settings d;
         user_warnings := user_warnings d;
         sqlite_sequence := sqlite_sequence d;
         user_nicknames := delete (userId, guildId) (user_nicknames d) |}).

Record Stats := { guilds : nat; warnings : nat; nicknames : nat }.

Definition getStats (d : Database) : result Stats :=
  _ ← prepare d;
  Ok {| guilds := size (guild_settings d);
        warnings := length (user_warnings d);
        nicknames := size (user_nicknames d) |}.

(** A guild's settings apart from the time of the last write. *)
Definition settled (gs : GuildSettings)
    : string * option string * option string * option string * bool * Date :=
  (guildId gs, prefix gs, modLogChannel gs, muteRole gs, autoModEnabled gs, createdAt gs).

End LegacyStore.

(** * The nickname filter: commands/community/nickname.ts *)

(** Here a JavaScript string is the list of its UTF-16 code units, which
    is what the regular expression (it has no [u] flag) and [charCodeAt]
    both see. *)
Module NicknameCommand.

Definition between (low high charCode : Z) : bool := (low <=? charCode) && (charCode <=? high).

(** The class [\s]: the white space and line terminator code units. *)
Definition white_space (c : Z) : bool :=
  between 0x09 0x0d c || (c =? 0x20) || (c =? 0xa0) || (c =? 0x1680) ||
  between 0x2000 0x200a c || (c =? 0x2028) || (c =? 0x2029) || (c =? 0x202f) ||
  (c =? 0x205f) || (c =? 0x3000) || (c =? 0xfeff).

(** The class [[a-zA-Z0-9\s\-_]]. *)
Definition allowed (c : Z) : bool :=
  between 0x61 0x7a c || between 0x41 0x5a c || between 0x30 0x39 c ||
  white_space c || (c =? 0x2d) || (c =? 0x5f).

(** [allowedPattern.test(nickname)]: one or more allowed code units from
    the start of the string to its end. *)
Definition allowedPattern_test (nickname : list Z) : bool :=
  match nickname with
  | [] => false
  | _ => forallb allowed nickname
  end.

(** The six ranges the loop looks for. *)
Definition in_blocked_range (charCode : Z) : bool :=
  between 0x1d400 0x1d7ff charCode || between 0x1f100 0x1f1ff charCode ||
  between 0x2100 0x214f charCode || between 0xff00 0xffef charCode ||
  between 0x0400 0x04ff charCode || between 0x0370 0x03ff charCode.

(** The [for] loop over [charCodeAt(i)]. *)
Fixpoint scan (nickname : list Z) : bool :=
  match nickname with
  | [] => true
  | charCode :: rest => if in_blocked_range charCode then false else scan rest
  end.

Definition isValidNickname (nickname : list Z) : bool :=
  if negb (allowedPattern_test nickname) then false else scan nickname.

End NicknameCommand.

(** * Properties the contracts speak of *)

Module Contract.
Import InfractionStore.

(** An uppercase Latin letter or a decimal digit. *)
Definition upper_or_digit (c : Ascii.ascii) : bool :=
  let n := Ascii.nat_of_ascii c in
  ((65 <=? n)%nat && (n <=? 90)%nat) || ((48 <=? n)%nat && (n <=? 57)%nat).

Definition lowercase (c : Ascii.ascii) : bool :=
  let n := Ascii.nat_of_ascii c in (97 <=? n)%nat && (n <=? 122)%nat.

Definition letters (s : string) : list Ascii.ascii := String.list_ascii_of_string s.

(** The ids present in the store. *)
Definition stored_ids (d : Database) : list string := row_id <$> user_infractions d.

(** An id the generator can write: eight characters of [chars]. *)
Definition well_formed_id (i : string) : Prop :=
  String.length i = 8%nat ∧ Forall (λ c, c ∈ letters chars) (letters i).

(** The candidate drawn in round [k] of the id loop when the loop starts
    after [calls] calls of [Math.random()]. *)
Definition candidate (Math_random : nat → Z) (calls k : nat) : string :=
  (generateInfractionId Math_random (calls + 8 * k)).1.

(** The runtime after [n] more calls of [Math.random()]. *)
Definition advance (w : World) (n : nat) : World :=
  {| db := db w; random_calls := (random_calls w + n)%nat |}.

(** Round [k] is the first whose candidate is not in the store. *)
Definition first_unused (Math_random : nat → Z) (w : World) (k : nat) : Prop :=
  (candidate Math_random (random_calls w) k ∉ stored_ids (db w)) ∧
  ∀ j, (j < k)%nat → candidate Math_random (random_calls w) j ∈ stored_ids (db w).

(** The id loop comes to an end on [w]. *)
Definition terminates (Math_random : nat → Z) (w : World) : Prop :=
  ∃ fuel r, getUniqueInfractionId Math_random fuel w = Some r.

(** Some id the generator can write is not in the store. *)
Definition some_id_unused (w : World) : Prop :=
  ∃ i, well_formed_id i ∧ i ∉ stored_ids (db w).

(** The rows a scoped query selects, in insertion order. *)
Definition selected (u g : string) (t : option InfractionType) (d : Database) : list Row :=
  filter (λ r, where_scope u g t r = true) (user_infractions d).

Definition newest_first : relation Infraction := λ a b, createdAt b ≤ createdAt a.
Definition rows_newest_first : relation Row := λ a b, created_at b ≤ created_at a.

(** Among the rows written in one and the same second, [sorted] has the
    order of [rows]. *)
Definition same_second_as_inserted (rows sorted : list Row) : Prop :=
  ∀ text, filter (λ r, created_at r = text) sorted = filter (λ r, created_at r = text) rows.

(** The host reads the timestamps of [rows] in their order: a later
    text is a later instant.  It holds of every list in a zone whose
    clocks are never changed, UTC for one; where the clocks are put
    forward, the readings of the hour after the change are the instants
    of the hour before it. *)
Definition read_in_order {zone : TimeZone} (rows : list Row) : Prop :=
  ∀ a b, a ∈ rows → b ∈ rows → created_at a < created_at b →
         new_Date (created_at a) < new_Date (created_at b).

(** Among infractions of one [createdAt]: the order of insertion, or
    its reverse. *)
Definition ties_in_insertion_order {zone : TimeZone} (rows : list Row)
    (l : list Infraction) : Prop :=
  ∀ ts, filter (λ i, createdAt i = ts) l
        = row_to_infraction <$> filter (λ r, new_Date (created_at r) = ts) rows.

Definition ties_most_recent_first {zone : TimeZone} (rows : list Row)
    (l : list Infraction) : Prop :=
  ∀ ts, filter (λ i, createdAt i = ts) l
        = reverse (row_to_infraction <$> filter (λ r, new_Date (created_at r) = ts) rows).

(** The ordering contract as the specification words it: exactly the
    selected rows, newest first, and among equal timestamps the most
    recently inserted row first. *)
Definition spec_getUserInfractions {zone : TimeZone} (u g : string)
    (t : option InfractionType) (d : Database) : Prop :=
  ∃ l, getUserInfractions u g t d = Ok l ∧
       l ≡ₚ row_to_infraction <$> selected u g t d ∧
       StronglySorted newest_first l ∧
       ties_most_recent_first (selected u g t d) l.

(** What the call [c] may do to the store: add rows at the end, keep
    the PRIMARY KEY constraint, and close the handle only if it is
    [close]. *)
Definition appended (c : Call) (d d' : Database) : Prop :=
  (∃ added, user_infractions d' = user_infractions d ++ added) ∧
  primary_key_ok d' ∧
  (open d' = true ↔ open d = true ∧ c ≠ call_close).

(** A stored row is still handed out, as it was stored, by the lookup
    by id and by every scoped query that matches it. *)
Definition still_returned {zone : TimeZone} (row : Row) (d : Database) : Prop :=
  getInfractionById (row_id row) d = Ok (Some (row_to_infraction row)) ∧
  ∀ t, (∀ ty, t = Some ty → row_type row = ty) →
       ∃ l, getUserInfractions (user_id row) (guild_id row) t d = Ok l ∧
            row_to_infraction row ∈ l.

(** The append-only contract as the specification words it, for the
    calls [cs] made on [w]. *)
Definition spec_append_only {zone : TimeZone} (Math_random : nat → Z) (fuel : nat)
    (cs : list Call) (w : World) : Prop :=
  ∀ rs w', perform_all Math_random fuel cs w = Some (rs, w') →
           ∀ row, row ∈ user_infractions (db w) → still_returned row (db w').

End Contract.

Module DispatchContract.
Import Discord Dispatcher.

(** No handler is registered under the key of the interaction, in the
    collection of its kind. *)
Definition unrouted (client : Client) (i : Interaction) : Prop :=
  match kind i with
  | ChatInputCommand | ContextMenuCommand | Autocomplete =>
      commands client !! commandName i = None
  | Button => buttons client !! customId i = None
  | StringSelectMenu | OtherSelectMenu => selectMenus client !! customId i = None
  | ModalSubmit => modals client !! customId i = None
  end.

Definition is_console (e : Effect) : bool :=
  match e with
  | Console _ _ _ => true
  | Sent _ _ _ => false
  end.

(** What becomes of an error notice for the interaction [i]: the
    ephemeral message reaches the user, as a follow-up when the
    interaction was already answered, or the platform refuses it and the
    refusal is logged. *)
Definition notice (i : Interaction) (content : string) : list Effect :=
  match rest_failure i with
  | None => [Sent (if replied i || deferred i then followUp else reply) content true]
  | Some e => [Console Error "Failed to reply with error:" (Some e)]
  end.

(** Everything a dispatch of the unrouted interaction [i] does. *)
Definition miss_effects (i : Interaction) : list Effect :=
  match kind i with
  | ChatInputCommand =>
      Console Warn ("Unknown command: " +:+ commandName i) None
      :: notice i ("Command `" +:+ commandName i +:+ "` not found.")
  | Button =>
      Console Log ("Button: " +:+ customId i +:+ " by " +:+ user_tag i) None
      :: (if String.eqb (customId i) "ping_refresh" then []
          else [Console Info ("Unhandled button: " +:+ customId i) None])
  | StringSelectMenu =>
      [Console Log ("Select Menu: " +:+ customId i +:+ " by " +:+ user_tag i) None;
       Console Info ("Unhandled select menu: " +:+ customId i) None]
  | ModalSubmit =>
      [Console Log ("Modal: " +:+ customId i +:+ " by " +:+ user_tag i) None;
       Console Info ("Unhandled modal: " +:+ customId i) None]
  | ContextMenuCommand | Autocomplete | OtherSelectMenu => []
  end.

(** The routing-miss contract as the specification words it: the
    dispatch completes, the miss is logged, a command invocation gets
    the "not found" response, any other kind gets log entries only. *)
Definition spec_dispatch_miss (client : Client) (i : Interaction) (now : Z) : Prop :=
  let out := execute client (inbound i now) in
  out.1 = inr tt ∧
  (∃ level message detail, Console level message detail ∈ effects out.2) ∧
  (kind i = ChatInputCommand →
     ∃ method, Sent method ("Command `" +:+ commandName i +:+ "` not found.") true
               ∈ effects out.2) ∧
  (kind i ≠ ChatInputCommand → Forall (λ e, is_console e = true) (effects out.2)).

(** The runtime a command handler starts in. *)
Definition at_handler_start (i : Interaction) (now : Z) : Runtime :=
  {| interaction := i; Date_now := now;
     effects := [Console Log ("Running /" +:+ commandName i +:+ " by " +:+ user_tag i) None] |}.


End DispatchContract.

(** * What callers of the store can observe *)

Module Observations.
Import InfractionStore.

(** The id a call handed back, if it was an adding call that returned. *)
Definition added_id (r : Response) : list string :=
  match r with
  | returned_id (Ok i) => [i]
  | _ => []
  end.

(** The ids handed back by a run of calls, in call order. *)
Definition added_ids (rs : list Response) : list string := rs ≫= added_id.

(** The row [addInfraction] writes for the id [i]. *)
Definition new_row (i : string) (now : Z) (userId guildId moderatorId : string)
    (type : InfractionType) (reason : string) : Row :=
  {| row_id := i; user_id := userId; guild_id := guildId; moderator_id := moderatorId;
     row_type := type; row_reason := reason; created_at := now |}.

(** The query [(u', g', t')] selects rows of user [u], guild [g], type [t]. *)
Definition covers (u' g' : string) (t' : option InfractionType)
    (u g : string) (t : InfractionType) : Prop :=
  u' = u ∧ g' = g ∧ (t' = None ∨ t' = Some t).

End Observations.

(** * What discovery may do to the process *)

Module RegistryContract.
Import Discord Registry.

(** The loader [m] takes every process to one related to it by [R]. *)
Definition preserves {A} (R : relation Process) (m : Loader A) : Prop :=
  ∀ p, R p (m p).2.

(** Nothing is taken away: every key registered in a collection is still
    registered, the listeners and the console only got longer. *)
Definition only_adds (p p' : Process) : Prop :=
  dom (commands (client p)) ⊆ dom (commands (client p')) ∧
  dom (buttons (client p)) ⊆ dom (buttons (client p')) ∧
  dom (modals (client p)) ⊆ dom (modals (client p')) ∧
  dom (selectMenus (client p)) ⊆ dom (selectMenus (client p')) ∧
  listeners p `prefix_of` listeners p' ∧
  stdout p `prefix_of` stdout p'.

(** Only [client.commands] and the console may differ. *)
Definition commands_only (p p' : Process) : Prop :=
  buttons (client p') = buttons (client p) ∧
  modals (client p') = modals (client p) ∧
  selectMenus (client p') = selectMenus (client p) ∧
  listeners p' = listeners p.

(** Only the listeners and the console may differ. *)
Definition listeners_only (p p' : Process) : Prop := client p' = client p.

(** Only the three component collections and the console may differ. *)
Definition components_only (p p' : Process) : Prop :=
  commands (client p') = commands (client p) ∧ listeners p' = listeners p.

(** The process [p] with [lines] printed after what it had printed. *)
Definition printing (p : Process) (lines : list Effect) : Process :=
  {| client := client p; listeners := listeners p; stdout := stdout p ++ lines |}.

(** The value can be written into a template literal. *)
Definition printable (e : JsValue) : Prop := ∃ text, String_of e = inr text.

(** The value is what some import of [fs] throws. *)
Definition import_failure (fs : FileSystem) (e : JsValue) : Prop :=
  ∃ path, import fs path = inl e.

(** Whatever an import of [fs] throws can be written into a template
    literal. *)
Definition printable_failures (fs : FileSystem) : Prop :=
  ∀ e, import_failure fs e → printable e.

(** The loader [m] throws nothing but values that satisfy [P]. *)
Definition throws_only {A} (P : JsValue → Prop) (m : Loader A) : Prop :=
  ∀ p e, (m p).1 = inl e → P e.

(** The five kinds of handler key: a command name, the [customId] of a
    button, of a modal or of a select menu, and an event name. *)
Inductive Group := Commands | Buttons | Modals | SelectMenus | Events.

(** What is registered under a key: an exported object in one of the
    four collections, or a listener on the client. *)
Inductive Entry :=
| Handler (d : ExportObject)
| Listening (l : Listener).

(** Everything registered under [key] in the group, in the order of
    registration: what [client.commands.get(key)] and its siblings
    return, and what [client.listeners(key)] returns. *)
Definition registered (g : Group) (key : string) (p : Process) : list Entry :=
  match g with
  | Commands => Handler <$> option_list (commands (client p) !! key)
  | Buttons => Handler <$> option_list (buttons (client p) !! key)
  | Modals => Handler <$> option_list (modals (client p) !! key)
  | SelectMenus => Handler <$> option_list (selectMenus (client p) !! key)
  | Events => Listening <$> filter (λ l, event l = key) (listeners p)
  end.

(** The loop body that loads one file of the group. *)
Definition loadFile (fs : FileSystem) (g : Group) (dir file : string) : Loader unit :=
  match g with
  | Commands => loadCommandFile fs dir file
  | Buttons => loadComponentFile fs buttons_set "button" dir file
  | Modals => loadComponentFile fs modals_set "modal" dir file
  | SelectMenus => loadComponentFile fs selectMenus_set "select menu" dir file
  | Events => loadEventFile fs dir file
  end.

(** The key and the entry that the module at [path] offers to the group,
    when it has the two properties the loader of the group asks for. *)
Definition offers (g : Group) (path : string) (m : ModuleNamespace)
    : option (string * Entry) :=
  match g with
  | Commands =>
      d ← default m; builder ← data d; _ ← execute d; Some (name builder, Handler d)
  | Buttons | Modals | SelectMenus =>
      d ← default m; cid ← export_customId d; _ ← execute d; Some (cid, Handler d)
  | Events =>
      n ← event_name m;
      if event_execute m
      then Some (n, Listening {| event := n; once := event_once m; source := path |})
      else None
  end.

(** Last registration wins, as the specification words it: once the
    file is loaded, the lookup of its key returns the new entry and
    nothing else. *)
Definition spec_reregistration (fs : FileSystem) (g : Group) (dir file : string)
    (p : Process) : Prop :=
  ∀ m key entry,
    import fs (join dir file) = inr m →
    offers g (join dir file) m = Some (key, entry) →
    registered g key p ≠ [] →
    registered g key (loadFile fs g dir file p).2 = [entry].

End RegistryContract.

(** * Concrete stores and events *)

Module Examples.
Import InfractionStore.

(** A host that runs in UTC. *)
Definition UTC : TimeZone := λ t, t.

(** A host in Europe/London, for readings between the clock changes of
    October 2023 and October 2024.  On 31 March 2024 the clocks went from
    01:00 GMT to 02:00 BST: a reading before 02:00 of that day is a GMT
    time (the readings of the skipped hour included, which are taken with
    the offset in force before the change), a later one is a BST time,
    one hour ahead of UTC. *)
Definition London : TimeZone := λ t, if t <? 1711850400 then t else t - 3600.

(** A [Math.random()] that returns 0 at every call. *)
Definition always_zero : nat → Z := λ _, 0.

Definition empty_world : World :=
  {| db := {| open := true; user_infractions := [] |}; random_calls := 0 |}.

Definition spam_row : Row :=
  {| row_id := "AAAAAAAA"; user_id := "u1"; guild_id := "g1"; moderator_id := "m1";
     row_type := WARN; row_reason := "spam"; created_at := 1700000000 |}.

(** The runtime after [addInfraction("u1","g1","m1","WARN","spam")] on
    the empty store, with [always_zero]. *)
Definition spam_world : World :=
  {| db := {| open := true; user_infractions := [spam_row] |}; random_calls := 8 |}.

(** A second warning for the same member, entered in the same second. *)
Definition flood_row : Row :=
  {| row_id := "BBBBBBBB"; user_id := "u1"; guild_id := "g1"; moderator_id := "m2";
     row_type := WARN; row_reason := "flood"; created_at := 1700000000 |}.

Definition same_second : Database :=
  {| open := true; user_infractions := [spam_row; flood_row] |}.

(** A [Math.random()] whose [n]-th call returns [n / 32]: the draws
    walk through [chars]. *)
Definition counting : nat → Z := λ n, Z.of_nat n * 2 ^ 48.

(** A warning for another member, then a count for the first one. *)
Definition two_calls : list Call :=
  [call_addWarning 1700000060 "u2" "g1" "m1" "caps";
   call_getInfractionCount "u1" "g1" None].

Definition two_responses : list Response :=
  Eval vm_compute in
    match perform_all (zone := UTC) counting 1 two_calls spam_world with
    | Some (rs, _) => rs
    | None => []
    end.

Definition after_two_calls : World :=
  Eval vm_compute in
    match perform_all (zone := UTC) counting 1 two_calls spam_world with
    | Some (_, w) => w
    | None => spam_world
    end.

(** The store once the process has closed it. *)
Definition closed_world : World :=
  {| db := {| open := false; user_infractions := [spam_row] |}; random_calls := 8 |}.

(** Two warnings for one member in the night of 31 March 2024, written
    at 01:45:00 and at 02:15:00 UTC. *)
Definition quarter_to_two : Row :=
  {| row_id := "CCCCCCCC"; user_id := "u1"; guild_id := "g1"; moderator_id := "m1";
     row_type := WARN; row_reason := "spam"; created_at := 1711849500 |}.

Definition quarter_past_two : Row :=
  {| row_id := "DDDDDDDD"; user_id := "u1"; guild_id := "g1"; moderator_id := "m1";
     row_type := WARN; row_reason := "flood"; created_at := 1711851300 |}.

Definition spring_night : Database :=
  {| open := true; user_infractions := [quarter_to_two; quarter_past_two] |}.

End Examples.

Module Events.
Import Discord.

Definition no_handlers : Client :=
  {| commands := ∅; buttons := ∅; modals := ∅; selectMenus := ∅ |}.

(** [/unknown], a command nobody registered. *)
Definition unknown_command : Interaction :=
  {| kind := ChatInputCommand; commandName := "unknown"; customId := EmptyString;
     user_tag := "mod#0001"; replied := false; deferred := false;
     rest_failure := None |}.

(** The same invocation when the platform no longer accepts a reply. *)
Definition expired_command : Interaction :=
  {| kind := ChatInputCommand; commandName := "unknown"; customId := EmptyString;
     user_tag := "mod#0001"; replied := false; deferred := false;
     rest_failure := Some (JsError "Unknown interaction") |}.

(** A choice in a user select menu. *)
Definition member_menu : Interaction :=
  {| kind := OtherSelectMenu; commandName := EmptyString; customId := "pick_member";
     user_tag := "mod#0001"; replied := false; deferred := false;
     rest_failure := None |}.








(** [/ping], and a press on a button whose [customId] is "confirm". *)
Definition ping_command : Interaction :=
  {| kind := ChatInputCommand; commandName := "ping"; customId := EmptyString;
     user_tag := "mod#0001"; replied := false; deferred := false;
     rest_failure := None |}.

Definition confirm_press : Interaction :=
  {| kind := Button; commandName := EmptyString; customId := "confirm";
     user_tag := "mod#0001"; replied := false; deferred := false;
     rest_failure := None |}.

End Events.

Module Startup.
Import Discord Registry.

Definition file (n : string) : Dirent := {| dirent_name := n; isDirectory := false |}.
Definition folder (n : string) : Dirent := {| dirent_name := n; isDirectory := true |}.

Definition default_only (d : ExportObject) : ModuleNamespace :=
  {| default := Some d; event_name := None; event_once := false; event_execute := false |}.

Definition pong : Async unit := mret tt.

Definition ping : ExportObject :=
  {| data := Some {| name := "ping" |}; export_customId := None; execute := Some pong |}.

(** Two command files that both call themselves "warn". *)
Definition warn_v1 : ExportObject :=
  {| data := Some {| name := "warn" |}; export_customId := None;
     execute := Some (throw (JsString "old")) |}.
Definition warn_v2 : ExportObject :=
  {| data := Some {| name := "warn" |}; export_customId := None; execute := Some pong |}.

(** A command file and a button file that each forgot a property. *)
Definition command_without_execute : ExportObject :=
  {| data := Some {| name := "kick" |}; export_customId := None; execute := None |}.
Definition button_without_customId : ExportObject :=
  {| data := None; export_customId := None; execute := Some pong |}.
Definition confirm_button : ExportObject :=
  {| data := None; export_customId := Some "confirm"; execute := Some pong |}.

(** A file written with named exports only: it has no default export. *)
Definition named_exports_only : ModuleNamespace :=
  {| default := None; event_name := Some "legacy"; event_once := false;
     event_execute := true |}.

Definition lookup_path {A} (table : list (string * A)) (path : string) : option A :=
  snd <$> find (λ entry, String.eqb (fst entry) path) table.

Definition tree_of (dirs : list (string * list Dirent))
    (files : list (string * ModuleNamespace)) : FileSystem :=
  {| readdir := lookup_path dirs;
     import := λ path,
       match lookup_path files path with
       | Some m => inr m
       | None => inl (JsError ("Error: Cannot find module '" +:+ path +:+ "'"))
       end |}.

(** [commands/moderation] holds the two "warn" files. *)
Definition two_warns : FileSystem :=
  tree_of
    [("dist/commands", [folder "moderation"]);
     ("dist/commands/moderation", [file "warn.js"; file "warn2.js"])]
    [("dist/commands/moderation/warn.js", default_only warn_v1);
     ("dist/commands/moderation/warn2.js", default_only warn_v2)].

(** A command folder and a button folder, each with one malformed file
    in front of a good one. *)
Definition one_malformed_each : FileSystem :=
  tree_of
    [("dist/commands", [folder "util"]);
     ("dist/commands/util", [file "kick.js"; file "ping.js"]);
     ("dist/interactions/buttons", [file "broken.js"; file "confirm.js"])]
    [("dist/commands/util/kick.js", default_only command_without_execute);
     ("dist/commands/util/ping.js", default_only ping);
     ("dist/interactions/buttons/broken.js", default_only button_without_customId);
     ("dist/interactions/buttons/confirm.js", default_only confirm_button)].

(** A command folder whose first file has no default export. *)
Definition legacy_first : FileSystem :=
  tree_of
    [("dist/commands", [folder "util"]);
     ("dist/commands/util", [file "legacy.js"; file "ping.js"])]
    [("dist/commands/util/legacy.js", named_exports_only);
     ("dist/commands/util/ping.js", default_only ping)].

(** A guild, the member being warned and the moderator who warns. *)
Definition home : WarnCommand.Guild :=
  {| WarnCommand.guild_id := "g1"; WarnCommand.guild_name := "Home" |}.
Definition spammer : WarnCommand.User :=
  {| WarnCommand.id := "u1"; WarnCommand.tag := "spammer#0002" |}.
Definition moderator_user : WarnCommand.User :=
  {| WarnCommand.id := "m1"; WarnCommand.tag := "mod#0001" |}.

(** A command folder that holds documentation only. *)
Definition docs_only : FileSystem :=
  tree_of [("dist/commands/docs", [file "README.md"; file "notes.txt"])] [].

(** A bot unpacked without any of its directories. *)
Definition no_directories : FileSystem := tree_of [] [].

(** A client that knows [/ping], and one with a "confirm" button. *)
Definition client_with_ping : Client :=
  {| commands := {[ "ping" := ping ]}; buttons := ∅; modals := ∅; selectMenus := ∅ |}.

Definition client_with_confirm : Client :=
  {| commands := ∅; buttons := {[ "confirm" := confirm_button ]}; modals := ∅;
     selectMenus := ∅ |}.

(** Two event files that both listen to "guildMemberAdd". *)
Definition on_join : ModuleNamespace :=
  {| default := None; event_name := Some "guildMemberAdd"; event_once := false;
     event_execute := true |}.

Definition two_greeters : FileSystem :=
  tree_of
    [("dist/events", [file "welcome.js"; file "autorole.js"])]
    [("dist/events/welcome.js", on_join);
     ("dist/events/autorole.js", on_join)].

(** The process once [welcome.js] has been loaded. *)
Definition after_welcome : Process :=
  {| client := {| commands := ∅; buttons := ∅; modals := ∅; selectMenus := ∅ |};
     listeners := [{| event := "guildMemberAdd"; once := false;
                      source := "dist/events/welcome.js" |}];
     stdout := [Console Log "Loaded Event: guildMemberAdd (on)" None] |}.

(** A command file whose evaluation throws a symbol. *)
Definition throws_a_symbol : FileSystem :=
  {| readdir := lookup_path
       [("dist/commands", [folder "util"]);
        ("dist/commands/util", [file "ping.js"])];
     import := λ _, inl (JsSymbol "boom") |}.

(** The process once [warn.js] has been loaded. *)
Definition after_first_warn : Process :=
  {| client := {| commands := {[ "warn" := warn_v1 ]}; buttons := ∅; modals := ∅;
                  selectMenus := ∅ |};
     listeners := [];
     stdout := [Console Log "Loaded command: warn from dist/commands/moderation/warn.js"
                  None] |}.

End Startup.

Module LegacyExamples.
Import LegacyStore.

(** The tables right after [initializeTables]. *)
Definition fresh : Database :=
  {| open := true; guild_settings := ∅; user_warnings := []; sqlite_sequence := 0;
     user_nicknames := ∅ |}.

(** A guild that chose "?" as its prefix and switched auto-moderation on,
    and a member with a nickname. *)
Definition configured : Database :=
  {| open := true;
     guild_settings :=
       {[ "g1" := {| col_prefix := Some "?"; mod_log_channel := None; mute_role := None;
                     auto_mod_enabled := 1; created_at := 1600000000;
                     updated_at := 1600000000 |} ]};
     user_warnings :=
       [{| warning_id := 7; user_id := "u1"; guild_id := "g1"; moderator_id := "m1";
           reason := "spam"; warned_at := 1600000500 |}];
     sqlite_sequence := 9;
     user_nicknames :=
       {[ ("u1", "g1") := {| col_nickname := "Sam"; set_by := "m1"; set_at := 1600000900 |} ]} |}.

Definition only_mute_role : PartialSettings :=
  {| given_prefix := Some EmptyString; given_modLogChannel := None;
     given_muteRole := Some "muted"; given_autoModEnabled := None |}.

End LegacyExamples.

(** * Proofs *)

(** Membership in a list written out in full. *)
Ltac in_literal :=
  vm_compute; repeat first [apply list_elem_of_here | apply list_elem_of_further].

(** ** Lists *)

Lemma filter_none {A} (P : A → Prop) `{∀ x, Decision (P x)} (l : list A) :
  (∀ x, x ∈ l → ¬ P x) → filter P l = [].
Proof.
  induction l as [|x l IH]; intros Hnot; [done|].
  rewrite filter_cons, decide_False by (apply Hnot, list_elem_of_here).
  apply IH. intros y Hy. by apply Hnot, list_elem_of_further.
Qed.

(** ** Strings *)

Lemma letters_app (a b : string) :
  Contract.letters (a +:+ b) = Contract.letters a ++ Contract.letters b.
Proof.
  induction a as [|c a IH]; [done|].
  change (String c a +:+ b) with (String c (a +:+ b)).
  unfold Contract.letters in *. simpl. by rewrite IH.
Qed.

Lemma string_length_app (a b : string) :
  String.length (a +:+ b) = (String.length a + String.length b)%nat.
Proof.
  induction a as [|c a IH]; [done|].
  change (String c a +:+ b) with (String c (a +:+ b)). simpl. by rewrite IH.
Qed.

Lemma string_app_assoc (a b c : string) : (a +:+ b) +:+ c = a +:+ (b +:+ c).
Proof.
  induction a as [|x a IH]; [done|].
  change (String x a +:+ b) with (String x (a +:+ b)).
  change (String x (a +:+ b) +:+ c) with (String x ((a +:+ b) +:+ c)).
  by rewrite IH.
Qed.

Lemma string_app_nil_r (a : string) : a +:+ EmptyString = a.
Proof.
  induction a as [|x a IH]; [done|].
  change (String x a +:+ EmptyString) with (String x (a +:+ EmptyString)). by rewrite IH.
Qed.

Lemma get_Some_letter (s : string) (k : nat) (c : Ascii.ascii) :
  String.get k s = Some c → c ∈ Contract.letters s.
Proof.
  revert k. induction s as [|x s IH]; intros k; [done|].
  destruct k as [|k]; simpl.
  - intros [= ->]. apply list_elem_of_here.
  - intros H. apply list_elem_of_further. by eapply IH.
Qed.

Lemma get_in_range (s : string) (k : nat) :
  (k < String.length s)%nat → is_Some (String.get k s).
Proof.
  revert k. induction s as [|x s IH]; intros k; simpl; [lia|].
  destruct k as [|k]; [eauto|]. intros ?. apply IH. lia.
Qed.

Lemma charAt_in_range (s : string) (k : nat) :
  (k < String.length s)%nat →
  ∃ c, charAt s k = String c EmptyString ∧ c ∈ Contract.letters s.
Proof.
  intros Hk. destruct (get_in_range s k Hk) as [c Hc].
  exists c. unfold charAt. rewrite Hc. split; [done|]. by eapply get_Some_letter.
Qed.

(** ** The id generator *)

Module GeneratorProofs.
Import InfractionStore Contract.

Section Generator.

Variable Math_random : nat → Z.

Lemma random_index_lt (n len : nat) :
  (0 < len)%nat → (random_index Math_random n len < len)%nat.
Proof.
  intros Hlen. unfold random_index.
  set (r := Math_random n `mod` 2 ^ 53).
  assert (0 ≤ r < 2 ^ 53) as Hr by (apply Z.mod_pos_bound; lia).
  assert (0 ≤ (r * Z.of_nat len) `div` 2 ^ 53 < Z.of_nat len) as Hq.
  { split.
    - apply Z.div_pos; nia.
    - apply Z.div_lt_upper_bound; nia. }
  lia.
Qed.

(** One round of the [for] loop appends one character of [chars]. *)
Lemma generate_loop_spec (todo : nat) (result : string) (calls : nat) :
  ∃ suffix,
    generate_loop Math_random todo result calls = (result +:+ suffix, (calls + todo)%nat) ∧
    String.length suffix = todo ∧
    Forall (λ c, c ∈ letters chars) (letters suffix).
Proof.
  revert result calls. induction todo as [|todo IH]; intros result calls.
  - exists EmptyString. simpl. rewrite string_app_nil_r, Nat.add_0_r. by repeat split.
  - destruct (charAt_in_range chars (random_index Math_random calls (String.length chars)))
      as (c & Hc & Hin).
    { apply random_index_lt. simpl. lia. }
    cbn [generate_loop]. rewrite Hc.
    destruct (IH (result +:+ String c EmptyString) (S calls)) as (suffix & Heq & Hlen & Hall).
    exists (String c suffix). rewrite Heq. repeat split.
    + f_equal; [|lia]. by rewrite string_app_assoc.
    + simpl. by rewrite Hlen.
    + unfold letters in *. simpl. by constructor.
Qed.

Lemma generateInfractionId_spec (calls : nat) :
  well_formed_id (generateInfractionId Math_random calls).1 ∧
  (generateInfractionId Math_random calls).2 = (calls + 8)%nat.
Proof.
  unfold generateInfractionId.
  destruct (generate_loop_spec 8 EmptyString calls) as (suffix & -> & Hlen & Hall).
  simpl. by repeat split.
Qed.

Lemma candidate_well_formed (calls k : nat) :
  well_formed_id (candidate Math_random calls k).
Proof. apply generateInfractionId_spec. Qed.

Lemma generateInfractionId_candidate (calls : nat) :
  generateInfractionId Math_random calls
  = (candidate Math_random calls 0, (calls + 8)%nat).
Proof.
  unfold candidate. rewrite Nat.mul_0_r, Nat.add_0_r.
  destruct (generateInfractionId_spec calls) as [_ H2].
  destruct (generateInfractionId Math_random calls) as [i n]. simpl in *. by subst.
Qed.

Lemma candidate_shift (calls k : nat) :
  candidate Math_random (calls + 8) k = candidate Math_random calls (S k).
Proof. unfold candidate. f_equal. f_equal. lia. Qed.

End Generator.

Lemma chars_upper_or_digit :
  Forall (λ c, upper_or_digit c = true ∧ lowercase c = false) (letters chars).
Proof. repeat constructor. Qed.

(** C10.  Whatever [Math.random()] returns and however many calls came
    before, the generated id is made of characters of [chars] only;
    [chars] has 36 characters, each an uppercase Latin letter or a digit
    and none a lowercase letter, so the same holds of every character of
    the id. *)
Theorem generateInfractionId_uppercase_alphanumeric
    (Math_random : nat → Z) (calls : nat) :
  String.length chars = 36%nat ∧
  Forall (λ c, c ∈ letters chars ∧ upper_or_digit c = true ∧ lowercase c = false)
    (letters (generateInfractionId Math_random calls).1).
Proof.
  split; [done|].
  destruct (generateInfractionId_spec Math_random calls) as [[_ Hall] _].
  eapply Forall_impl; [exact Hall|]. intros c Hc. split; [done|].
  pose proof chars_upper_or_digit as Hchars.
  rewrite Forall_forall in Hchars. by apply Hchars.
Qed.

End GeneratorProofs.

(** ** The id loop and [addInfraction] *)

Module AddProofs.
Import InfractionStore Contract GeneratorProofs.

Lemma where_id_true (i : string) (r : Row) : where_id i r = true ↔ row_id r = i.
Proof. unfold where_id. apply String.eqb_eq. Qed.

Lemma no_match_iff (i : string) (rows : list Row) :
  length (filter (λ r, where_id i r = true) rows) = 0%nat ↔ i ∉ row_id <$> rows.
Proof.
  induction rows as [|r rows IH]; simpl.
  - split; [intros _; apply not_elem_of_nil | done].
  - rewrite filter_cons. rewrite not_elem_of_cons.
    destruct (decide (where_id i r = true)) as [Hr|Hr]; simpl.
    + apply where_id_true in Hr. split; [lia|]. intros [Hne _]. by destruct Hne.
    + rewrite IH. split; [|tauto]. intros ?. split; [|done].
      intros ->. apply Hr. by apply where_id_true.
Qed.

Lemma isInfractionIdUnique_open (i : string) (d : Database) :
  open d = true →
  isInfractionIdUnique i d = Ok (bool_decide (i ∉ stored_ids d)).
Proof.
  intros Hopen. unfold isInfractionIdUnique, prepare. rewrite Hopen. simpl.
  f_equal. apply bool_decide_ext, no_match_iff.
Qed.

Lemma isInfractionIdUnique_closed (i : string) (d : Database) :
  open d = false → isInfractionIdUnique i d = Err ConnectionNotOpen.
Proof. intros Hopen. unfold isInfractionIdUnique, prepare. by rewrite Hopen. Qed.

Lemma existsb_where_id (i : string) (rows : list Row) :
  i ∉ row_id <$> rows → existsb (where_id i) rows = false.
Proof.
  induction rows as [|r rows IH]; simpl; [done|].
  rewrite not_elem_of_cons. intros [Hne Hnot]. rewrite (IH Hnot), orb_false_r.
  apply not_true_is_false. rewrite where_id_true. congruence.
Qed.

Lemma find_fresh_last (i : string) (rows : list Row) (row : Row) :
  i ∉ row_id <$> rows → row_id row = i →
  find (where_id i) (rows ++ [row]) = Some row.
Proof.
  intros Hnot Hrow. induction rows as [|r rows IH]; simpl.
  - assert (where_id i row = true) as -> by by apply where_id_true. done.
  - simpl in Hnot. rewrite not_elem_of_cons in Hnot. destruct Hnot as [Hne Hnot].
    assert (where_id i r = false) as ->.
    { apply not_true_is_false. rewrite where_id_true. congruence. }
    by apply IH.
Qed.

Section Loop.

Variable Math_random : nat → Z.

(** One round of the [do ... while] on an open store. *)
Lemma getUniqueInfractionId_round (fuel : nat) (w : World) :
  open (db w) = true →
  getUniqueInfractionId Math_random (S fuel) w =
    if bool_decide (candidate Math_random (random_calls w) 0 ∉ stored_ids (db w))
    then Some (Ok (candidate Math_random (random_calls w) 0), advance w 8)
    else getUniqueInfractionId Math_random fuel (advance w 8).
Proof.
  intros Hopen. cbn [getUniqueInfractionId].
  rewrite generateInfractionId_candidate, isInfractionIdUnique_open by done.
  by destruct (bool_decide _).
Qed.

Lemma first_unused_0 (w : World) :
  candidate Math_random (random_calls w) 0 ∉ stored_ids (db w) →
  first_unused Math_random w 0.
Proof. intros H. split; [done|]. intros j Hj. lia. Qed.

Lemma first_unused_S (w : World) (k : nat) :
  candidate Math_random (random_calls w) 0 ∈ stored_ids (db w) →
  first_unused Math_random (advance w 8) k ↔ first_unused Math_random w (S k).
Proof.
  intros H0. unfold first_unused. cbn [advance db random_calls].
  rewrite candidate_shift. split; intros [Hk Hlt]; (split; [done|]); intros j Hj.
  - destruct j as [|j]; [done|]. rewrite <-candidate_shift. apply Hlt. lia.
  - rewrite candidate_shift. apply Hlt. lia.
Qed.

Lemma advance_advance (w : World) (n m : nat) :
  advance (advance w n) m = advance w (n + m).
Proof. unfold advance. cbn [db random_calls]. f_equal. lia. Qed.

(** The loop stops in the first round whose candidate is unused. *)
Lemma loop_stops_at_first_unused (k fuel : nat) (w : World) :
  open (db w) = true → first_unused Math_random w k → (k < fuel)%nat →
  getUniqueInfractionId Math_random fuel w
  = Some (Ok (candidate Math_random (random_calls w) k), advance w (8 * S k)).
Proof.
  revert fuel w. induction k as [|k IH]; intros fuel w Hopen Hk Hfuel;
    (destruct fuel as [|fuel]; [lia|]); rewrite getUniqueInfractionId_round by done.
  - destruct Hk as [Hk _]. by rewrite bool_decide_true.
  - assert (candidate Math_random (random_calls w) 0 ∈ stored_ids (db w)) as H0.
    { destruct Hk as [_ Hlt]. apply Hlt. lia. }
    rewrite bool_decide_false by (intros Hn; by apply Hn).
    rewrite (IH fuel (advance w 8)); [| exact Hopen | exact (proj2 (first_unused_S w k H0) Hk) | lia].
    cbn [advance db random_calls]. rewrite candidate_shift, advance_advance. do 3 f_equal. lia.
Qed.

(** Whatever the loop returns came out of such a round. *)
Lemma loop_result (fuel : nat) (w : World) (r : result string) (w' : World) :
  open (db w) = true →
  getUniqueInfractionId Math_random fuel w = Some (r, w') →
  ∃ k, (k < fuel)%nat ∧ first_unused Math_random w k ∧
       r = Ok (candidate Math_random (random_calls w) k) ∧
       w' = advance w (8 * S k).
Proof.
  revert w. induction fuel as [|fuel IH]; intros w Hopen; [done|].
  rewrite getUniqueInfractionId_round by done. case_bool_decide as Hc.
  - intros [= <- <-]. exists 0%nat. split; [lia|]. split; [by apply first_unused_0|]. done.
  - intros Hrec.
    destruct (IH (advance w 8) Hopen Hrec) as (k & Hk & Hfirst & -> & ->).
    exists (S k). split; [lia|]. split; [exact (proj1 (first_unused_S w k Hc) Hfirst)|].
    cbn [advance db random_calls]. rewrite candidate_shift, advance_advance. split; [done|]. f_equal. lia.
Qed.

(** While every candidate is taken the loop goes on. *)
Lemma loop_runs_on (fuel : nat) (w : World) :
  open (db w) = true →
  (∀ k, candidate Math_random (random_calls w) k ∈ stored_ids (db w)) →
  getUniqueInfractionId Math_random fuel w = None.
Proof.
  revert w. induction fuel as [|fuel IH]; intros w Hopen Hall; [done|].
  rewrite getUniqueInfractionId_round by done.
  rewrite bool_decide_false by (intros Hn; apply Hn, Hall).
  apply IH; [done|]. intros k. cbn [advance db random_calls]. rewrite candidate_shift. apply Hall.
Qed.

(** On a closed handle the uniqueness check throws in the first round. *)
Lemma loop_closed (fuel : nat) (w : World) :
  open (db w) = false →
  getUniqueInfractionId Math_random (S fuel) w
  = Some (Err ConnectionNotOpen, advance w 8).
Proof.
  intros Hopen. cbn [getUniqueInfractionId].
  by rewrite generateInfractionId_candidate, isInfractionIdUnique_closed.
Qed.

Lemma loop_Ok_open (fuel : nat) (w : World) (i : string) (w' : World) :
  getUniqueInfractionId Math_random fuel w = Some (Ok i, w') → open (db w) = true.
Proof.
  destruct (open (db w)) eqn:Hopen; [done|].
  destruct fuel as [|fuel]; [done|]. by rewrite loop_closed.
Qed.

End Loop.

End AddProofs.

(** ** Adding an infraction *)

Module StoreProofs.
Import InfractionStore Contract GeneratorProofs AddProofs.

Lemma insert_fresh (row : Row) (d : Database) :
  open d = true → row_id row ∉ stored_ids d →
  insert row d = Ok {| open := true; user_infractions := user_infractions d ++ [row] |}.
Proof.
  intros Hopen Hnot. unfold insert, prepare. rewrite Hopen. simpl.
  by rewrite existsb_where_id.
Qed.

Lemma primary_key_ok_snoc (row : Row) (d : Database) :
  primary_key_ok d → row_id row ∉ stored_ids d →
  primary_key_ok {| open := true; user_infractions := user_infractions d ++ [row] |}.
Proof.
  unfold primary_key_ok, stored_ids. cbn [user_infractions]. intros Hnd Hnot.
  change (NoDup (row_id <$> (user_infractions d ++ [row]))).
  rewrite fmap_app. apply NoDup_app. split; [done|]. split.
  - intros x Hx. cbn. rewrite list_elem_of_singleton. intros ->. by apply Hnot.
  - cbn. apply NoDup_singleton.
Qed.

(** What a successful [addInfraction] did. *)
Lemma addInfraction_Ok (Math_random : nat → Z) (fuel : nat) (now : Z)
    (u g m : string) (t : InfractionType) (r : string) (w : World) (i : string) (w' : World) :
  addInfraction Math_random fuel now u g m t r w = Some (Ok i, w') →
  open (db w) = true ∧ (i ∉ stored_ids (db w)) ∧ well_formed_id i ∧
  db w' = {| open := true;
             user_infractions := user_infractions (db w) ++
               [{| row_id := i; user_id := u; guild_id := g; moderator_id := m;
                   row_type := t; row_reason := r; created_at := now |}] |}.
Proof.
  unfold addInfraction.
  destruct (getUniqueInfractionId Math_random fuel w) as [[[i0|e] w1]|] eqn:Hloop; [|done..].
  pose proof (loop_Ok_open _ _ _ _ _ Hloop) as Hopen.
  destruct (loop_result _ _ _ _ _ Hopen Hloop) as (k & Hk & [Hfresh _] & [= ->] & ->).
  cbn [advance db random_calls].
  rewrite insert_fresh by done.
  intros [= <- <-]. cbn [db]. repeat split; try done; apply candidate_well_formed.
Qed.

(** C1.  When [addInfraction] returns an id, that id was not in the store
    before the call, the PRIMARY KEY constraint still holds after it, and
    [getInfractionById] on the new store returns a row carrying that id
    and exactly the user, guild, moderator, type and reason passed in. *)
Theorem addInfraction_fresh_id_then_found {zone : TimeZone}
    (Math_random : nat → Z) (fuel : nat) (now : Z) (u g m : string) (t : InfractionType) (r : string) (w : World) (i : string) (w' : World) :
  addInfraction Math_random fuel now u g m t r w = Some (Ok i, w') →
  (i ∉ stored_ids (db w)) ∧
  (primary_key_ok (db w) → primary_key_ok (db w')) ∧
  ∃ inf, getInfractionById i (db w') = Ok (Some inf) ∧
         id inf = i ∧ userId inf = u ∧ guildId inf = g ∧ moderatorId inf = m ∧
         type inf = t ∧ reason inf = r.
Proof.
  intros Hadd. destruct (addInfraction_Ok _ _ _ _ _ _ _ _ _ _ _ Hadd) as (Hopen & Hfresh & _ & Hdb).
  split; [done|]. split.
  - intros Hpk. rewrite Hdb. by apply primary_key_ok_snoc.
  - eexists. rewrite Hdb. unfold getInfractionById, prepare. cbn [open user_infractions mbind result_bind].
    rewrite (find_fresh_last i) by done. by repeat split.
Qed.

Section InUTC.

#[local] Existing Instance Examples.UTC.

Lemma addInfraction_fresh_id_then_found_witness :
  ("AAAAAAAA" ∉ stored_ids (db Examples.empty_world)) ∧
  (primary_key_ok (db Examples.empty_world) → primary_key_ok (db Examples.spam_world)) ∧
  ∃ inf, getInfractionById "AAAAAAAA" (db Examples.spam_world) = Ok (Some inf) ∧
         id inf = "AAAAAAAA" ∧ userId inf = "u1" ∧ guildId inf = "g1" ∧
         moderatorId inf = "m1" ∧ type inf = WARN ∧ reason inf = "spam".
Proof.
  apply (addInfraction_fresh_id_then_found Examples.always_zero 1 1700000000
           "u1" "g1" "m1" WARN "spam" Examples.empty_world "AAAAAAAA" Examples.spam_world).
  vm_compute. reflexivity.
Defined.

End InUTC.

End StoreProofs.

(** ** Termination of the id loop *)

Module LoopProofs.
Import InfractionStore Contract GeneratorProofs AddProofs StoreProofs.

(** C2, as the code has it.  On an open store the id loop is rejection
    sampling: whatever it returns is an 8-character id over [chars] that
    is not in the store, never an error, and the store is not touched;
    it returns in the first round whose candidate is unused, so it comes
    to an end exactly when [Math.random()] eventually yields such a
    candidate; and [addInfraction] never reports an error to its caller,
    a collision least of all. *)
Theorem getUniqueInfractionId_rejection_sampling (Math_random : nat → Z) (w : World) :
  open (db w) = true →
  (∀ fuel r w', getUniqueInfractionId Math_random fuel w = Some (r, w') →
     ∃ i, r = Ok i ∧ well_formed_id i ∧ (i ∉ stored_ids (db w)) ∧ db w' = db w) ∧
  (∀ k fuel, first_unused Math_random w k → (k < fuel)%nat →
     getUniqueInfractionId Math_random fuel w
     = Some (Ok (candidate Math_random (random_calls w) k), advance w (8 * S k))) ∧
  (terminates Math_random w ↔ ∃ k, first_unused Math_random w k) ∧
  (∀ fuel now u g m t reason res w',
     addInfraction Math_random fuel now u g m t reason w = Some (res, w') →
     ∃ i, res = Ok i).
Proof.
  intros Hopen. split; [|split; [|split]].
  - intros fuel r w' Hloop.
    destruct (loop_result _ _ _ _ _ Hopen Hloop) as (k & _ & [Hfresh _] & -> & ->).
    eexists. split; [done|]. split; [apply candidate_well_formed|]. by split.
  - intros k fuel Hk Hfuel. by apply loop_stops_at_first_unused.
  - split.
    + intros (fuel & [r w'] & Hloop).
      destruct (loop_result _ _ _ _ _ Hopen Hloop) as (k & _ & Hk & _). by exists k.
    + intros [k Hk]. exists (S k). eexists.
      apply loop_stops_at_first_unused; [done..|lia].
  - intros fuel now u g m t reason res w'. unfold addInfraction.
    destruct (getUniqueInfractionId Math_random fuel w) as [[r0 w1]|] eqn:Hloop; [|done].
    destruct (loop_result _ _ _ _ _ Hopen Hloop) as (k & _ & [Hfresh _] & -> & ->).
    cbn [advance db random_calls]. rewrite insert_fresh by done.
    intros [= <- _]. by eexists.
Qed.

Lemma always_zero_candidate (calls k : nat) :
  candidate Examples.always_zero calls k = "AAAAAAAA".
Proof. vm_compute. reflexivity. Qed.

Lemma getUniqueInfractionId_rejection_sampling_witness :
  (∀ fuel r w', getUniqueInfractionId Examples.always_zero fuel Examples.empty_world
                = Some (r, w') →
     ∃ i, r = Ok i ∧ well_formed_id i ∧ (i ∉ stored_ids (db Examples.empty_world)) ∧
          db w' = db Examples.empty_world) ∧
  (∀ k fuel, first_unused Examples.always_zero Examples.empty_world k → (k < fuel)%nat →
     getUniqueInfractionId Examples.always_zero fuel Examples.empty_world
     = Some (Ok (candidate Examples.always_zero (random_calls Examples.empty_world) k),
             advance Examples.empty_world (8 * S k))) ∧
  (terminates Examples.always_zero Examples.empty_world
   ↔ ∃ k, first_unused Examples.always_zero Examples.empty_world k) ∧
  (∀ fuel now u g m t reason res w',
     addInfraction Examples.always_zero fuel now u g m t reason Examples.empty_world
     = Some (res, w') →
     ∃ i, res = Ok i).
Proof.
  apply (getUniqueInfractionId_rejection_sampling Examples.always_zero Examples.empty_world).
  reflexivity.
Defined.

(** C2, the last clause as the specification words it: an unused id
    exists, yet the loop never ends.  The store holds "AAAAAAAA", an id
    such as "BBBBBBBB" is free, and [Math.random()] keeps returning 0, so
    every round draws "AAAAAAAA" again. *)
Lemma unused_id_does_not_end_the_loop :
  ¬ (some_id_unused Examples.spam_world →
     terminates Examples.always_zero Examples.spam_world).
Proof.
  intros Hclaim.
  destruct Hclaim as (fuel & r & Hloop).
  - exists "BBBBBBBB". split.
    + split; [done|]. repeat constructor; in_literal.
    + apply not_elem_of_cons. split; [done|]. apply not_elem_of_nil.
  - rewrite loop_runs_on in Hloop; [done|done|].
    intros k. rewrite always_zero_candidate. in_literal.
Qed.

End LoopProofs.

(** ** Scoped queries *)

Module QueryProofs.
Import InfractionStore Contract.

Lemma sorter_insert_perm (r : Row) (l : list Row) : sorter_insert r l ≡ₚ r :: l.
Proof.
  induction l as [|x l IH]; simpl; [done|].
  destruct (created_at x <=? created_at r); [done|].
  rewrite IH. apply Permutation_swap.
Qed.

Lemma order_by_perm (l : list Row) : order_by_created_at_desc l ≡ₚ l.
Proof.
  induction l as [|r l IH]; simpl; [done|].
  by rewrite sorter_insert_perm, IH.
Qed.

Lemma sorter_insert_sorted (r : Row) (l : list Row) :
  StronglySorted rows_newest_first l → StronglySorted rows_newest_first (sorter_insert r l).
Proof.
  induction 1 as [|x l Hsorted IH Hall]; simpl.
  - repeat constructor.
  - destruct (Z.leb_spec (created_at x) (created_at r)) as [Hle|Hlt].
    + constructor; [by constructor|]. constructor; [done|].
      eapply Forall_impl; [exact Hall|]. intros y Hy. unfold rows_newest_first in *. lia.
    + constructor; [done|]. rewrite sorter_insert_perm. constructor; [|done].
      unfold rows_newest_first. lia.
Qed.

Lemma order_by_sorted (l : list Row) :
  StronglySorted rows_newest_first (order_by_created_at_desc l).
Proof.
  induction l as [|r l IH]; simpl; [constructor|]. by apply sorter_insert_sorted.
Qed.

(** The sorter is stable: a new row goes in front of the rows of its own
    timestamp that are already there. *)
Lemma sorter_insert_stable (ts : Z) (r : Row) (l : list Row) :
  filter (λ x, created_at x = ts) (sorter_insert r l)
  = filter (λ x, created_at x = ts) (r :: l).
Proof.
  induction l as [|x l IH]; simpl; [done|].
  destruct (Z.leb_spec (created_at x) (created_at r)) as [Hle|Hlt]; [done|].
  rewrite (filter_cons _ x), IH, !(filter_cons _ r), (filter_cons _ x).
  destruct (decide (created_at x = ts)) as [Hx|Hx]; [|done].
  destruct (decide (created_at r = ts)) as [Hr|Hr]; [lia|done].
Qed.

Lemma order_by_stable (ts : Z) (l : list Row) :
  filter (λ x, created_at x = ts) (order_by_created_at_desc l)
  = filter (λ x, created_at x = ts) l.
Proof.
  induction l as [|r l IH]; simpl; [done|].
  by rewrite sorter_insert_stable, !filter_cons, IH.
Qed.

Lemma filter_createdAt_fmap {zone : TimeZone} (ts : Date) (l : list Row) :
  filter (λ i, createdAt i = ts) (row_to_infraction <$> l)
  = row_to_infraction <$> filter (λ r, new_Date (created_at r) = ts) l.
Proof.
  induction l as [|r l IH]; [done|].
  rewrite fmap_cons, !filter_cons, IH.
  change (createdAt (row_to_infraction r)) with (new_Date (created_at r)).
  repeat case_decide; first [reflexivity | contradiction].
Qed.

(** Two filters that agree on the members of a list select the same. *)
Lemma filter_agree {A} (P Q : A → Prop) `{∀ x, Decision (P x)} `{∀ x, Decision (Q x)}
    (l : list A) :
  (∀ x, x ∈ l → (P x ↔ Q x)) → filter P l = filter Q l.
Proof.
  induction l as [|x l IH]; intros Hagree; [done|].
  rewrite !filter_cons, IH by (intros y Hy; by apply Hagree, list_elem_of_further).
  pose proof (Hagree x (list_elem_of_here _ _)).
  repeat case_decide; first [reflexivity | tauto].
Qed.

(** Where the host reads the timestamps in their order, rows of one
    instant are rows of one text. *)
Lemma read_in_order_injective {zone : TimeZone} (rows : list Row) (a b : Row) :
  read_in_order rows → a ∈ rows → b ∈ rows →
  new_Date (created_at a) = new_Date (created_at b) → created_at a = created_at b.
Proof.
  intros Hzone Ha Hb Hsame.
  destruct (Z.lt_trichotomy (created_at a) (created_at b)) as [Hlt|[Heq|Hgt]]; [|done|].
  - pose proof (Hzone a b Ha Hb Hlt). lia.
  - pose proof (Hzone b a Hb Ha). lia.
Qed.

Lemma read_in_order_ties {zone : TimeZone} (rows sorted : list Row) (ts : Date) :
  read_in_order rows → sorted ≡ₚ rows → same_second_as_inserted rows sorted →
  filter (λ r, new_Date (created_at r) = ts) sorted
  = filter (λ r, new_Date (created_at r) = ts) rows.
Proof.
  intros Hzone Hperm Hstable.
  destruct (decide (Exists (λ r, new_Date (created_at r) = ts) rows)) as [Hsome|Hnone].
  - apply Exists_exists in Hsome as (r0 & Hr0 & Hts).
    rewrite (filter_agree _ (λ r, created_at r = created_at r0) sorted).
    + rewrite (filter_agree _ (λ r, created_at r = created_at r0) rows); [apply Hstable|].
      intros x Hx. split.
      * intros Hx'. apply (read_in_order_injective rows); [done..|congruence].
      * intros Hx'. by rewrite Hx'.
    + intros x Hx. rewrite Hperm in Hx. split.
      * intros Hx'. apply (read_in_order_injective rows); [done..|congruence].
      * intros Hx'. by rewrite Hx'.
  - rewrite <-Forall_Exists_neg, Forall_forall in Hnone.
    rewrite !filter_none; [done|exact Hnone|].
    intros x Hx. apply Hnone. by rewrite <-Hperm.
Qed.

Lemma sorted_by_instant {zone : TimeZone} (rows : list Row) :
  read_in_order rows → StronglySorted rows_newest_first rows →
  StronglySorted newest_first (row_to_infraction <$> rows).
Proof.
  intros Hzone Hsorted.
  induction Hsorted as [|x l Hsorted IH Hall]; [constructor|].
  rewrite fmap_cons. constructor.
  - apply IH. intros a b Ha Hb. apply Hzone; by apply list_elem_of_further.
  - apply Forall_fmap, Forall_forall. intros y Hy.
    rewrite Forall_forall in Hall. specialize (Hall y Hy).
    unfold newest_first, rows_newest_first, compose in *.
    change (new_Date (created_at y) ≤ new_Date (created_at x)).
    destruct (decide (created_at y = created_at x)) as [->|Hne]; [done|].
    assert (created_at y < created_at x) as Hlt by lia.
    pose proof (Hzone y x (list_elem_of_further _ _ _ Hy) (list_elem_of_here _ _) Hlt). lia.
Qed.

Lemma where_scope_true (u g : string) (t : option InfractionType) (r : Row) :
  where_scope u g t r = true ↔
  user_id r = u ∧ guild_id r = g ∧ ∀ ty, t = Some ty → row_type r = ty.
Proof.
  unfold where_scope. rewrite !andb_true_iff, !String.eqb_eq.
  destruct t as [ty|].
  - rewrite bool_decide_eq_true. split.
    + intros [[-> ->] Hty]. repeat split. by intros ? [= <-].
    + intros (-> & -> & Hty). repeat split. by apply Hty.
  - split.
    + intros [[-> ->] _]. by repeat split.
    + intros (-> & -> & _). by repeat split.
Qed.

Lemma getUserInfractions_open {zone : TimeZone} (u g : string)
    (t : option InfractionType) (d : Database) :
  open d = true →
  getUserInfractions u g t d
  = Ok (row_to_infraction <$> order_by_created_at_desc (selected u g t d)).
Proof. intros Hopen. unfold getUserInfractions, prepare. by rewrite Hopen. Qed.

(** C3, as the code has it.  On an open store the list returned by
    [getUserInfractions] holds exactly the stored rows of that user and
    guild (and of that type when the filter is given), each once, in
    descending order of the stored [created_at]; rows written in one and
    the same second come in the order they were inserted, the oldest of
    them first.  [createdAt] is [new Date(created_at)], the stored UTC
    text read as a local time: where the host reads the stored
    timestamps in their order, the list is also sorted by [createdAt]
    descending, with infractions of one [createdAt] in insertion
    order. *)
Theorem getUserInfractions_newest_first_stable {zone : TimeZone}
    (u g : string) (t : option InfractionType) (d : Database) :
  open d = true →
  (∀ r, r ∈ selected u g t d ↔
        r ∈ user_infractions d ∧ user_id r = u ∧ guild_id r = g ∧
        ∀ ty, t = Some ty → row_type r = ty) ∧
  ∃ sorted,
    getUserInfractions u g t d = Ok (row_to_infraction <$> sorted) ∧
    sorted ≡ₚ selected u g t d ∧
    StronglySorted rows_newest_first sorted ∧
    same_second_as_inserted (selected u g t d) sorted ∧
    (read_in_order (selected u g t d) →
       StronglySorted newest_first (row_to_infraction <$> sorted) ∧
       ties_in_insertion_order (selected u g t d) (row_to_infraction <$> sorted)).
Proof.
  intros Hopen. split.
  - intros r. unfold selected. rewrite list_elem_of_filter, where_scope_true. tauto.
  - exists (order_by_created_at_desc (selected u g t d)).
    split; [by apply getUserInfractions_open|].
    split; [apply order_by_perm|]. split; [apply order_by_sorted|].
    split; [intros text; apply order_by_stable|].
    intros Hzone. split.
    + apply sorted_by_instant; [|apply order_by_sorted].
      intros a b Ha Hb. rewrite order_by_perm in Ha, Hb. by apply Hzone.
    + intros ts. rewrite filter_createdAt_fmap. f_equal.
      apply read_in_order_ties; [done|apply order_by_perm|].
      intros text. apply order_by_stable.
Qed.

(** In UTC the host reads every list of rows in order. *)
Lemma UTC_reads_in_order (rows : list Row) : read_in_order (zone := Examples.UTC) rows.
Proof. intros a b _ _ Hlt. exact Hlt. Qed.

Section InUTC.

#[local] Existing Instance Examples.UTC.

Lemma getUserInfractions_newest_first_stable_witness :
  (∀ r, r ∈ selected "u1" "g1" None Examples.same_second ↔
        r ∈ user_infractions Examples.same_second ∧ user_id r = "u1" ∧ guild_id r = "g1" ∧
        ∀ ty, None = Some ty → row_type r = ty) ∧
  ∃ sorted,
    getUserInfractions "u1" "g1" None Examples.same_second
    = Ok (row_to_infraction <$> sorted) ∧
    sorted ≡ₚ selected "u1" "g1" None Examples.same_second ∧
    StronglySorted rows_newest_first sorted ∧
    same_second_as_inserted (selected "u1" "g1" None Examples.same_second) sorted ∧
    StronglySorted newest_first (row_to_infraction <$> sorted) ∧
    ties_in_insertion_order (selected "u1" "g1" None Examples.same_second)
      (row_to_infraction <$> sorted).
Proof.
  destruct (getUserInfractions_newest_first_stable "u1" "g1" None Examples.same_second
              eq_refl) as [Hselected (sorted & Hreturned & Hperm & Hsorted & Hstable & Hzone)].
  split; [exact Hselected|]. exists sorted.
  split; [exact Hreturned|]. split; [exact Hperm|]. split; [exact Hsorted|].
  split; [exact Hstable|]. apply Hzone, UTC_reads_in_order.
Defined.

(** C3, the tie rule as the specification words it, fails: two warnings
    of one member entered in the same second come back oldest first. *)
Lemma ties_are_not_most_recent_first :
  ¬ spec_getUserInfractions "u1" "g1" None Examples.same_second.
Proof.
  intros (l & Hl & _ & _ & Hties).
  vm_compute in Hl. injection Hl as <-.
  specialize (Hties 1700000000). vm_compute in Hties. discriminate Hties.
Qed.

End InUTC.

(** The condition on the host is needed.  In London, of two warnings
    written at 01:45 and 02:15 UTC in the night the clocks went forward,
    the later one is returned first, as it should be, but carries the
    earlier [createdAt]: [new Date] reads its text as 02:15 summer time,
    which is 01:15 UTC. *)
Lemma clock_change_breaks_the_order :
  getUserInfractions (zone := Examples.London) "u1" "g1" None Examples.spring_night
  = Ok [row_to_infraction (zone := Examples.London) Examples.quarter_past_two;
        row_to_infraction (zone := Examples.London) Examples.quarter_to_two] ∧
  createdAt (row_to_infraction (zone := Examples.London) Examples.quarter_past_two)
  < createdAt (row_to_infraction (zone := Examples.London) Examples.quarter_to_two).
Proof. split; [vm_compute; reflexivity|vm_compute; reflexivity]. Qed.

(** C4.  With or without the type filter, [getInfractionCount] is the
    length of what [getUserInfractions] returns on the same store; on a
    closed handle both throw the same error. *)
Theorem getInfractionCount_is_length {zone : TimeZone}
    (u g : string) (t : option InfractionType) (d : Database) :
  getInfractionCount u g t d = length <$> getUserInfractions u g t d.
Proof.
  unfold getInfractionCount, getUserInfractions, prepare.
  destruct (open d); [|done]. cbn [mbind result_bind fmap result_fmap].
  f_equal. by rewrite length_fmap, order_by_perm.
Qed.

End QueryProofs.

(** ** The store is append-only *)

Module LedgerProofs.
Import InfractionStore Contract AddProofs StoreProofs QueryProofs.

Lemma find_by_primary_key (row : Row) (l : list Row) :
  NoDup (row_id <$> l) → row ∈ l → find (where_id (row_id row)) l = Some row.
Proof.
  induction l as [|x l IH]; intros Hnd Hin; [by apply elem_of_nil in Hin|].
  rewrite fmap_cons in Hnd. apply NoDup_cons in Hnd as [Hx Hnd].
  simpl. destruct (where_id (row_id row) x) eqn:Hw.
  - apply where_id_true in Hw. apply elem_of_cons in Hin as [->|Hin]; [done|].
    destruct Hx. rewrite Hw. by apply list_elem_of_fmap_2.
  - apply elem_of_cons in Hin as [->|Hin]; [|by apply IH].
    assert (where_id (row_id x) x = true) by by apply where_id_true. congruence.
Qed.

Lemma still_returned_extended {zone : TimeZone} (row : Row) (d : Database) :
  open d = true → primary_key_ok d → row ∈ user_infractions d → still_returned row d.
Proof.
  intros Hopen Hpk Hin. split.
  - unfold getInfractionById, prepare. rewrite Hopen. cbn [mbind result_bind].
    by rewrite find_by_primary_key.
  - intros t Ht. eexists. split; [by apply getUserInfractions_open|].
    rewrite order_by_perm. apply list_elem_of_fmap_2.
    unfold selected. apply list_elem_of_filter. split; [|done].
    by apply where_scope_true.
Qed.

Lemma closed_queries_throw {zone : TimeZone} (d : Database) :
  open d = false →
  ∀ i u g t, getInfractionById i d = Err ConnectionNotOpen ∧
             getUserInfractions u g t d = Err ConnectionNotOpen.
Proof.
  intros Hopen i u g t. unfold getInfractionById, getUserInfractions, prepare.
  by rewrite Hopen.
Qed.

Section Calls.

Variable Math_random : nat → Z.
Context {zone : TimeZone}.

(** The id loop does not touch the store. *)
Lemma loop_keeps_db (fuel : nat) (w : World) (r : result string) (w' : World) :
  getUniqueInfractionId Math_random fuel w = Some (r, w') → db w' = db w.
Proof.
  revert w. induction fuel as [|fuel IH]; intros w; [done|].
  cbn [getUniqueInfractionId].
  destruct (generateInfractionId Math_random (random_calls w)) as [i calls].
  destruct (isInfractionIdUnique i (db w)) as [[|]|e].
  - by intros [= <- <-].
  - intros H. by rewrite (IH _ H).
  - by intros [= <- <-].
Qed.

(** A call of [addInfraction] appends one row with a fresh id, or
    leaves the store as it was. *)
Lemma addInfraction_appends (fuel : nat) (now : Z) (u g m : string)
    (t : InfractionType) (r : string) (w : World) (res : result string) (w' : World) :
  addInfraction Math_random fuel now u g m t r w = Some (res, w') →
  db w' = db w ∨
  ∃ row, open (db w) = true ∧ (row_id row ∉ stored_ids (db w)) ∧
         db w' = {| open := true; user_infractions := user_infractions (db w) ++ [row] |}.
Proof.
  destruct res as [i|e].
  - intros H. destruct (addInfraction_Ok _ _ _ _ _ _ _ _ _ _ _ H) as (Hopen & Hfresh & _ & Hdb).
    right. eexists. split; [done|]. split; [|exact Hdb]. done.
  - unfold addInfraction.
    destruct (getUniqueInfractionId Math_random fuel w) as [[[i|e0] w1]|] eqn:Hloop; [| |done].
    + destruct (insert _ (db w1)); [done|]. intros [= _ <-]. left.
      by eapply loop_keeps_db.
    + intros [= _ <-]. left. by eapply loop_keeps_db.
Qed.

Lemma appended_nothing (c : Call) (d : Database) :
  primary_key_ok d → c ≠ call_close → appended c d d.
Proof.
  intros Hpk Hc. split; [exists []; by rewrite app_nil_r|]. split; [done|]. tauto.
Qed.

Lemma appended_add (c : Call) (fuel : nat) (now : Z) (u g m : string)
    (t : InfractionType) (r : string) (w : World) (res : result string) (w' : World) :
  primary_key_ok (db w) → c ≠ call_close →
  addInfraction Math_random fuel now u g m t r w = Some (res, w') →
  appended c (db w) (db w').
Proof.
  intros Hpk Hc Ha.
  destruct (addInfraction_appends _ _ _ _ _ _ _ _ _ _ Ha)
    as [Hdb|(row & Hopen & Hfresh & Hdb)]; rewrite Hdb.
  - by apply appended_nothing.
  - split; [by eexists|]. split; [by apply primary_key_ok_snoc|]. cbn [open]. tauto.
Qed.

(** One call: rows are only ever added at the end, the PRIMARY KEY
    constraint is kept, and only [close] changes the connection. *)
Lemma perform_appends (fuel : nat) (c : Call) (w : World) (r : Response) (w' : World) :
  primary_key_ok (db w) →
  perform Math_random fuel c w = Some (r, w') →
  appended c (db w) (db w').
Proof.
  intros Hpk.
  destruct c; cbn [perform addWarning adding];
    try (intros [= _ <-]; by apply appended_nothing).
  - destruct (addInfraction _ _ _ _ _ _ _ _ _) as [[res w1]|] eqn:Ha; [|done].
    intros [= <- <-]. by eapply appended_add.
  - unfold addWarning.
    destruct (addInfraction _ _ _ _ _ _ _ _ _) as [[res w1]|] eqn:Ha; [|done].
    intros [= <- <-]. by eapply appended_add.
  - cbn [close]. intros [= _ <-]. cbn [db].
    split; [exists []; by rewrite app_nil_r|]. split; [done|]. cbn [open].
    split; [done|]. by intros [_ ?].
Qed.

Lemma perform_all_appends (fuel : nat) (cs : list Call) (w : World)
    (rs : list Response) (w' : World) :
  primary_key_ok (db w) →
  perform_all Math_random fuel cs w = Some (rs, w') →
  (∃ added, user_infractions (db w') = user_infractions (db w) ++ added) ∧
  primary_key_ok (db w') ∧
  (open (db w') = true ↔ open (db w) = true ∧ call_close ∉ cs).
Proof.
  revert w rs. induction cs as [|c cs IH]; intros w rs Hpk; cbn [perform_all].
  - intros [= <- <-]. split; [exists []; by rewrite app_nil_r|]. split; [done|].
    split; [|tauto]. intros ?. split; [done|]. apply not_elem_of_nil.
  - destruct (perform Math_random fuel c w) as [[r w1]|] eqn:Hc; [|done].
    destruct (perform_all Math_random fuel cs w1) as [[rs' w2]|] eqn:Hcs; [|done].
    intros [= <- <-].
    destruct (perform_appends _ _ _ _ _ Hpk Hc) as ([a1 Ha1] & Hpk1 & Hopen1).
    destruct (IH _ _ Hpk1 Hcs) as ([a2 Ha2] & Hpk2 & Hopen2).
    split; [exists (a1 ++ a2); by rewrite Ha2, Ha1, app_assoc|]. split; [done|].
    rewrite Hopen2, Hopen1, not_elem_of_cons. intuition congruence.
Qed.

End Calls.

End LedgerProofs.

Module AppendOnly.
Import InfractionStore Contract LedgerProofs.

(** C8, as the code has it.  No sequence of public calls updates or
    deletes a row: the table after the calls is the table before them
    with rows added at the end, and the PRIMARY KEY constraint holds.
    The handle is open afterwards exactly when it was open before and
    [close] was not among the calls; while it is open every row stored
    before is still returned unmodified by [getInfractionById] and by
    every [getUserInfractions] query that matches it; once it is closed
    both queries throw. *)
Theorem store_is_append_only {zone : TimeZone} (Math_random : nat → Z) (fuel : nat)
    (cs : list Call) (w : World) (rs : list Response) (w' : World) :
  primary_key_ok (db w) →
  perform_all Math_random fuel cs w = Some (rs, w') →
  (∃ added, user_infractions (db w') = user_infractions (db w) ++ added) ∧
  primary_key_ok (db w') ∧
  (open (db w') = true ↔ open (db w) = true ∧ call_close ∉ cs) ∧
  (open (db w') = true →
     ∀ row, row ∈ user_infractions (db w) → still_returned row (db w')) ∧
  (open (db w') = false →
     ∀ i u g t, getInfractionById i (db w') = Err ConnectionNotOpen ∧
                getUserInfractions u g t (db w') = Err ConnectionNotOpen).
Proof.
  intros Hpk Hrun.
  destruct (perform_all_appends _ _ _ _ _ _ Hpk Hrun) as ([added Hadded] & Hpk' & Hopen).
  split; [by exists added|]. split; [done|]. split; [done|]. split.
  - intros Hopen' row Hrow. apply still_returned_extended; [done..|].
    rewrite Hadded. apply elem_of_app. by left.
  - apply closed_queries_throw.
Qed.

Section InUTC.

#[local] Existing Instance Examples.UTC.

Lemma store_is_append_only_witness :
  (∃ added, user_infractions (db Examples.after_two_calls)
            = user_infractions (db Examples.spam_world) ++ added) ∧
  primary_key_ok (db Examples.after_two_calls) ∧
  (open (db Examples.after_two_calls) = true ↔
     open (db Examples.spam_world) = true ∧ call_close ∉ Examples.two_calls) ∧
  (open (db Examples.after_two_calls) = true →
     ∀ row, row ∈ user_infractions (db Examples.spam_world) →
            still_returned row (db Examples.after_two_calls)) ∧
  (open (db Examples.after_two_calls) = false →
     ∀ i u g t, getInfractionById i (db Examples.after_two_calls) = Err ConnectionNotOpen ∧
                getUserInfractions u g t (db Examples.after_two_calls) = Err ConnectionNotOpen).
Proof.
  apply (store_is_append_only Examples.counting 1 Examples.two_calls Examples.spam_world
           Examples.two_responses Examples.after_two_calls).
  - unfold primary_key_ok. cbn. apply NoDup_singleton.
  - vm_compute. reflexivity.
Defined.

(** C8 as the specification words it fails once [close] is among the
    calls: the row is still in the table, but the lookup by id on the
    closed handle throws instead of returning it. *)
Lemma closed_store_returns_nothing :
  primary_key_ok (db Examples.spam_world) ∧
  ¬ spec_append_only Examples.always_zero 0 [call_close] Examples.spam_world.
Proof.
  split.
  - unfold primary_key_ok. cbn. apply NoDup_singleton.
  - intros Hclaim.
    destruct (Hclaim _ _ eq_refl Examples.spam_row) as [Hby_id _].
    + apply list_elem_of_here.
    + vm_compute in Hby_id. discriminate Hby_id.
Qed.

End InUTC.

End AppendOnly.

(** ** The dispatcher *)

Module DispatchProofs.
Import Discord Dispatcher DispatchContract.

(** A [try] whose handler only writes to the console never throws. *)
Lemma try_catch_console (body : Async unit) (message : string) (rt : Runtime) :
  (try_catch body (λ e, console Error message (Some e)) rt).1 = inr tt.
Proof.
  unfold try_catch. destruct (body rt) as [[e|[]] rt']; reflexivity.
Qed.

Lemma execute_never_throws (client : Client) (rt : Runtime) :
  (execute client rt).1 = inr tt.
Proof. unfold execute. apply try_catch_console. Qed.

(** [sendErrorResponse] on a runtime whose interaction is [i]. *)
Lemma sendErrorResponse_notice (content : string) (err : string + JsValue)
    (errorType : string) (rt : Runtime) :
  (sendErrorResponse content err errorType rt).1 = inr tt ∧
  effects (sendErrorResponse content err errorType rt).2
  = effects rt ++ notice (interaction rt) content.
Proof.
  unfold sendErrorResponse, try_catch, notice, the_interaction,
    interaction_followUp, interaction_reply, delivered, throw, console.
  unfold mbind, M_bind.
  destruct (replied (interaction rt) || deferred (interaction rt)) eqn:Hanswered;
    rewrite ?Hanswered; destruct (rest_failure (interaction rt)); done.
Qed.

Lemma bind_run {A B} (m : Async A) (k : A → Async B) (rt : Runtime) :
  (m ≫= k) rt = match m rt with
                | (inr a, rt') => k a rt'
                | (inl e, rt') => (inl e, rt')
                end.
Proof. reflexivity. Qed.

Lemma handleChatInputCommand_miss (client : Client) (i : Interaction) (now : Z) :
  commands client !! commandName i = None →
  (handleChatInputCommand client (inbound i now)).1 = inr tt ∧
  effects (handleChatInputCommand client (inbound i now)).2
  = Console Warn ("Unknown command: " +:+ commandName i) None
    :: notice i ("Command `" +:+ commandName i +:+ "` not found.").
Proof.
  intros Hmiss. unfold handleChatInputCommand.
  rewrite bind_run. cbn [the_interaction inbound interaction]. rewrite Hmiss.
  rewrite bind_run. cbn [console].
  match goal with
  | |- context [sendErrorResponse ?c ?e ?t ?rt] =>
      destruct (sendErrorResponse_notice c e t rt) as [Hok Heff]
  end.
  split; [exact Hok|]. rewrite Heff. reflexivity.
Qed.

Lemma dispatch_miss_effects (client : Client) (i : Interaction) (now : Z) :
  unrouted client i →
  effects (execute client (inbound i now)).2 = miss_effects i.
Proof.
  intros Hmiss.
  unfold execute, try_catch. rewrite bind_run.
  cbn [the_interaction inbound interaction].
  unfold isChatInputCommand, isButton, isStringSelectMenu, isModalSubmit,
    miss_effects, unrouted in *.
  destruct (kind i) eqn:Hkind; repeat case_bool_decide; try congruence;
    try reflexivity.
  - destruct (handleChatInputCommand_miss client i now Hmiss) as [Hok Heff].
    destruct (handleChatInputCommand client (inbound i now)) as [[e|[]] rt']; [done|].
    exact Heff.
  - unfold handleButtonInteraction, inbound.
    cbv [mbind M_bind the_interaction console try_catch mret M_ret].
    cbn [interaction effects].
    destruct (String.eqb (customId i) "ping_refresh"); reflexivity.
Qed.

(** C5, as the code has it.  Dispatching an interaction whose key has no
    registered handler never throws.  For a chat-input command a warning
    is logged and the ephemeral "not found" reply is attempted: it
    reaches the user unless the platform refuses it, in which case the
    refusal is logged and nothing is sent.  For a button, a string
    select menu or a modal only console lines are written.  For any
    other kind of interaction nothing at all happens, not even a log
    line. *)
Theorem dispatch_miss (client : Client) (i : Interaction) (now : Z) :
  unrouted client i →
  (execute client (inbound i now)).1 = inr tt ∧
  effects (execute client (inbound i now)).2 = miss_effects i ∧
  match kind i with
  | ChatInputCommand =>
      Console Warn ("Unknown command: " +:+ commandName i) None
        ∈ effects (execute client (inbound i now)).2 ∧
      match rest_failure i with
      | None =>
          ∃ method, Sent method ("Command `" +:+ commandName i +:+ "` not found.") true
                    ∈ effects (execute client (inbound i now)).2
      | Some refusal =>
          Console Error "Failed to reply with error:" (Some refusal)
            ∈ effects (execute client (inbound i now)).2 ∧
          Forall (λ e, is_console e = true) (effects (execute client (inbound i now)).2)
      end
  | Button | StringSelectMenu | ModalSubmit =>
      effects (execute client (inbound i now)).2 ≠ [] ∧
      Forall (λ e, is_console e = true) (effects (execute client (inbound i now)).2)
  | ContextMenuCommand | Autocomplete | OtherSelectMenu =>
      effects (execute client (inbound i now)).2 = []
  end.
Proof.
  intros Hmiss. split; [apply execute_never_throws|].
  rewrite (dispatch_miss_effects client i now Hmiss). split; [done|].
  unfold miss_effects, notice.
  destruct (kind i); try done.
  - split; [apply list_elem_of_here|].
    destruct (rest_failure i) as [refusal|].
    + split; [apply list_elem_of_further, list_elem_of_here|]. by repeat constructor.
    + eexists. apply list_elem_of_further, list_elem_of_here.
  - split; [done|]. destruct (String.eqb (customId i) "ping_refresh"); by repeat constructor.
  - split; [done|]. by repeat constructor.
  - split; [done|]. by repeat constructor.
Qed.

Lemma dispatch_miss_witness :
  (execute Events.no_handlers (inbound Events.unknown_command 0)).1 = inr tt ∧
  effects (execute Events.no_handlers (inbound Events.unknown_command 0)).2
  = miss_effects Events.unknown_command ∧
  Console Warn "Unknown command: unknown" None
    ∈ effects (execute Events.no_handlers (inbound Events.unknown_command 0)).2 ∧
  ∃ method, Sent method "Command `unknown` not found." true
            ∈ effects (execute Events.no_handlers (inbound Events.unknown_command 0)).2.
Proof.
  apply (dispatch_miss Events.no_handlers Events.unknown_command 0).
  reflexivity.
Defined.

(** C5 as the specification words it fails twice.  A choice in a user
    select menu with no handler is dropped without any log line; and an
    unknown command whose reply the platform refuses leaves the user
    without the "not found" response. *)
Lemma silent_miss_and_lost_reply :
  (unrouted Events.no_handlers Events.member_menu ∧
   ¬ spec_dispatch_miss Events.no_handlers Events.member_menu 0) ∧
  (unrouted Events.no_handlers Events.expired_command ∧
   ¬ spec_dispatch_miss Events.no_handlers Events.expired_command 0).
Proof.
  split; (split; [reflexivity|]).
  - intros (_ & (level & message & detail & Hin) & _).
    vm_compute in Hin. by apply elem_of_nil in Hin.
  - intros (_ & _ & Hsent & _). destruct (Hsent eq_refl) as [method Hin].
    vm_compute in Hin.
    repeat (apply elem_of_cons in Hin as [Hin|Hin]; [discriminate Hin|]).
    by apply elem_of_nil in Hin.
Qed.







End DispatchProofs.

(** ** Startup discovery *)

Module RegistryProofs.
Import Discord Registry RegistryContract.

Lemma loader_bind_run {A B} (m : Loader A) (k : A → Loader B) (p : Process) :
  (m ≫= k) p = match m p with
               | (inr a, p') => k a p'
               | (inl e, p') => (inl e, p')
               end.
Proof. reflexivity. Qed.

(** Steps through [await import(path)] and the first [in] test, given
    what the import resolves to and its default export. *)
Ltac open_module Himport Hdefault :=
  unfold import_module; rewrite Himport;
  rewrite loader_bind_run; cbn [mret M_ret]; cbv beta iota;
  unfold default_for_in; rewrite Hdefault;
  rewrite loader_bind_run; cbn [mret M_ret]; cbv beta iota.

Section Loading.

Variable fs : FileSystem.

(** A command file whose default export has both properties is put in
    [client.commands] under its name, whatever was there. *)
Lemma loadCommandFile_registers (folderPath file : string) (m : ModuleNamespace)
    (d : ExportObject) (builder : SlashCommandBuilder) (h : Async unit) (p : Process) :
  import fs (join folderPath file) = inr m →
  default m = Some d → data d = Some builder → execute d = Some h →
  loadCommandFile fs folderPath file p
  = (inr tt,
     {| client := {| commands := <[name builder := d]> (commands (client p));
                     buttons := buttons (client p);
                     modals := modals (client p);
                     selectMenus := selectMenus (client p) |};
        listeners := listeners p;
        stdout := stdout p ++
          [Console Log ("Loaded command: " +:+ name builder +:+ " from " +:+
                        join folderPath file) None] |}).
Proof.
  intros Himport Hdefault Hdata Hexecute.
  unfold loadCommandFile. open_module Himport Hdefault.
  rewrite Hdata, Hexecute. reflexivity.
Qed.

(** A command file whose default export lacks [data] or [execute] is
    reported and left out. *)
Lemma loadCommandFile_malformed (folderPath file : string) (m : ModuleNamespace)
    (d : ExportObject) (p : Process) :
  import fs (join folderPath file) = inr m →
  default m = Some d → data d = None ∨ execute d = None →
  loadCommandFile fs folderPath file p
  = (inr tt,
     {| client := client p; listeners := listeners p;
        stdout := stdout p ++
          [Console Warn ("Command in " +:+ join folderPath file +:+
                         " is missing required properties.") None] |}).
Proof.
  intros Himport Hdefault Hmissing.
  unfold loadCommandFile. open_module Himport Hdefault.
  destruct Hmissing as [->| ->]; [done|]. by destruct (data d).
Qed.

(** A component file whose default export lacks [customId] or
    [execute] is left out, and nothing is printed. *)
Lemma loadComponentFile_malformed (set : string → ExportObject → Loader unit)
    (label dir file : string) (m : ModuleNamespace) (d : ExportObject) (p : Process) :
  import fs (join dir file) = inr m →
  default m = Some d → export_customId d = None ∨ execute d = None →
  loadComponentFile fs set label dir file p = (inr tt, p).
Proof.
  intros Himport Hdefault Hmissing.
  unfold loadComponentFile. open_module Himport Hdefault.
  destruct Hmissing as [->| ->]; [done|]. by destruct (export_customId d).
Qed.

(** A component file whose default export has both properties is put in
    its collection under its [customId]. *)
Lemma loadComponentFile_registers (set : string → ExportObject → Loader unit)
    (label dir file : string) (m : ModuleNamespace) (d : ExportObject)
    (cid : string) (h : Async unit) (p : Process) :
  import fs (join dir file) = inr m →
  default m = Some d → export_customId d = Some cid → execute d = Some h →
  loadComponentFile fs set label dir file p
  = (set cid d ≫= λ _,
       console Log ("Loaded " +:+ label +:+ ": " +:+ cid +:+ " from " +:+ join dir file) None) p.
Proof.
  intros Himport Hdefault Hid Hexecute.
  unfold loadComponentFile. open_module Himport Hdefault.
  by rewrite Hid, Hexecute.
Qed.

(** A file without a default export makes the [in] test throw, in the
    command loader and in the component loaders alike. *)
Lemma no_default_throws (set : string → ExportObject → Loader unit)
    (label dir file : string) (m : ModuleNamespace) (p : Process) :
  import fs (join dir file) = inr m → default m = None →
  (loadCommandFile fs dir file p).1
  = inl (JsError "TypeError: Cannot use 'in' operator to search for 'data' in undefined") ∧
  (loadComponentFile fs set label dir file p).1
  = inl (JsError "TypeError: Cannot use 'in' operator to search for 'customId' in undefined").
Proof.
  intros Himport Hdefault.
  unfold loadCommandFile, loadComponentFile, import_module, default_for_in.
  rewrite Himport, !loader_bind_run. cbn [mret M_ret]. by rewrite Hdefault.
Qed.

Lemma loadEventFile_listens (eventsPath file : string) (m : ModuleNamespace)
    (n : string) (p : Process) :
  import fs (join eventsPath file) = inr m →
  event_name m = Some n → event_execute m = true →
  loadEventFile fs eventsPath file p
  = (inr tt,
     {| client := client p;
        listeners := listeners p ++
          [{| event := n; once := event_once m; source := join eventsPath file |}];
        stdout := stdout p ++
          [Console Log ("Loaded Event: " +:+ n +:+ " (" +:+
                        (if event_once m then "once" else "on") +:+ ")") None] |}).
Proof.
  intros Himport Hname Hexecute.
  unfold loadEventFile, import_module. rewrite Himport, loader_bind_run.
  cbn [mret M_ret]. cbv beta iota. by rewrite Hname, Hexecute.
Qed.

(** C7, as the code has it.  Whatever the registry holds, loading a
    well-formed file whose key is already registered in its group does
    this.  For a command, a button, a modal and a select menu the new
    export takes the place of the prior entry, and the lookup of the key
    returns the new export and nothing else.  For an event the prior
    listeners stay and the new one is added after them, so the lookup
    returns them all.  Every other key, of this group and of the others,
    is as before. *)
Theorem reregistration_replaces (g : Group) (dir file : string) (m : ModuleNamespace)
    (key : string) (entry : Entry) (p : Process) :
  import fs (join dir file) = inr m →
  offers g (join dir file) m = Some (key, entry) →
  registered g key p ≠ [] →
  (loadFile fs g dir file p).1 = inr tt ∧
  registered g key (loadFile fs g dir file p).2
  = match g with
    | Events => registered g key p ++ [entry]
    | _ => [entry]
    end ∧
  ∀ g' key', (g', key') ≠ (g, key) →
             registered g' key' (loadFile fs g dir file p).2 = registered g' key' p.
Proof.
  intros Himport Hoffers _.
  destruct g; cbn [offers] in Hoffers.
  1-4: destruct (default m) as [d|] eqn:Hdefault; [|done]; cbn in Hoffers.
  1: destruct (data d) as [builder|] eqn:Hdata; [|done]; cbn in Hoffers.
  2-4: destruct (export_customId d) as [cid|] eqn:Hcid; [|done]; cbn in Hoffers.
  1-4: destruct (execute d) as [h|] eqn:Hexecute; [|done]; cbn in Hoffers;
    injection Hoffers as <- <-; cbn [loadFile].
  - rewrite (loadCommandFile_registers _ _ _ _ _ _ _ Himport Hdefault Hdata Hexecute).
    cbn [fst snd]. split; [done|]. split.
    + cbn [registered client commands]. by rewrite lookup_insert_eq.
    + intros g' key' Hne. destruct g'; cbn [registered client commands buttons modals
        selectMenus listeners]; try done.
      rewrite lookup_insert_ne; [done|]. intros Hsame. apply Hne. by rewrite Hsame.
  - rewrite (loadComponentFile_registers _ _ _ _ _ _ _ _ _ Himport Hdefault Hcid Hexecute).
    cbv [buttons_set the_client set_client console mbind M_bind].
    cbn [fst snd]. split; [done|]. split.
    + cbn [registered client buttons]. by rewrite lookup_insert_eq.
    + intros g' key' Hne. destruct g'; cbn [registered client commands buttons modals
        selectMenus listeners]; try done.
      rewrite lookup_insert_ne; [done|]. intros Hsame. apply Hne. by rewrite Hsame.
  - rewrite (loadComponentFile_registers _ _ _ _ _ _ _ _ _ Himport Hdefault Hcid Hexecute).
    cbv [modals_set the_client set_client console mbind M_bind].
    cbn [fst snd]. split; [done|]. split.
    + cbn [registered client modals]. by rewrite lookup_insert_eq.
    + intros g' key' Hne. destruct g'; cbn [registered client commands buttons modals
        selectMenus listeners]; try done.
      rewrite lookup_insert_ne; [done|]. intros Hsame. apply Hne. by rewrite Hsame.
  - rewrite (loadComponentFile_registers _ _ _ _ _ _ _ _ _ Himport Hdefault Hcid Hexecute).
    cbv [selectMenus_set the_client set_client console mbind M_bind].
    cbn [fst snd]. split; [done|]. split.
    + cbn [registered client selectMenus]. by rewrite lookup_insert_eq.
    + intros g' key' Hne. destruct g'; cbn [registered client commands buttons modals
        selectMenus listeners]; try done.
      rewrite lookup_insert_ne; [done|]. intros Hsame. apply Hne. by rewrite Hsame.
  - destruct (event_name m) as [n|] eqn:Hname; [|done]. cbn in Hoffers.
    destruct (event_execute m) eqn:Hexecute; [|done].
    injection Hoffers as <- <-. cbn [loadFile].
    rewrite (loadEventFile_listens _ _ _ _ _ Himport Hname Hexecute).
    cbn [fst snd]. split; [done|]. split.
    + cbn [registered listeners].
      rewrite filter_app, filter_cons, filter_nil, decide_True by done.
      by rewrite fmap_app.
    + intros g' key' Hne. destruct g'; cbn [registered client listeners]; try done.
      rewrite filter_app, filter_cons, filter_nil, decide_False, app_nil_r; [done|].
      cbn [event]. intros Hsame. apply Hne. by rewrite Hsame.
Qed.

End Loading.

Lemma reregistration_replaces_witness :
  (loadFile Startup.two_warns Commands "dist/commands/moderation" "warn2.js"
     Startup.after_first_warn).1 = inr tt ∧
  registered Commands "warn"
    (loadFile Startup.two_warns Commands "dist/commands/moderation" "warn2.js"
       Startup.after_first_warn).2
  = [Handler Startup.warn_v2] ∧
  ∀ g' key', (g', key') ≠ (Commands, "warn") →
             registered g' key'
               (loadFile Startup.two_warns Commands "dist/commands/moderation" "warn2.js"
                  Startup.after_first_warn).2
             = registered g' key' Startup.after_first_warn.
Proof.
  apply (reregistration_replaces Startup.two_warns Commands "dist/commands/moderation"
           "warn2.js" (Startup.default_only Startup.warn_v2) "warn"
           (Handler Startup.warn_v2) Startup.after_first_warn).
  - reflexivity.
  - reflexivity.
  - vm_compute. discriminate.
Defined.

(** C7 as the specification words it fails for event names.  With
    [welcome.js] loaded, loading [autorole.js], which listens to the same
    event, leaves two listeners under "guildMemberAdd": [client.on] adds,
    it does not replace. *)
Lemma event_listeners_accumulate :
  ¬ spec_reregistration Startup.two_greeters Events "dist/events" "autorole.js"
      Startup.after_welcome.
Proof.
  intros Hclaim.
  specialize (Hclaim Startup.on_join "guildMemberAdd"
                (Listening {| event := "guildMemberAdd"; once := false;
                              source := "dist/events/autorole.js" |})
                eq_refl eq_refl).
  assert (registered Events "guildMemberAdd" Startup.after_welcome ≠ []) as Hprior
    by (vm_compute; discriminate).
  specialize (Hclaim Hprior). vm_compute in Hclaim. discriminate Hclaim.
Qed.

End RegistryProofs.

Module DiscoveryProofs.
Import Discord Registry.

(** C9, the code at three startups.  A button file without [customId]
    in front of a good one: the good one is registered, and the console
    holds no line about the malformed file.  A command file without
    [execute] in front of a good one: the same, except that
    [loadCommands] does print its warning.  A command file without a
    default export in front of a good one: the [in] test throws, the
    loop is left through the [catch] of [loadCommands], and the good
    file is never reached. *)
Theorem malformed_candidates_at_startup :
  ((loadButtons Startup.one_malformed_each "dist/interactions" startup).1 = inr tt ∧
   buttons (client (loadButtons Startup.one_malformed_each "dist/interactions" startup).2)
     !! "confirm" = Some Startup.confirm_button ∧
   stdout (loadButtons Startup.one_malformed_each "dist/interactions" startup).2
   = [Console Log "Loaded button: confirm from dist/interactions/buttons/confirm.js" None]) ∧
  (commands (client (loadCommands Startup.one_malformed_each "dist" startup).2)
     !! "ping" = Some Startup.ping ∧
   stdout (loadCommands Startup.one_malformed_each "dist" startup).2
   = [Console Log "Loading commands from folders: util" None;
      Console Warn "Command in dist/commands/util/kick.js is missing required properties."
        None;
      Console Log "Loaded command: ping from dist/commands/util/ping.js" None;
      Console Log "Loaded 1 commands." None]) ∧
  (commands (client (loadCommands Startup.legacy_first "dist" startup).2) !! "ping" = None ∧
   stdout (loadCommands Startup.legacy_first "dist" startup).2
   = [Console Log "Loading commands from folders: util" None;
      Console Error
        "Error loading commands: TypeError: Cannot use 'in' operator to search for 'data' in undefined"
        None]).
Proof. vm_compute. repeat split; reflexivity. Qed.

End DiscoveryProofs.


(** ** More on the store: lookups, counts and what adding does to them *)

Module StoreExtras.
Import InfractionStore Contract Observations AddProofs StoreProofs QueryProofs LedgerProofs.

Lemma find_where_id_None (i : string) (rows : list Row) :
  find (where_id i) rows = None ↔ i ∉ row_id <$> rows.
Proof.
  induction rows as [|r rows IH]; simpl.
  - split; [intros _; apply not_elem_of_nil|done].
  - rewrite not_elem_of_cons. destruct (where_id i r) eqn:Hw.
    + apply where_id_true in Hw. split; [done|]. intros [Hne _]. by destruct Hne.
    + rewrite IH. split; [|tauto]. intros Hrest. split; [|done].
      intros ->. assert (where_id (row_id r) r = true) by by apply where_id_true.
      congruence.
Qed.

Lemma find_where_id_Some (i : string) (rows : list Row) (r : Row) :
  find (where_id i) rows = Some r → row_id r = i ∧ r ∈ rows.
Proof.
  induction rows as [|x rows IH]; simpl; [done|].
  destruct (where_id i x) eqn:Hw.
  - intros [= ->]. split; [by apply where_id_true|apply list_elem_of_here].
  - intros Hfind. destruct (IH Hfind). split; [done|]. by apply list_elem_of_further.
Qed.

(** X1.  On an open store [getInfractionById] returns [null] exactly for
    the ids that are not stored, and whatever it returns otherwise is a
    stored row, converted, that carries the id asked for. *)
Theorem getInfractionById_hit_or_miss {zone : TimeZone} (i : string) (d : Database) :
  open d = true →
  (getInfractionById i d = Ok None ↔ i ∉ stored_ids d) ∧
  (∀ inf, getInfractionById i d = Ok (Some inf) →
          id inf = i ∧ ∃ row, row ∈ user_infractions d ∧ inf = row_to_infraction row).
Proof.
  intros Hopen. unfold getInfractionById, prepare. rewrite Hopen.
  cbn [mbind result_bind]. split.
  - unfold stored_ids. rewrite <-find_where_id_None.
    destruct (find (where_id i) (user_infractions d)); split; congruence.
  - intros inf. destruct (find (where_id i) (user_infractions d)) as [r|] eqn:Hfind; [|done].
    intros [= <-]. destruct (find_where_id_Some _ _ _ Hfind) as [Hid Hin].
    split; [done|]. by exists r.
Qed.

Section InUTC.

#[local] Existing Instance Examples.UTC.

Lemma getInfractionById_hit_or_miss_witness :
  (getInfractionById "ZZZZZZZZ" Examples.same_second = Ok None
   ↔ "ZZZZZZZZ" ∉ stored_ids Examples.same_second) ∧
  (∀ inf, getInfractionById "ZZZZZZZZ" Examples.same_second = Ok (Some inf) →
          id inf = "ZZZZZZZZ" ∧
          ∃ row, row ∈ user_infractions Examples.same_second ∧ inf = row_to_infraction row).
Proof.
  apply (getInfractionById_hit_or_miss "ZZZZZZZZ" Examples.same_second). reflexivity.
Defined.

End InUTC.

Lemma count_types_partition (rows : list Row) :
  length rows
  = (count_type WARN rows + count_type MUTE rows + count_type KICK rows +
     count_type BAN rows + count_type TIMEOUT rows)%nat.
Proof.
  unfold count_type. induction rows as [|r rows IH]; [done|].
  rewrite !filter_cons. cbn [length]. rewrite IH.
  destruct (row_type r); repeat case_decide; try congruence; cbn [length]; lia.
Qed.

(** X2.  The six numbers of [getStats] are consistent: the total is the
    sum of the five per-type counters; the only way it fails is a closed
    handle. *)
Theorem getStats_total_is_sum (d : Database) :
  match getStats d with
  | Ok s => infractions s = (warns s + mutes s + kicks s + bans s + timeouts s)%nat
  | Err e => e = ConnectionNotOpen ∧ open d = false
  end.
Proof.
  unfold getStats, prepare. destruct (open d); [|done].
  cbn [mbind result_bind infractions warns mutes kicks bans timeouts].
  apply count_types_partition.
Qed.

Lemma scope_partition (u g : string) (rows : list Row) :
  length (filter (λ r, where_scope u g None r = true) rows)
  = (length (filter (λ r, where_scope u g (Some WARN) r = true) rows) +
     length (filter (λ r, where_scope u g (Some MUTE) r = true) rows) +
     length (filter (λ r, where_scope u g (Some KICK) r = true) rows) +
     length (filter (λ r, where_scope u g (Some BAN) r = true) rows) +
     length (filter (λ r, where_scope u g (Some TIMEOUT) r = true) rows))%nat.
Proof.
  induction rows as [|r rows IH]; [done|].
  rewrite !filter_cons. unfold where_scope in *.
  destruct (String.eqb (user_id r) u && String.eqb (guild_id r) g);
    destruct (row_type r); cbn [andb bool_decide decide_rel];
    repeat case_decide; try done; cbn [length]; lia.
Qed.

(** X3.  The count without a type filter is the sum of the counts for the
    five types, and fails exactly when they do. *)
Theorem getInfractionCount_sums_types (u g : string) (d : Database) :
  getInfractionCount u g None d
  = (nw ← getInfractionCount u g (Some WARN) d;
     nm ← getInfractionCount u g (Some MUTE) d;
     nk ← getInfractionCount u g (Some KICK) d;
     nb ← getInfractionCount u g (Some BAN) d;
     nt ← getInfractionCount u g (Some TIMEOUT) d;
     Ok (nw + nm + nk + nb + nt)%nat).
Proof.
  unfold getInfractionCount, prepare. destruct (open d); [|done].
  cbn [mbind result_bind]. f_equal. apply scope_partition.
Qed.

Lemma where_scope_new_row (u' g' : string) (t' : option InfractionType)
    (i : string) (now : Z) (u g m : string) (t : InfractionType) (r : string) :
  where_scope u' g' t' (new_row i now u g m t r) = true ↔ covers u' g' t' u g t.
Proof.
  rewrite where_scope_true. unfold covers. cbn [new_row user_id guild_id row_type].
  split.
  - intros (-> & -> & Ht). repeat split. destruct t' as [ty|]; [|by left].
    right. by rewrite (Ht ty eq_refl).
  - intros (-> & -> & [->| ->]); repeat split; congruence.
Qed.

(** X4.  A successful [addInfraction] raises by one the count of every
    query that covers the new row (same user and guild, no type filter or
    the row's type) and leaves every other count as it was. *)
Theorem addInfraction_raises_counts (Math_random : nat → Z) (fuel : nat) (now : Z)
    (u g m : string) (t : InfractionType) (r : string) (w : World) (i : string) (w' : World) :
  addInfraction Math_random fuel now u g m t r w = Some (Ok i, w') →
  ∀ u' g' t', ∃ n,
    getInfractionCount u' g' t' (db w) = Ok n ∧
    (covers u' g' t' u g t → getInfractionCount u' g' t' (db w') = Ok (S n)) ∧
    (¬ covers u' g' t' u g t → getInfractionCount u' g' t' (db w') = Ok n).
Proof.
  intros Hadd u' g' t'.
  destruct (addInfraction_Ok _ _ _ _ _ _ _ _ _ _ _ Hadd) as (Hopen & _ & _ & Hdb).
  eexists. unfold getInfractionCount, prepare. rewrite Hdb, Hopen.
  cbn [open user_infractions mbind result_bind]. split; [done|].
  rewrite filter_app, length_app, filter_cons, filter_nil.
  fold (new_row i now u g m t r).
  split; intros Hcovers; f_equal.
  - rewrite decide_True by by apply where_scope_new_row. cbn [length]. lia.
  - rewrite decide_False; [cbn [length]; lia|]. by rewrite where_scope_new_row.
Qed.

Lemma addInfraction_raises_counts_witness :
  ∃ n,
    getInfractionCount "u1" "g1" None (db Examples.empty_world) = Ok n ∧
    (covers "u1" "g1" None "u1" "g1" WARN →
       getInfractionCount "u1" "g1" None (db Examples.spam_world) = Ok (S n)) ∧
    (¬ covers "u1" "g1" None "u1" "g1" WARN →
       getInfractionCount "u1" "g1" None (db Examples.spam_world) = Ok n).
Proof.
  refine (addInfraction_raises_counts Examples.always_zero 1 1700000000
            "u1" "g1" "m1" WARN "spam" Examples.empty_world "AAAAAAAA" Examples.spam_world
            _ "u1" "g1" None).
  vm_compute. reflexivity.
Defined.

Lemma order_by_newest_last (rows : list Row) (r : Row) :
  Forall (λ x, created_at x < created_at r) rows →
  order_by_created_at_desc (rows ++ [r]) = r :: order_by_created_at_desc rows.
Proof.
  induction 1 as [|x rows Hx _ IH]; [done|].
  cbn [app order_by_created_at_desc]. rewrite IH. cbn [sorter_insert].
  destruct (Z.leb_spec (created_at r) (created_at x)); [lia|done].
Qed.

(** X5.  When the new infraction is strictly newer than everything
    stored, every query that covers it returns, after a successful
    [addInfraction], the new infraction followed by exactly what it
    returned before. *)
Theorem addInfraction_newest_comes_first {zone : TimeZone}
    (Math_random : nat → Z) (fuel : nat) (now : Z) (u g m : string) (t : InfractionType) (r : string) (w : World) (i : string) (w' : World) :
  addInfraction Math_random fuel now u g m t r w = Some (Ok i, w') →
  Forall (λ row, created_at row < now) (user_infractions (db w)) →
  ∀ t', t' = None ∨ t' = Some t →
    ∃ before,
      getUserInfractions u g t' (db w) = Ok before ∧
      getUserInfractions u g t' (db w')
      = Ok (row_to_infraction (new_row i now u g m t r) :: before).
Proof.
  intros Hadd Hnewer t' Ht'.
  destruct (addInfraction_Ok _ _ _ _ _ _ _ _ _ _ _ Hadd) as (Hopen & _ & _ & Hdb).
  eexists. split; [by apply getUserInfractions_open|].
  rewrite getUserInfractions_open by by rewrite Hdb.
  unfold selected. rewrite Hdb. cbn [user_infractions].
  rewrite filter_app, filter_cons, filter_nil. fold (new_row i now u g m t r).
  rewrite decide_True by (apply where_scope_new_row; by repeat split).
  rewrite order_by_newest_last; [done|].
  apply Forall_forall. intros x [_ Hx]%list_elem_of_filter.
  rewrite Forall_forall in Hnewer. by apply Hnewer.
Qed.

Section InUTC.

#[local] Existing Instance Examples.UTC.

Lemma addInfraction_newest_comes_first_witness :
  ∃ before,
    getUserInfractions "u2" "g1" None (db Examples.spam_world) = Ok before ∧
    getUserInfractions "u2" "g1" None (db Examples.after_two_calls)
    = Ok (row_to_infraction (new_row "JKLMNOPQ" 1700000060 "u2" "g1" "m1" WARN "caps")
          :: before).
Proof.
  refine (addInfraction_newest_comes_first Examples.counting 1 1700000060
            "u2" "g1" "m1" WARN "caps" Examples.spam_world "JKLMNOPQ" Examples.after_two_calls
            _ _ None (or_introl eq_refl)).
  - vm_compute. reflexivity.
  - repeat constructor.
Defined.

End InUTC.

(** Filtering after the sorter gives what sorting the filtered rows
    gives: the sorter is stable and compares timestamps only. *)
Lemma sorter_insert_filter (P : Row → Prop) `{∀ x, Decision (P x)} (r : Row) (l : list Row) :
  StronglySorted rows_newest_first l →
  filter P (sorter_insert r l)
  = if decide (P r) then sorter_insert r (filter P l) else filter P l.
Proof.
  induction 1 as [|x l Hsorted IH Hall]; cbn [sorter_insert].
  - rewrite filter_cons, !filter_nil. by destruct (decide (P r)).
  - destruct (Z.leb_spec (created_at x) (created_at r)) as [Hle|Hlt].
    + rewrite (filter_cons _ r). destruct (decide (P r)) as [Hr|Hr]; [|done].
      rewrite (filter_cons _ x). destruct (decide (P x)) as [Hx|Hx].
      * cbn [sorter_insert]. by rewrite (proj2 (Z.leb_le _ _) Hle).
      * assert (Forall (λ y, created_at y ≤ created_at r) (filter P l)) as Hlow.
        { apply Forall_forall. intros y [_ Hy]%list_elem_of_filter.
          rewrite Forall_forall in Hall. specialize (Hall y Hy).
          unfold rows_newest_first in Hall. lia. }
        destruct (filter P l) as [|y rest]; [done|].
        apply Forall_cons in Hlow as [Hy _]. cbn [sorter_insert].
        by rewrite (proj2 (Z.leb_le _ _) Hy).
    + rewrite (filter_cons _ x), IH. rewrite (filter_cons _ x).
      destruct (decide (P r)) as [Hr|Hr]; [|done].
      destruct (decide (P x)) as [Hx|Hx]; [|done].
      cbn [sorter_insert]. by rewrite (proj2 (Z.leb_gt _ _) Hlt).
Qed.

Lemma order_by_filter (P : Row → Prop) `{∀ x, Decision (P x)} (l : list Row) :
  filter P (order_by_created_at_desc l) = order_by_created_at_desc (filter P l).
Proof.
  induction l as [|r l IH]; [done|].
  cbn [order_by_created_at_desc].
  rewrite sorter_insert_filter by apply order_by_sorted.
  rewrite filter_cons, IH. by destruct (decide (P r)).
Qed.

Lemma filter_type_fmap {zone : TimeZone} (t : InfractionType) (l : list Row) :
  filter (λ i, type i = t) (row_to_infraction <$> l)
  = row_to_infraction <$> filter (λ r, row_type r = t) l.
Proof.
  induction l as [|r l IH]; [done|].
  rewrite fmap_cons, !filter_cons, IH.
  change (type (row_to_infraction r)) with (row_type r).
  repeat case_decide; first [reflexivity | contradiction].
Qed.

Lemma selected_by_type (u g : string) (t : InfractionType) (d : Database) :
  selected u g (Some t) d = filter (λ r, row_type r = t) (selected u g None d).
Proof.
  unfold selected. rewrite list_filter_filter. apply list_filter_iff.
  intros r. rewrite !where_scope_true. split.
  - intros (-> & -> & Ht). split; [by apply Ht|]. by repeat split.
  - intros (<- & -> & -> & _). repeat split. congruence.
Qed.

(** X6.  Asking for one type gives the same list, in the same order, as
    asking without a filter and keeping the infractions of that type. *)
Theorem getUserInfractions_filter_commutes {zone : TimeZone}
    (u g : string) (t : InfractionType) (d : Database) :
  getUserInfractions u g (Some t) d
  = filter (λ i, type i = t) <$> getUserInfractions u g None d.
Proof.
  destruct (open d) eqn:Hopen.
  - rewrite !getUserInfractions_open by done. cbn [fmap result_fmap]. f_equal.
    by rewrite selected_by_type, filter_type_fmap, order_by_filter.
  - unfold getUserInfractions, prepare. by rewrite Hopen.
Qed.

Section Runs.

Variable Math_random : nat → Z.
Context {zone : TimeZone}.

Lemma addInfraction_Err_keeps (fuel : nat) (now : Z) (u g m : string)
    (t : InfractionType) (r : string) (w : World) (e : error) (w' : World) :
  addInfraction Math_random fuel now u g m t r w = Some (Err e, w') → db w' = db w.
Proof.
  unfold addInfraction.
  destruct (getUniqueInfractionId Math_random fuel w) as [[[i|e0] w1]|] eqn:Hloop; [| |done].
  - destruct (insert _ (db w1)); [done|]. intros [= _ <-]. by eapply loop_keeps_db.
  - intros [= _ <-]. by eapply loop_keeps_db.
Qed.

Lemma adding_ids (fuel : nat) (now : Z) (u g m : string) (t : InfractionType) (r : string)
    (w : World) (res : Response) (w' : World) :
  adding (addInfraction Math_random fuel now u g m t r w) = Some (res, w') →
  stored_ids (db w') = stored_ids (db w) ++ added_id res.
Proof.
  destruct (addInfraction Math_random fuel now u g m t r w) as [[[i|e] w1]|] eqn:Hadd;
    [| |done]; intros [= <- <-]; cbn [added_id].
  - destruct (addInfraction_Ok _ _ _ _ _ _ _ _ _ _ _ Hadd) as (_ & _ & _ & Hdb).
    rewrite Hdb. unfold stored_ids. cbn [user_infractions]. by rewrite fmap_app.
  - rewrite (addInfraction_Err_keeps _ _ _ _ _ _ _ _ _ _ Hadd). by rewrite app_nil_r.
Qed.

Lemma perform_ids (fuel : nat) (c : Call) (w : World) (res : Response) (w' : World) :
  perform Math_random fuel c w = Some (res, w') →
  stored_ids (db w') = stored_ids (db w) ++ added_id res.
Proof.
  destruct c; cbn [perform]; try (intros [= <- <-]; cbn [added_id]; by rewrite app_nil_r).
  - apply adding_ids.
  - apply adding_ids.
Qed.

Lemma perform_all_ids (fuel : nat) (cs : list Call) (w : World)
    (rs : list Response) (w' : World) :
  perform_all Math_random fuel cs w = Some (rs, w') →
  stored_ids (db w') = stored_ids (db w) ++ added_ids rs.
Proof.
  revert w rs. induction cs as [|c cs IH]; intros w rs; cbn [perform_all].
  - intros [= <- <-]. by rewrite app_nil_r.
  - destruct (perform Math_random fuel c w) as [[r w1]|] eqn:Hc; [|done].
    destruct (perform_all Math_random fuel cs w1) as [[rs' w2]|] eqn:Hcs; [|done].
    intros [= <- <-]. rewrite (IH _ _ Hcs), (perform_ids _ _ _ _ _ Hc).
    unfold added_ids. cbn [mbind list_bind]. by rewrite app_assoc.
Qed.

(** X7.  After any run of public calls the ids in the table are the ids
    that were there, followed by the ids the adding calls returned, in
    call order; so, on a table that satisfied its PRIMARY KEY, the ids
    handed out in one run are pairwise different and none of them was in
    the table before. *)
Theorem ids_handed_out_are_new (fuel : nat) (cs : list Call) (w : World)
    (rs : list Response) (w' : World) :
  primary_key_ok (db w) →
  perform_all Math_random fuel cs w = Some (rs, w') →
  stored_ids (db w') = stored_ids (db w) ++ added_ids rs ∧
  NoDup (added_ids rs) ∧
  ∀ i, i ∈ added_ids rs → i ∉ stored_ids (db w).
Proof.
  intros Hpk Hrun. pose proof (perform_all_ids _ _ _ _ _ Hrun) as Hids.
  destruct (perform_all_appends _ _ _ _ _ _ Hpk Hrun) as (_ & Hpk' & _).
  unfold primary_key_ok in Hpk'. fold (stored_ids (db w')) in Hpk'.
  change (NoDup (stored_ids (db w'))) in Hpk'.
  rewrite Hids in Hpk'. apply NoDup_app in Hpk' as (_ & Hdisjoint & Hnew).
  split; [done|]. split; [done|]. intros i Hi Hold. by apply (Hdisjoint i).
Qed.

(** X8.  On a closed handle nothing is written: [addInfraction] still
    draws the eight random characters of a candidate, then throws from
    the uniqueness check; the count and the statistics throw as well;
    [backup] does not, since the promise that carries the failure is
    dropped; [close] is accepted again and changes nothing. *)
Theorem closed_handle_rejects (fuel : nat) (now : Z) (u g m : string)
    (t : InfractionType) (r : string) (w : World) :
  open (db w) = false →
  addInfraction Math_random (S fuel) now u g m t r w
  = Some (Err ConnectionNotOpen, advance w 8) ∧
  addWarning Math_random (S fuel) now u g m r w = Some (Err ConnectionNotOpen, advance w 8) ∧
  (∀ u' g' t', getInfractionCount u' g' t' (db w) = Err ConnectionNotOpen) ∧
  getStats (db w) = Err ConnectionNotOpen ∧
  (∀ path, backup path (db w) = Ok tt) ∧
  close (db w) = Ok (db w).
Proof.
  intros Hopen. unfold addWarning, addInfraction.
  rewrite loop_closed by done.
  unfold getInfractionCount, getStats, backup, close, prepare. rewrite Hopen.
  repeat split. destruct (db w) as [o rows]. cbn in Hopen. by subst o.
Qed.

End Runs.

Section InUTC.

#[local] Existing Instance Examples.UTC.

Lemma ids_handed_out_are_new_witness :
  stored_ids (db Examples.after_two_calls)
  = stored_ids (db Examples.spam_world) ++ added_ids Examples.two_responses ∧
  NoDup (added_ids Examples.two_responses) ∧
  ∀ i, i ∈ added_ids Examples.two_responses → i ∉ stored_ids (db Examples.spam_world).
Proof.
  apply (ids_handed_out_are_new Examples.counting 1 Examples.two_calls Examples.spam_world
           Examples.two_responses Examples.after_two_calls).
  - unfold primary_key_ok. cbn. apply NoDup_singleton.
  - vm_compute. reflexivity.
Defined.

End InUTC.

End StoreExtras.

Module ClosedHandle.
Import InfractionStore Contract StoreExtras.

Lemma closed_handle_rejects_witness :
  addInfraction Examples.always_zero 1 1700000100 "u1" "g1" "m1" KICK "raid"
    Examples.closed_world
  = Some (Err ConnectionNotOpen, advance Examples.closed_world 8) ∧
  addWarning Examples.always_zero 1 1700000100 "u1" "g1" "m1" "raid" Examples.closed_world
  = Some (Err ConnectionNotOpen, advance Examples.closed_world 8) ∧
  (∀ u' g' t', getInfractionCount u' g' t' (db Examples.closed_world) = Err ConnectionNotOpen) ∧
  getStats (db Examples.closed_world) = Err ConnectionNotOpen ∧
  (∀ path, backup path (db Examples.closed_world) = Ok tt) ∧
  close (db Examples.closed_world) = Ok (db Examples.closed_world).
Proof.
  apply (closed_handle_rejects Examples.always_zero 0 1700000100 "u1" "g1" "m1" KICK "raid"
           Examples.closed_world).
  reflexivity.
Defined.

End ClosedHandle.

(** ** More on the dispatcher: the success path and the component kinds *)

Module DispatchExtras.
Import Discord Dispatcher DispatchContract DispatchProofs.

(** X9.  When the registered handler of a command completes, the dispatch
    completes too and adds exactly one thing to what the handler did: the
    console line with the command name and the time the handler took.
    The dispatcher itself sends nothing to the user. *)
Theorem handler_success_is_timed (client : Client) (i : Interaction) (now : Z)
    (command : ExportObject) (rt1 : Runtime) :
  kind i = ChatInputCommand →
  commands client !! commandName i = Some command →
  call_execute command (at_handler_start i now) = (inr tt, rt1) →
  execute client (inbound i now)
  = (inr tt,
     {| interaction := interaction rt1;
        Date_now := Date_now rt1;
        effects := effects rt1 ++
          [Console Log (commandName (interaction rt1) +:+ " executed in " +:+
                        pretty (Date_now rt1 - now) +:+ "ms") None] |}).
Proof.
  intros Hkind Hcommand Hdone.
  unfold execute, try_catch. rewrite bind_run.
  cbn [the_interaction inbound interaction]. unfold isChatInputCommand.
  rewrite bool_decide_eq_true_2 by done.
  change {| interaction := i; Date_now := now; effects := [] |} with (inbound i now).
  unfold handleChatInputCommand. rewrite bind_run.
  cbn [the_interaction inbound interaction]. rewrite Hcommand.
  assert (∀ k : unit → Async unit,
    (console Log ("Running /" +:+ commandName i +:+ " by " +:+ user_tag i) None ≫= k)
      {| interaction := i; Date_now := now; effects := [] |}
    = k tt (at_handler_start i now)) as Hstart by reflexivity.
  unfold try_catch. rewrite Hstart, bind_run. cbn [Date_now_call].
  rewrite bind_run, Hdone, bind_run. cbn [Date_now_call]. rewrite bind_run.
  cbn [the_interaction]. reflexivity.
Qed.

Lemma handler_success_is_timed_witness :
  execute Startup.client_with_ping (inbound Events.ping_command 1000)
  = (inr tt,
     {| interaction := interaction (at_handler_start Events.ping_command 1000);
        Date_now := Date_now (at_handler_start Events.ping_command 1000);
        effects := effects (at_handler_start Events.ping_command 1000) ++
          [Console Log
             (commandName (interaction (at_handler_start Events.ping_command 1000)) +:+
              " executed in " +:+
              pretty (Date_now (at_handler_start Events.ping_command 1000) - 1000) +:+ "ms")
             None] |}).
Proof.
  apply (handler_success_is_timed Startup.client_with_ping Events.ping_command 1000
           Startup.ping (at_handler_start Events.ping_command 1000)).
  - reflexivity.
  - reflexivity.
  - reflexivity.
Defined.

(** X10.  An interaction that is not a chat-input command never reaches a
    registered handler: whatever the client's collections hold, the
    dispatch does the same thing, which is to write console lines at
    most; nothing is sent and the interaction is left unanswered. *)
Theorem components_ignore_the_registry (client client' : Client) (i : Interaction) (now : Z) :
  kind i ≠ ChatInputCommand →
  execute client (inbound i now) = execute client' (inbound i now) ∧
  interaction (execute client (inbound i now)).2 = i ∧
  Forall (λ e, is_console e = true) (effects (execute client (inbound i now)).2).
Proof.
  intros Hkind.
  assert (∀ c, execute c (inbound i now)
               = (inr tt, {| interaction := i; Date_now := now;
                             effects := miss_effects i |})) as Hrun.
  { intros c. unfold execute, try_catch. rewrite bind_run.
    cbn [the_interaction inbound interaction].
    unfold isChatInputCommand, isButton, isStringSelectMenu, isModalSubmit, miss_effects.
    destruct (kind i) eqn:Hk; repeat case_bool_decide; try congruence; try reflexivity.
    unfold handleButtonInteraction, inbound.
    cbv [mbind M_bind the_interaction console try_catch mret M_ret].
    cbn [interaction effects Date_now].
    destruct (String.eqb (customId i) "ping_refresh"); reflexivity. }
  rewrite !Hrun. cbn [snd interaction effects]. split; [done|]. split; [done|].
  unfold miss_effects. destruct (kind i); try done; try by repeat constructor.
  destruct (String.eqb (customId i) "ping_refresh"); by repeat constructor.
Qed.

Lemma components_ignore_the_registry_witness :
  execute Events.no_handlers (inbound Events.confirm_press 0)
  = execute Startup.client_with_confirm (inbound Events.confirm_press 0) ∧
  interaction (execute Events.no_handlers (inbound Events.confirm_press 0)).2
  = Events.confirm_press ∧
  Forall (λ e, is_console e = true)
    (effects (execute Events.no_handlers (inbound Events.confirm_press 0)).2).
Proof.
  apply (components_ignore_the_registry Events.no_handlers Startup.client_with_confirm
           Events.confirm_press 0).
  discriminate.
Defined.

End DispatchExtras.

(** ** More on discovery: it never removes, it throws from one place
    only, and each loader keeps to its own collections *)

Module RegistryExtras.
Import Discord Registry RegistryContract RegistryProofs.

#[local] Instance only_adds_preorder : PreOrder only_adds.
Proof.
  split.
  - intros p. by repeat split.
  - intros p1 p2 p3 (? & ? & ? & ? & ? & ?) (? & ? & ? & ? & ? & ?).
    repeat split; by etrans.
Qed.

#[local] Instance commands_only_preorder : PreOrder commands_only.
Proof.
  split.
  - intros p. by repeat split.
  - intros p1 p2 p3 (? & ? & ? & ?) (? & ? & ? & ?). repeat split; congruence.
Qed.

#[local] Instance listeners_only_preorder : PreOrder listeners_only.
Proof. split; [by intros p|]. intros p1 p2 p3. unfold listeners_only. congruence. Qed.

#[local] Instance components_only_preorder : PreOrder components_only.
Proof.
  split.
  - intros p. by split.
  - intros p1 p2 p3 [? ?] [? ?]. split; congruence.
Qed.

Section Preserved.

Context (R : relation Process) `{!PreOrder R}.

Lemma preserves_ret {A} (a : A) : preserves R (mret a : Loader A).
Proof. intros p. reflexivity. Qed.

Lemma preserves_throw {A} (e : JsValue) : preserves R (throw e : Loader A).
Proof. intros p. reflexivity. Qed.

Lemma preserves_evaluate {A} (completion : JsValue + A) :
  preserves R (evaluate completion : Loader A).
Proof. intros p. reflexivity. Qed.

Lemma preserves_bind {A B} (m : Loader A) (k : A → Loader B) :
  preserves R m → (∀ a, preserves R (k a)) → preserves R (m ≫= k).
Proof.
  intros Hm Hk p. rewrite loader_bind_run. specialize (Hm p).
  destruct (m p) as [[e|a] p1]; [exact Hm|].
  etrans; [exact Hm|apply Hk].
Qed.

Lemma preserves_try_catch {A} (body : Loader A) (handler : JsValue → Loader A) :
  preserves R body → (∀ e, preserves R (handler e)) → preserves R (try_catch body handler).
Proof.
  intros Hbody Hhandler p. unfold try_catch. specialize (Hbody p).
  destruct (body p) as [[e|a] p1]; [|exact Hbody].
  etrans; [exact Hbody|apply Hhandler].
Qed.

Lemma preserves_for_of {A} (xs : list A) (body : A → Loader unit) :
  (∀ x, preserves R (body x)) → preserves R (for_of xs body).
Proof.
  intros Hbody. induction xs as [|x xs IH]; cbn [for_of].
  - apply preserves_ret.
  - apply preserves_bind; [apply Hbody|]. intros _. exact IH.
Qed.

Section Files.

Variable fs : FileSystem.

Lemma preserves_readdirSync (path : string) : preserves R (readdirSync fs path).
Proof.
  unfold readdirSync. destruct (readdir fs path); [apply preserves_ret|apply preserves_throw].
Qed.

Lemma preserves_script_files (path : string) : preserves R (script_files fs path).
Proof.
  unfold script_files. apply preserves_bind; [apply preserves_readdirSync|].
  intros entries. apply preserves_ret.
Qed.

Lemma preserves_import_module (path : string) : preserves R (import_module fs path).
Proof.
  unfold import_module. destruct (import fs path); [apply preserves_throw|apply preserves_ret].
Qed.

Lemma preserves_default_for_in (key : string) (m : ModuleNamespace) :
  preserves R (default_for_in key m).
Proof.
  unfold default_for_in. destruct (default m); [apply preserves_ret|apply preserves_throw].
Qed.

(** The three loaders, given that the primitive steps they take are
    allowed by [R]. *)
Lemma preserves_loadCommands (dirname : string) :
  (∀ l m d, preserves R (console l m d)) →
  (∀ k v, preserves R (commands_set k v)) →
  preserves R (loadCommands fs dirname).
Proof.
  intros Hconsole Hset. unfold loadCommands.
  apply preserves_try_catch;
    [|intros e; apply preserves_bind; [apply preserves_evaluate|intros text; apply Hconsole]].
  apply preserves_bind; [apply preserves_readdirSync|]. intros entries.
  apply preserves_bind; [apply Hconsole|]. intros _.
  apply preserves_bind.
  - apply preserves_for_of. intros folder. unfold loadCommandFolder.
    apply preserves_bind; [apply preserves_script_files|]. intros files.
    apply preserves_for_of. intros file. unfold loadCommandFile.
    apply preserves_bind; [apply preserves_import_module|]. intros command.
    apply preserves_bind; [apply preserves_default_for_in|]. intros d.
    destruct (data d); [destruct (execute d)|]; try apply Hconsole.
    apply preserves_bind; [apply Hset|]. intros _. apply Hconsole.
  - intros _. apply preserves_bind; [intros p; reflexivity|]. intros c. apply Hconsole.
Qed.

Lemma preserves_loadEvents (dirname : string) :
  (∀ l m d, preserves R (console l m d)) →
  (∀ l, preserves R (add_listener l)) →
  preserves R (loadEvents fs dirname).
Proof.
  intros Hconsole Hadd. unfold loadEvents.
  apply preserves_try_catch; [|intros e; apply Hconsole].
  destruct (negb _); [apply Hconsole|].
  apply preserves_bind; [apply preserves_script_files|]. intros files.
  apply preserves_bind; [|intros _; apply Hconsole].
  apply preserves_for_of. intros file. unfold loadEventFile.
  apply preserves_bind; [apply preserves_import_module|]. intros event.
  destruct (event_name event); [destruct (event_execute event)|]; try apply Hconsole.
  apply preserves_bind; [apply Hadd|]. intros _. apply Hconsole.
Qed.

Lemma preserves_loadComponents (set : string → ExportObject → Loader unit)
    (label dir : string) :
  (∀ l m d, preserves R (console l m d)) →
  (∀ k v, preserves R (set k v)) →
  preserves R (loadComponents fs set label dir).
Proof.
  intros Hconsole Hset. unfold loadComponents.
  destruct (existsSync fs dir); [|apply preserves_ret].
  apply preserves_bind; [apply preserves_script_files|]. intros files.
  apply preserves_for_of. intros file. unfold loadComponentFile.
  apply preserves_bind; [apply preserves_import_module|]. intros component.
  apply preserves_bind; [apply preserves_default_for_in|]. intros d.
  destruct (export_customId d); [destruct (execute d)|]; try apply preserves_ret.
  apply preserves_bind; [apply Hset|]. intros _. apply Hconsole.
Qed.

Lemma preserves_loadInteractions (dirname : string) :
  (∀ l m d, preserves R (console l m d)) →
  (∀ k v, preserves R (buttons_set k v)) →
  (∀ k v, preserves R (modals_set k v)) →
  (∀ k v, preserves R (selectMenus_set k v)) →
  preserves R (loadInteractions fs dirname).
Proof.
  intros Hconsole Hb Hm Hs. unfold loadInteractions, loadButtons, loadModals, loadSelectMenus.
  apply preserves_try_catch; [|intros e; apply Hconsole].
  apply preserves_bind; [by apply preserves_loadComponents|]. intros _.
  apply preserves_bind; [by apply preserves_loadComponents|]. intros _.
  apply preserves_bind; [by apply preserves_loadComponents|]. intros _.
  apply preserves_bind; [intros p; reflexivity|]. intros c. apply Hconsole.
Qed.

End Files.

End Preserved.

Lemma prefix_of_snoc {A} (l : list A) (x : A) : l `prefix_of` l ++ [x].
Proof. by exists [x]. Qed.

Lemma console_only_adds (l : Level) (m : string) (d : option JsValue) :
  preserves only_adds (console l m d).
Proof. intros p. repeat split; try done. apply prefix_of_snoc. Qed.

Lemma add_listener_only_adds (l : Listener) : preserves only_adds (add_listener l).
Proof. intros p. repeat split; try done. apply prefix_of_snoc. Qed.

Lemma commands_set_only_adds (k : string) (v : ExportObject) :
  preserves only_adds (commands_set k v).
Proof.
  intros p. cbv [commands_set the_client set_client mbind M_bind].
  repeat split; try done; cbn [snd client commands buttons modals selectMenus];
    rewrite dom_insert_L; set_solver.
Qed.

Lemma buttons_set_only_adds (k : string) (v : ExportObject) :
  preserves only_adds (buttons_set k v).
Proof.
  intros p. cbv [buttons_set the_client set_client mbind M_bind].
  repeat split; try done; cbn [snd client commands buttons modals selectMenus];
    rewrite dom_insert_L; set_solver.
Qed.

Lemma modals_set_only_adds (k : string) (v : ExportObject) :
  preserves only_adds (modals_set k v).
Proof.
  intros p. cbv [modals_set the_client set_client mbind M_bind].
  repeat split; try done; cbn [snd client commands buttons modals selectMenus];
    rewrite dom_insert_L; set_solver.
Qed.

Lemma selectMenus_set_only_adds (k : string) (v : ExportObject) :
  preserves only_adds (selectMenus_set k v).
Proof.
  intros p. cbv [selectMenus_set the_client set_client mbind M_bind].
  repeat split; try done; cbn [snd client commands buttons modals selectMenus];
    rewrite dom_insert_L; set_solver.
Qed.

(** A loader wrapped in a [try] whose handler only prints does not throw. *)
Lemma loader_try_console (body : Loader unit) (handler : JsValue → Loader unit) (p : Process) :
  (∀ e q, (handler e q).1 = inr tt) → (try_catch body handler p).1 = inr tt.
Proof.
  intros Hhandler. unfold try_catch. destruct (body p) as [[e|[]] p1]; [apply Hhandler|done].
Qed.

Lemma loadEvents_returns (fs : FileSystem) (dirname : string) (p : Process) :
  (loadEvents fs dirname p).1 = inr tt.
Proof. unfold loadEvents. by apply loader_try_console. Qed.

Lemma loadInteractions_returns (fs : FileSystem) (dirname : string) (p : Process) :
  (loadInteractions fs dirname p).1 = inr tt.
Proof. unfold loadInteractions. by apply loader_try_console. Qed.

(** What the body of a loader can throw. *)
Section Thrown.

Variable fs : FileSystem.
Variable P : JsValue → Prop.

Lemma throws_only_total {A} (m : Loader A) :
  (∀ p, ∃ a, (m p).1 = inr a) → throws_only P m.
Proof. intros Hm p e He. destruct (Hm p) as [a Ha]. congruence. Qed.

Lemma throws_only_throw {A} (e : JsValue) : P e → throws_only P (throw e : Loader A).
Proof. intros He p e' [= <-]. exact He. Qed.

Lemma throws_only_bind {A B} (m : Loader A) (k : A → Loader B) :
  throws_only P m → (∀ a, throws_only P (k a)) → throws_only P (m ≫= k).
Proof.
  intros Hm Hk p e. rewrite loader_bind_run. specialize (Hm p).
  destruct (m p) as [[e'|a] p1].
  - intros [= <-]. by apply Hm.
  - apply Hk.
Qed.

Lemma throws_only_for_of {A} (xs : list A) (body : A → Loader unit) :
  (∀ x, throws_only P (body x)) → throws_only P (for_of xs body).
Proof.
  intros Hbody. induction xs as [|x xs IH]; cbn [for_of].
  - apply throws_only_total. intros p. by exists tt.
  - apply throws_only_bind; [apply Hbody|]. intros _. exact IH.
Qed.

Lemma console_returns (l : Level) (m : string) (d : option JsValue) :
  throws_only P (console l m d).
Proof. apply throws_only_total. intros p. by exists tt. Qed.

Hypothesis printable_P : ∀ e, printable e → P e.
Hypothesis import_P : ∀ e, import_failure fs e → P e.

Lemma throws_only_readdirSync (path : string) : throws_only P (readdirSync fs path).
Proof.
  unfold readdirSync. destruct (readdir fs path).
  - apply throws_only_total. intros p. by eexists.
  - apply throws_only_throw, printable_P. by eexists.
Qed.

Lemma throws_only_import_module (path : string) : throws_only P (import_module fs path).
Proof.
  unfold import_module. destruct (import fs path) as [e|m] eqn:Himport.
  - apply throws_only_throw, import_P. by exists path.
  - apply throws_only_total. intros p. by eexists.
Qed.

Lemma throws_only_default_for_in (key : string) (m : ModuleNamespace) :
  throws_only P (default_for_in key m).
Proof.
  unfold default_for_in. destruct (default m).
  - apply throws_only_total. intros p. by eexists.
  - apply throws_only_throw, printable_P. by eexists.
Qed.

Lemma throws_only_loadCommandFolder (commandsPath folder : string) :
  throws_only P (loadCommandFolder fs commandsPath folder).
Proof.
  unfold loadCommandFolder, script_files.
  apply throws_only_bind.
  - apply throws_only_bind; [apply throws_only_readdirSync|]. intros entries.
    apply throws_only_total. intros p. by eexists.
  - intros files. apply throws_only_for_of. intros file. unfold loadCommandFile.
    apply throws_only_bind; [apply throws_only_import_module|]. intros command.
    apply throws_only_bind; [apply throws_only_default_for_in|]. intros d.
    destruct (data d); [destruct (execute d)|]; try apply console_returns.
    apply throws_only_bind; [|intros _; apply console_returns].
    apply throws_only_total. intros p. by exists tt.
Qed.

End Thrown.

(** [loadCommands] throws only from its [catch]: when what the [try]
    threw, which then came from an import, cannot be written into the
    template literal. *)
Lemma loadCommands_throws (fs : FileSystem) (dirname : string) (p : Process)
    (thrown : JsValue) :
  (loadCommands fs dirname p).1 = inl thrown →
  ∃ e, import_failure fs e ∧ String_of e = inl thrown.
Proof.
  unfold loadCommands, try_catch.
  match goal with |- context [match ?body p with _ => _ end] => set (run := body) end.
  assert (throws_only (λ e, printable e ∨ import_failure fs e) run) as Hrun.
  { subst run.
    apply throws_only_bind; [apply throws_only_readdirSync; tauto|]. intros entries.
    apply throws_only_bind; [apply console_returns|]. intros _.
    apply throws_only_bind.
    - apply throws_only_for_of. intros folder.
      apply throws_only_loadCommandFolder; tauto.
    - intros _. apply throws_only_bind; [|intros c; apply console_returns].
      apply throws_only_total. intros q. by eexists. }
  specialize (Hrun p). destruct (run p) as [[e|[]] p1]; [|done].
  rewrite loader_bind_run. unfold evaluate.
  destruct (String_of e) as [thrown'|text] eqn:Hconversion; [|done].
  intros [= <-]. exists e. split; [|done].
  destruct (Hrun e eq_refl) as [[text Htext]|Himport]; [congruence|done].
Qed.

(** X11.  Whatever the directory tree holds and whatever the imports do,
    the three loading steps of [initializeBot] take nothing away: every
    key that was registered in a collection is still registered, and the
    listeners and the console output are what they were with more at the
    end.  They come back without an exception, with one exception: when
    an import under [commands] throws a value that cannot be written into
    a template literal, a symbol for one, the [catch] of [loadCommands]
    throws in its turn, and neither events nor components are loaded. *)
Theorem discover_never_removes (fs : FileSystem) (dirname : string) (p : Process) :
  only_adds p (discover fs dirname p).2 ∧
  (printable_failures fs → (discover fs dirname p).1 = inr tt) ∧
  ∀ thrown, (discover fs dirname p).1 = inl thrown →
            (∃ e, import_failure fs e ∧ String_of e = inl thrown) ∧
            discover fs dirname p = loadCommands fs dirname p.
Proof.
  assert (∀ thrown, (discover fs dirname p).1 = inl thrown →
            (∃ e, import_failure fs e ∧ String_of e = inl thrown) ∧
            discover fs dirname p = loadCommands fs dirname p) as Hthrown.
  { intros thrown. unfold discover. rewrite !loader_bind_run.
    pose proof (loadCommands_throws fs dirname p) as Hcommands.
    destruct (loadCommands fs dirname p) as [[e|[]] p1].
    - intros [= <-]. split; [by apply Hcommands|done].
    - rewrite loader_bind_run.
      pose proof (loadEvents_returns fs dirname p1) as Hevents.
      destruct (loadEvents fs dirname p1) as [[e|[]] p2]; [done|].
      intros Hinteractions. by rewrite loadInteractions_returns in Hinteractions. }
  split; [|split; [|exact Hthrown]].
  - revert p Hthrown. intros p _.
    revert p. change (preserves only_adds (discover fs dirname)). unfold discover.
    apply preserves_bind; [apply _| |intros _; apply preserves_bind; [apply _| |intros _]].
    + apply preserves_loadCommands; [apply _|apply console_only_adds|apply commands_set_only_adds].
    + apply preserves_loadEvents; [apply _|apply console_only_adds|apply add_listener_only_adds].
    + apply preserves_loadInteractions;
        [apply _|apply console_only_adds|apply buttons_set_only_adds
        |apply modals_set_only_adds|apply selectMenus_set_only_adds].
  - intros Hprintable.
    destruct (discover fs dirname p).1 as [thrown|[]] eqn:Hout; [|done].
    destruct (Hthrown thrown eq_refl) as [(e & Himport & Hconversion) _].
    destruct (Hprintable e Himport) as [text Htext]. congruence.
Qed.

(** The exception happens: a command file whose evaluation throws a
    symbol ends discovery with a TypeError. *)
Lemma thrown_symbol_ends_discovery :
  (discover Startup.throws_a_symbol "dist" startup).1
  = inl (JsError "TypeError: Cannot convert a Symbol value to a string").
Proof. vm_compute. reflexivity. Qed.

(** X12.  Each loader keeps to its own part of the process: after
    [loadCommands] the buttons, modals, select menus and listeners are
    those from before; [loadEvents] does not touch the client at all;
    [loadInteractions] leaves the commands and the listeners alone. *)
Theorem loaders_keep_to_their_collections (fs : FileSystem) (dirname : string) (p : Process) :
  commands_only p (loadCommands fs dirname p).2 ∧
  listeners_only p (loadEvents fs dirname p).2 ∧
  components_only p (loadInteractions fs dirname p).2.
Proof.
  split; [|split]; revert p.
  - change (preserves commands_only (loadCommands fs dirname)).
    apply preserves_loadCommands; [apply _| |]; by intros.
  - change (preserves listeners_only (loadEvents fs dirname)).
    apply preserves_loadEvents; [apply _| |]; by intros.
  - change (preserves components_only (loadInteractions fs dirname)).
    apply preserves_loadInteractions; [apply _| | | |]; by intros.
Qed.

(** X13.  A bot installed without any of the directories still starts:
    the missing command directory is reported as an error, the missing
    event directory as a skipped step, the missing component directories
    not at all, and nothing is registered. *)
Theorem discover_without_directories (fs : FileSystem) (dirname : string) (p : Process) :
  readdir fs (join dirname "commands") = None →
  readdir fs (join dirname "events") = None →
  readdir fs (join (join dirname "interactions") "buttons") = None →
  readdir fs (join (join dirname "interactions") "modals") = None →
  readdir fs (join (join dirname "interactions") "selectMenus") = None →
  discover fs dirname p
  = (inr tt,
     printing p
       [Console Error
          ("Error loading commands: Error: ENOENT: no such file or directory, scandir '" +:+
           join dirname "commands" +:+ "'") None;
        Console Log "Events directory not found. Skipping event loading." None;
        Console Log
          ("Total interactions loaded: " +:+
           pretty (size (buttons (client p)) + size (modals (client p)) +
                   size (selectMenus (client p)))%nat) None]).
Proof.
  intros Hc He Hb Hm Hs.
  unfold discover, loadCommands, loadEvents, loadInteractions, loadButtons, loadModals,
    loadSelectMenus, loadComponents, existsSync, readdirSync.
  rewrite Hc, He, Hb, Hm, Hs.
  rewrite !bool_decide_eq_false_2 by (by intros [? ?]).
  cbv [try_catch throw evaluate mbind M_bind mret M_ret console the_client String_of
       printing negb].
  cbn [client listeners stdout]. by rewrite <-!app_assoc.
Qed.

End RegistryExtras.

Module EmptyInstall.
Import Discord Registry RegistryContract RegistryExtras.

Lemma discover_without_directories_witness :
  discover Startup.no_directories "dist" startup
  = (inr tt,
     printing startup
       [Console Error
          ("Error loading commands: Error: ENOENT: no such file or directory, scandir '" +:+
           join "dist" "commands" +:+ "'") None;
        Console Log "Events directory not found. Skipping event loading." None;
        Console Log
          ("Total interactions loaded: " +:+
           pretty (size (buttons (client startup)) + size (modals (client startup)) +
                   size (selectMenus (client startup)))%nat) None]).
Proof.
  apply (discover_without_directories Startup.no_directories "dist" startup); reflexivity.
Defined.

End EmptyInstall.

(** ** Which directory entries are loaded *)

Module ScriptFiles.
Import Discord Registry RegistryProofs.

Lemma substring_all (s : string) : String.substring 0 (String.length s) s = s.
Proof. induction s as [|c s IH]; [done|]. cbn. by rewrite IH. Qed.

Lemma substring_skip (stem s : string) (k : nat) :
  String.substring (String.length stem) k (stem +:+ s) = String.substring 0 k s.
Proof.
  induction stem as [|c stem IH]; [done|].
  change (String c stem +:+ s) with (String c (stem +:+ s)). cbn [String.length].
  destruct k; cbn [String.substring]; exact IH.
Qed.

Lemma substring_split (s : string) (a : nat) :
  (a ≤ String.length s)%nat →
  s = String.substring 0 a s +:+ String.substring a (String.length s - a) s.
Proof.
  revert a. induction s as [|c s IH]; intros a Ha.
  - cbn in Ha. assert (a = 0%nat) as -> by lia. done.
  - destruct a as [|a].
    + cbn [String.substring]. rewrite Nat.sub_0_r. cbn [String.length].
      cbn [String.substring]. by rewrite substring_all.
    + cbn [String.length] in *. cbn [String.substring Nat.sub].
      change (String c ?x +:+ ?y) with (String c (x +:+ y)).
      f_equal. apply IH. lia.
Qed.

(** The model of [endsWith] says what the method says. *)
Lemma endsWith_iff (s suffix : string) :
  endsWith s suffix = true ↔ ∃ stem, s = stem +:+ suffix.
Proof.
  unfold endsWith. rewrite andb_true_iff, Nat.leb_le, String.eqb_eq. split.
  - intros [Hle Hsub]. set (k := String.length suffix) in *.
    exists (String.substring 0 (String.length s - k) s).
    pose proof (substring_split s (String.length s - k)) as Hsplit.
    replace (String.length s - (String.length s - k))%nat with k in Hsplit by lia.
    rewrite Hsub in Hsplit. apply Hsplit. lia.
  - intros [stem ->]. rewrite string_length_app. split; [lia|].
    replace (String.length stem + String.length suffix - String.length suffix)%nat
      with (String.length stem) by lia.
    by rewrite substring_skip, substring_all.
Qed.

Lemma is_script_iff (file : string) :
  is_script file = true ↔ ∃ stem, file = stem +:+ ".ts" ∨ file = stem +:+ ".js".
Proof.
  unfold is_script. rewrite orb_true_iff, !endsWith_iff. split.
  - intros [[stem ->]|[stem ->]]; exists stem; auto.
  - intros [stem [->| ->]]; [left|right]; by exists stem.
Qed.

(** X14.  A command folder is read through the filter on file names: an
    entry is imported only if its name ends in [.ts] or [.js].  A folder
    that holds no such entry contributes nothing: no import, no console
    line, no registration. *)
Theorem folder_without_scripts_is_skipped (fs : FileSystem) (commandsPath folder : string)
    (entries : list Dirent) (p : Process) :
  readdir fs (join commandsPath folder) = Some entries →
  (∀ e stem, e ∈ entries →
             dirent_name e ≠ stem +:+ ".ts" ∧ dirent_name e ≠ stem +:+ ".js") →
  loadCommandFolder fs commandsPath folder p = (inr tt, p).
Proof.
  intros Hdir Hnone. unfold loadCommandFolder, script_files, readdirSync.
  rewrite Hdir. rewrite !loader_bind_run. cbn [mret M_ret].
  replace (filter (λ file, is_script file = true) (map dirent_name entries)) with (@nil string);
    [done|].
  symmetry. apply filter_none. intros name Hin.
  apply list_elem_of_fmap in Hin as (e & -> & He).
  rewrite is_script_iff. intros [stem Hstem]. destruct (Hnone e stem He). tauto.
Qed.

Lemma not_a_suffix (name suffix : string) :
  endsWith name suffix = false → ∀ stem, name ≠ stem +:+ suffix.
Proof.
  intros Hends stem Heq.
  assert (endsWith name suffix = true) by (apply endsWith_iff; by exists stem).
  congruence.
Qed.

Lemma folder_without_scripts_is_skipped_witness :
  loadCommandFolder Startup.docs_only "dist/commands" "docs" startup = (inr tt, startup).
Proof.
  apply (folder_without_scripts_is_skipped Startup.docs_only "dist/commands" "docs"
           [Startup.file "README.md"; Startup.file "notes.txt"] startup).
  - reflexivity.
  - intros e stem He.
    apply elem_of_cons in He as [->|He]; [|apply elem_of_cons in He as [->|He]].
    + split; by apply not_a_suffix.
    + split; by apply not_a_suffix.
    + by apply elem_of_nil in He.
Defined.

End ScriptFiles.

(** ** The warn command and the store *)

Module WarnProofs.
Import WarnCommand.

(** X15.  [warnUser] never throws.  When it reports success, the id in
    its result was not in the store before and now finds a WARN row for
    the target member in that guild with the given reason, whose
    moderator is the id of the user of the interaction; the console is
    untouched.  When it reports failure the table is exactly as before,
    the result carries no id, and the reason given is one of the two
    fixed texts. *)
Theorem warnUser_saves_or_reports {zone : TimeZone}
    (Math_random : nat → Z) (fuel : nat) (now : Z) (targetMember : User) (why moderator_tag : string) (guild : option Guild)
    (interaction_user : User) (proof : option string) (env : Env)
    (res : WarnResult) (env' : Env) :
  warnUser Math_random fuel now targetMember why moderator_tag guild interaction_user
    proof env = Some (res, env') →
  if success res then
    ∃ g i inf,
      guild = Some g ∧ infractionId res = Some i ∧
      (i ∉ Contract.stored_ids (InfractionStore.db (world env))) ∧
      InfractionStore.getInfractionById i (InfractionStore.db (world env'))
      = InfractionStore.Ok (Some inf) ∧
      InfractionStore.userId inf = id targetMember ∧
      InfractionStore.guildId inf = guild_id g ∧
      InfractionStore.moderatorId inf = id interaction_user ∧
      InfractionStore.type inf = InfractionStore.WARN ∧
      InfractionStore.reason inf = why ∧
      stderr env' = stderr env
  else
    InfractionStore.db (world env') = InfractionStore.db (world env) ∧
    infractionId res = None ∧
    (errorReason res = Some "Failed to save warning to database." ∨
     guild = None ∧ errorReason res = Some "Guild information not available.").
Proof.
  unfold warnUser. destruct guild as [g|].
  - destruct (InfractionStore.addWarning _ _ _ _ _ _ _ _) as [[[i|e] w']|] eqn:Hadd; [| |done].
    + intros [= <- <-]. cbn [success infractionId world stderr].
      unfold InfractionStore.addWarning in Hadd.
      destruct (StoreProofs.addInfraction_Ok _ _ _ _ _ _ _ _ _ _ _ Hadd)
        as (Hopen & Hfresh & _ & Hdb).
      exists g, i. eexists. split; [done|]. split; [done|]. split; [done|].
      rewrite Hdb. unfold InfractionStore.getInfractionById, InfractionStore.prepare.
      cbn [InfractionStore.open InfractionStore.user_infractions mbind
           InfractionStore.result_bind].
      rewrite (AddProofs.find_fresh_last i) by done. by repeat split.
    + intros [= <- <-]. cbn [success infractionId errorReason world].
      split; [|by split; [|left]].
      by eapply StoreExtras.addInfraction_Err_keeps.
  - intros [= <- <-]. cbn [success infractionId errorReason]. split; [done|].
    split; [done|]. by right.
Qed.

Section InUTC.

#[local] Existing Instance Examples.UTC.

Lemma warnUser_saves_or_reports_witness :
  ∃ g i inf,
    Some Startup.home = Some g ∧ Some "AAAAAAAA" = Some i ∧
    (i ∉ Contract.stored_ids (InfractionStore.db Examples.empty_world)) ∧
    InfractionStore.getInfractionById i (InfractionStore.db Examples.spam_world)
    = InfractionStore.Ok (Some inf) ∧
    InfractionStore.userId inf = "u1" ∧
    InfractionStore.guildId inf = guild_id g ∧
    InfractionStore.moderatorId inf = "m1" ∧
    InfractionStore.type inf = InfractionStore.WARN ∧
    InfractionStore.reason inf = "spam" ∧
    @nil Effect = [].
Proof.
  apply (warnUser_saves_or_reports Examples.always_zero 1 1700000000
           Startup.spammer "spam" "mod#0001" (Some Startup.home) Startup.moderator_user None
           {| world := Examples.empty_world; stderr := [] |}
           {| success := true; user := "spammer#0002"; targetUser := Some "spammer#0002";
              moderator := Some "mod#0001"; reason := Some "spam";
              infractionId := Some "AAAAAAAA"; errorReason := None; evidence := None |}
           {| world := Examples.spam_world; stderr := [] |}).
  vm_compute. reflexivity.
Defined.

End InUTC.

End WarnProofs.

(** ** The earlier store *)

Module LegacyProofs.
Import LegacyStore.

Lemma createOrUpdate_open (now : Z) (g : string) (s : PartialSettings) (d : Database) :
  open d = true →
  ∃ row,
    createOrUpdateGuildSettings now g s d
    = Ok {| open := true;
            guild_settings := <[g := row]> (guild_settings d);
            user_warnings := user_warnings d;
            sqlite_sequence := sqlite_sequence d;
            user_nicknames := user_nicknames d |} ∧
    updated_at row = now ∧
    match guild_settings d !! g with
    | Some old =>
        col_prefix row = coalesce_null (or_null (given_prefix s)) (col_prefix old) ∧
        mod_log_channel row
        = coalesce_null (or_null (given_modLogChannel s)) (mod_log_channel old) ∧
        mute_role row = coalesce_null (or_null (given_muteRole s)) (mute_role old) ∧
        auto_mod_enabled row = coalesce (bit <$> given_autoModEnabled s) (auto_mod_enabled old) ∧
        created_at row = created_at old
    | None =>
        col_prefix row = or_null (given_prefix s) ∧
        mod_log_channel row = or_null (given_modLogChannel s) ∧
        mute_role row = or_null (given_muteRole s) ∧
        auto_mod_enabled row = bit (default false (given_autoModEnabled s)) ∧
        created_at row = now
    end.
Proof.
  intros Hopen. unfold createOrUpdateGuildSettings, prepare. rewrite Hopen.
  cbn [mbind result_bind]. eexists. split; [reflexivity|].
  destruct (guild_settings d !! g); by repeat split.
Qed.

Lemma Boolean_bit (b : bool) : Boolean (bit b) = b.
Proof. by destruct b. Qed.

Lemma getGuildSettings_open {zone : TimeZone} (g : string) (d : Database) :
  open d = true →
  getGuildSettings g d
  = Ok ((λ row, {| guildId := g; prefix := col_prefix row;
                   modLogChannel := mod_log_channel row; muteRole := mute_role row;
                   autoModEnabled := Boolean (auto_mod_enabled row);
                   createdAt := new_Date (created_at row);
                   updatedAt := new_Date (updated_at row) |})
        <$> guild_settings d !! g).
Proof.
  intros Hopen. unfold getGuildSettings, prepare. rewrite Hopen. cbn [mbind result_bind].
  by destruct (guild_settings d !! g).
Qed.

(** X16.  Writing guild settings and reading them back: on an open store
    the write succeeds and the guild then has settings, whose [updatedAt]
    is the [Date] made from the timestamp of the write, that is, the UTC
    text read as a local time.  A string field that was given and is not empty
    holds the given value; one that was left out, or given as the empty
    string, keeps what the guild had before, and is null for a guild that
    had no settings.  The flag holds the given value, else the old one,
    else false.  The creation time of existing settings is kept, that of
    new settings is made from the timestamp of the write as well, and no
    other guild is touched. *)
Theorem createOrUpdateGuildSettings_then_get {zone : TimeZone} (now : Z) (g : string)
    (s : PartialSettings) (d : Database) :
  open d = true →
  ∃ d' gs,
    createOrUpdateGuildSettings now g s d = Ok d' ∧
    getGuildSettings g d' = Ok (Some gs) ∧
    guildId gs = g ∧ updatedAt gs = new_Date now ∧
    (∀ g', g' ≠ g → getGuildSettings g' d' = getGuildSettings g' d) ∧
    match getGuildSettings g d with
    | Ok (Some old) =>
        prefix gs = coalesce_null (or_null (given_prefix s)) (prefix old) ∧
        modLogChannel gs = coalesce_null (or_null (given_modLogChannel s)) (modLogChannel old) ∧
        muteRole gs = coalesce_null (or_null (given_muteRole s)) (muteRole old) ∧
        autoModEnabled gs = default (autoModEnabled old) (given_autoModEnabled s) ∧
        createdAt gs = createdAt old
    | _ =>
        prefix gs = or_null (given_prefix s) ∧
        modLogChannel gs = or_null (given_modLogChannel s) ∧
        muteRole gs = or_null (given_muteRole s) ∧
        autoModEnabled gs = default false (given_autoModEnabled s) ∧
        createdAt gs = new_Date now
    end.
Proof.
  intros Hopen.
  destruct (createOrUpdate_open now g s d Hopen) as (row & Hrun & Hupdated & Hrow).
  eexists. eexists. split; [exact Hrun|].
  rewrite !getGuildSettings_open by done. cbn [guild_settings].
  rewrite lookup_insert_eq. cbn [fmap option_fmap option_map].
  split; [reflexivity|]. cbn [guildId updatedAt prefix modLogChannel muteRole
                              autoModEnabled createdAt].
  split; [done|]. split; [by rewrite Hupdated|]. split.
  - intros g' Hg'. rewrite !getGuildSettings_open by done. cbn [guild_settings].
    by rewrite lookup_insert_ne.
  - destruct (guild_settings d !! g) as [old|]; cbn [fmap option_fmap option_map].
    + destruct Hrow as (-> & -> & -> & -> & ->).
      cbn [prefix modLogChannel muteRole autoModEnabled createdAt]. repeat split.
      destruct (given_autoModEnabled s) as [b|]; [apply Boolean_bit|done].
    + destruct Hrow as (-> & -> & -> & -> & ->). repeat split. apply Boolean_bit.
Qed.

Section InUTC.

#[local] Existing Instance Examples.UTC.

Lemma createOrUpdateGuildSettings_then_get_witness :
  ∃ d' gs,
    createOrUpdateGuildSettings 1700000000 "g1" LegacyExamples.only_mute_role
      LegacyExamples.configured = Ok d' ∧
    getGuildSettings "g1" d' = Ok (Some gs) ∧
    guildId gs = "g1" ∧ updatedAt gs = new_Date 1700000000 ∧
    (∀ g', g' ≠ "g1" → getGuildSettings g' d' = getGuildSettings g' LegacyExamples.configured) ∧
    prefix gs = Some "?" ∧ modLogChannel gs = None ∧ muteRole gs = Some "muted" ∧
    autoModEnabled gs = true ∧ createdAt gs = new_Date 1600000000.
Proof.
  exact (createOrUpdateGuildSettings_then_get 1700000000 "g1" LegacyExamples.only_mute_role
           LegacyExamples.configured eq_refl).
Defined.

End InUTC.

Lemma getUserNickname_open {zone : TimeZone} (u g : string) (d : Database) :
  open d = true →
  getUserNickname u g d
  = Ok ((λ row, {| nick_userId := u; nick_guildId := g; nickname := col_nickname row;
                   setBy := set_by row; nick_createdAt := new_Date (set_at row) |})
        <$> user_nicknames d !! (u, g)).
Proof.
  intros Hopen. unfold getUserNickname, prepare. rewrite Hopen. cbn [mbind result_bind].
  by destruct (user_nicknames d !! (u, g)).
Qed.

Lemma setUserNickname_open (now : Z) (u g n by_whom : string) (d : Database) :
  open d = true →
  ∃ row,
    setUserNickname now u g n by_whom d
    = Ok {| open := true;
            guild_settings := <[g := row]> (guild_settings d);
            user_warnings := user_warnings d;
            sqlite_sequence := sqlite_sequence d;
            user_nicknames :=
              <[(u, g) := {| col_nickname := n; set_by := by_whom; set_at := now |}]>
                (user_nicknames d) |}.
Proof.
  intros Hopen. unfold setUserNickname.
  destruct (createOrUpdate_open now g no_settings d Hopen) as (row & -> & _).
  by exists row.
Qed.

(** X17.  Setting a nickname and reading it back: on an open store
    [setUserNickname] succeeds, and [getUserNickname] for that member of
    that guild then returns the nickname, who set it, and as [createdAt]
    the [Date] made from the timestamp of the write, that is, the UTC
    text read as a local time; a member
    has one nickname per guild, so an earlier one is gone and the table
    grows only for a member that had none; the nicknames of everybody
    else, and the warnings, are as before; and the guild now has a
    settings row. *)
Theorem setUserNickname_then_get {zone : TimeZone} (now : Z) (u g n by_whom : string)
    (d : Database) :
  open d = true →
  ∃ d',
    setUserNickname now u g n by_whom d = Ok d' ∧
    getUserNickname u g d'
    = Ok (Some {| nick_userId := u; nick_guildId := g; nickname := n; setBy := by_whom;
                  nick_createdAt := new_Date now |}) ∧
    (∀ u' g', (u', g') ≠ (u, g) → getUserNickname u' g' d' = getUserNickname u' g' d) ∧
    size (user_nicknames d')
    = match user_nicknames d !! (u, g) with
      | Some _ => size (user_nicknames d)
      | None => S (size (user_nicknames d))
      end ∧
    user_warnings d' = user_warnings d ∧
    is_Some (guild_settings d' !! g).
Proof.
  intros Hopen. destruct (setUserNickname_open now u g n by_whom d Hopen) as [row ->].
  eexists. split; [reflexivity|].
  rewrite getUserNickname_open by done. cbn [user_nicknames guild_settings user_warnings].
  rewrite lookup_insert_eq. split; [done|]. split; [|split; [|split]].
  - intros u' g' Hne. rewrite !getUserNickname_open by done. cbn [user_nicknames].
    by rewrite lookup_insert_ne.
  - rewrite map_size_insert. by destruct (user_nicknames d !! (u, g)).
  - done.
  - rewrite lookup_insert_eq. by eexists.
Qed.

Section InUTC.

#[local] Existing Instance Examples.UTC.

Lemma setUserNickname_then_get_witness :
  ∃ d',
    setUserNickname 1700000000 "u1" "g1" "Samuel" "u1" LegacyExamples.configured = Ok d' ∧
    getUserNickname "u1" "g1" d'
    = Ok (Some {| nick_userId := "u1"; nick_guildId := "g1"; nickname := "Samuel";
                  setBy := "u1"; nick_createdAt := new_Date 1700000000 |}) ∧
    (∀ u' g', (u', g') ≠ ("u1", "g1") →
              getUserNickname u' g' d' = getUserNickname u' g' LegacyExamples.configured) ∧
    size (user_nicknames d')
    = match user_nicknames LegacyExamples.configured !! ("u1", "g1") with
      | Some _ => size (user_nicknames LegacyExamples.configured)
      | None => S (size (user_nicknames LegacyExamples.configured))
      end ∧
    user_warnings d' = user_warnings LegacyExamples.configured ∧
    is_Some (guild_settings d' !! "g1").
Proof.
  apply (setUserNickname_then_get 1700000000 "u1" "g1" "Samuel" "u1"
           LegacyExamples.configured).
  reflexivity.
Defined.

End InUTC.

(** X18.  Removing a nickname: on an open store [removeUserNickname]
    answers true exactly when the member had a nickname in that guild;
    afterwards the member has none, a second removal answers false and
    changes nothing, and everybody else's nickname is as before. *)
Theorem removeUserNickname_then_get {zone : TimeZone} (u g : string) (d : Database) :
  open d = true →
  ∃ removed d',
    removeUserNickname u g d = Ok (removed, d') ∧
    (removed = true ↔ ∃ nick, getUserNickname u g d = Ok (Some nick)) ∧
    getUserNickname u g d' = Ok None ∧
    removeUserNickname u g d' = Ok (false, d') ∧
    (∀ u' g', (u', g') ≠ (u, g) → getUserNickname u' g' d' = getUserNickname u' g' d).
Proof.
  intros Hopen. unfold removeUserNickname at 1. unfold prepare. rewrite Hopen.
  cbn [mbind result_bind]. eexists. eexists. split; [reflexivity|].
  rewrite !getUserNickname_open by done. cbn [user_nicknames].
  split; [|split; [|split]].
  - rewrite bool_decide_eq_true. split.
    + intros [row ->]. by eexists.
    + intros [nick Hnick]. destruct (user_nicknames d !! (u, g)); [by eexists|done].
  - by rewrite lookup_delete_eq.
  - unfold removeUserNickname, prepare. cbn [open user_nicknames mbind result_bind].
    rewrite lookup_delete_eq.
    rewrite bool_decide_eq_false_2 by (by intros [? ?]).
    do 2 f_equal. destruct d as [o gs ws sq ns]. cbn in *. subst o. f_equal.
    apply delete_id. apply lookup_delete_eq.
  - intros u' g' Hne. rewrite !getUserNickname_open by done. cbn [user_nicknames].
    by rewrite lookup_delete_ne.
Qed.

Section InUTC.

#[local] Existing Instance Examples.UTC.

Lemma removeUserNickname_then_get_witness :
  ∃ removed d',
    removeUserNickname "u1" "g1" LegacyExamples.configured = Ok (removed, d') ∧
    (removed = true ↔
       ∃ nick, getUserNickname "u1" "g1" LegacyExamples.configured = Ok (Some nick)) ∧
    getUserNickname "u1" "g1" d' = Ok None ∧
    removeUserNickname "u1" "g1" d' = Ok (false, d') ∧
    (∀ u' g', (u', g') ≠ ("u1", "g1") →
              getUserNickname u' g' d' = getUserNickname u' g' LegacyExamples.configured).
Proof.
  apply (removeUserNickname_then_get "u1" "g1" LegacyExamples.configured).
  reflexivity.
Defined.

End InUTC.

Lemma foldr_max_bounds (start : Z) (l : list Z) :
  start ≤ foldr Z.max start l ∧ Forall (λ x, x ≤ foldr Z.max start l) l.
Proof.
  induction l as [|x l [IHs IHl]]; cbn [foldr]; [by split|].
  split; [lia|]. constructor; [lia|].
  eapply Forall_impl; [exact IHl|]. intros y Hy. cbn beta in *. lia.
Qed.

Lemma getWarningCount_open (u g : string) (d : Database) :
  open d = true →
  getWarningCount u g d
  = Ok (length (filter (λ row, where_member u g row = true) (user_warnings d))).
Proof. intros Hopen. unfold getWarningCount, prepare. by rewrite Hopen. Qed.

Lemma where_member_true (u g : string) (row : WarningRow) :
  where_member u g row = true ↔ (user_id row, guild_id row) = (u, g).
Proof.
  unfold where_member. rewrite andb_true_iff, !String.eqb_eq. split.
  - by intros [-> ->].
  - by intros [= -> ->].
Qed.

Lemma Number_of_int64_exact (n : Z) : n ≤ 2 ^ 53 → Number_of_int64 n = n.
Proof. intros Hn. unfold Number_of_int64. by rewrite (proj2 (Z.leb_le _ _) Hn). Qed.

(** Beyond [2^53] two rowids can come out as one number. *)
Lemma Number_of_int64_rounds :
  Number_of_int64 (2 ^ 53 + 1) = 2 ^ 53 ∧ Number_of_int64 (2 ^ 53 + 2) = 2 ^ 53 + 2 ∧
  Number_of_int64 (2 ^ 53 + 3) = 2 ^ 53 + 4 ∧ Number_of_int64 max_rowid = 2 ^ 63.
Proof. vm_compute. by repeat split. Qed.

(** X19.  A numbered warning.  On an open store [addWarning] first
    writes the guild's settings, which succeeds: the guild has settings
    afterwards, and settings that existed keep everything but the time of
    the last write.  The warning then gets the rowid that is one more
    than the largest ever used.  When the rowids are used up, the INSERT
    fails, the call throws, and the tables are as the first statement
    left them.  Otherwise the row goes in at the end of the table under
    that rowid, which is greater than that of every warning in the table
    and than every rowid given out before, and it is the new high-water
    mark; the count for that member in that guild goes up by one and no
    other count changes.  The caller gets the rowid as a number: the
    rowid itself up to [2^53], the nearest double beyond. *)
Theorem addWarning_numbers_the_warning {zone : TimeZone} (now : Z) (u g m why : string)
    (d : Database) :
  open d = true →
  ∃ outcome d',
    addWarning now u g m why d = (outcome, d') ∧
    (∃ gs, getGuildSettings g d' = Ok (Some gs)) ∧
    (∀ g' old, getGuildSettings g' d = Ok (Some old) →
               ∃ new, getGuildSettings g' d' = Ok (Some new) ∧ settled new = settled old) ∧
    Forall (λ row, warning_id row < next_rowid d) (user_warnings d) ∧
    sqlite_sequence d < next_rowid d ∧
    if max_rowid <? next_rowid d then
      outcome = Err DatabaseFull ∧
      user_warnings d' = user_warnings d ∧ sqlite_sequence d' = sqlite_sequence d
    else
      outcome = Ok (Number_of_int64 (next_rowid d)) ∧
      (next_rowid d ≤ 2 ^ 53 → outcome = Ok (next_rowid d)) ∧
      sqlite_sequence d' = next_rowid d ∧
      user_warnings d'
      = user_warnings d ++
        [{| warning_id := next_rowid d; user_id := u; guild_id := g; moderator_id := m;
            reason := why; warned_at := now |}] ∧
      getWarningCount u g d' = S <$> getWarningCount u g d ∧
      (∀ u' g', (u', g') ≠ (u, g) → getWarningCount u' g' d' = getWarningCount u' g' d).
Proof.
  intros Hopen. unfold addWarning.
  destruct (createOrUpdate_open now g no_settings d Hopen) as (row & -> & _ & Hrow).
  unfold prepare. cbn [open].
  set (d1 := {| open := true; guild_settings := <[g := row]> (guild_settings d);
                user_warnings := user_warnings d; sqlite_sequence := sqlite_sequence d;
                user_nicknames := user_nicknames d |}).
  assert (next_rowid d1 = next_rowid d) as -> by reflexivity.
  assert (∃ gs, getGuildSettings g d1 = Ok (Some gs)) as Hsettings.
  { rewrite getGuildSettings_open by done. cbn [guild_settings d1].
    rewrite lookup_insert_eq. by eexists. }
  assert (∀ g' old, getGuildSettings g' d = Ok (Some old) →
            ∃ new, getGuildSettings g' d1 = Ok (Some new) ∧ settled new = settled old)
    as Hkept.
  { intros g' old. rewrite !getGuildSettings_open by done. cbn [guild_settings d1].
    destruct (decide (g' = g)) as [->|Hne].
    - rewrite lookup_insert_eq. destruct (guild_settings d !! g) as [old_row|]; [|done].
      cbn [fmap option_fmap option_map]. intros [= <-]. eexists. split; [reflexivity|].
      destruct Hrow as (-> & -> & -> & -> & ->). reflexivity.
    - rewrite lookup_insert_ne by done. intros ->. by eexists. }
  destruct (foldr_max_bounds (sqlite_sequence d) (warning_id <$> user_warnings d))
    as [Hseq Hall].
  assert (Forall (λ row, warning_id row < next_rowid d) (user_warnings d)) as Hnew.
  { rewrite Forall_fmap in Hall. eapply Forall_impl; [exact Hall|].
    intros x Hx. unfold next_rowid. cbn in Hx. lia. }
  assert (sqlite_sequence d < next_rowid d) as Hmark by (unfold next_rowid; lia).
  destruct (max_rowid <? next_rowid d) eqn:Hfull.
  - eexists. eexists. split; [reflexivity|]. by repeat split.
  - eexists. eexists. split; [reflexivity|].
    split; [exact Hsettings|]. split; [exact Hkept|]. split; [exact Hnew|].
    split; [exact Hmark|]. split; [done|].
    split; [intros Hsafe; by rewrite Number_of_int64_exact|].
    split; [done|]. split; [done|].
    rewrite !getWarningCount_open by done. cbn [user_warnings d1]. split.
    + rewrite filter_app, length_app, filter_cons, filter_nil.
      rewrite decide_True by (by apply where_member_true). cbn [length fmap result_fmap].
      f_equal. lia.
    + intros u' g' Hne. rewrite !getWarningCount_open by done. cbn [user_warnings d1].
      rewrite filter_app, length_app, filter_cons, filter_nil.
      rewrite decide_False; [cbn [length]; f_equal; lia|].
      rewrite where_member_true. cbn [user_id guild_id]. congruence.
Qed.

Section InUTC.

#[local] Existing Instance Examples.UTC.

Lemma addWarning_numbers_the_warning_witness :
  ∃ outcome d',
    addWarning 1700000000 "u1" "g1" "m2" "flood" LegacyExamples.configured
    = (outcome, d') ∧
    (∃ gs, getGuildSettings "g1" d' = Ok (Some gs)) ∧
    (∀ g' old, getGuildSettings g' LegacyExamples.configured = Ok (Some old) →
               ∃ new, getGuildSettings g' d' = Ok (Some new) ∧ settled new = settled old) ∧
    Forall (λ row, warning_id row < 10) (user_warnings LegacyExamples.configured) ∧
    sqlite_sequence LegacyExamples.configured < 10 ∧
    outcome = Ok 10 ∧
    (10 ≤ 2 ^ 53 → outcome = Ok 10) ∧
    sqlite_sequence d' = 10 ∧
    user_warnings d'
    = user_warnings LegacyExamples.configured ++
      [{| warning_id := 10; user_id := "u1"; guild_id := "g1"; moderator_id := "m2";
          reason := "flood"; warned_at := 1700000000 |}] ∧
    getWarningCount "u1" "g1" d'
    = S <$> getWarningCount "u1" "g1" LegacyExamples.configured ∧
    (∀ u' g', (u', g') ≠ ("u1", "g1") →
              getWarningCount u' g' d' = getWarningCount u' g' LegacyExamples.configured).
Proof.
  apply (addWarning_numbers_the_warning 1700000000 "u1" "g1" "m2" "flood"
           LegacyExamples.configured).
  reflexivity.
Defined.

End InUTC.

End LegacyProofs.

(** ** The nickname filter *)

Module NicknameProofs.
Import NicknameCommand.

Lemma between_spec (low high c : Z) : between low high c = true ↔ low ≤ c ≤ high.
Proof. unfold between. rewrite andb_true_iff, !Z.leb_le. tauto. Qed.

Lemma allowed_is_not_blocked (c : Z) : allowed c = true → in_blocked_range c = false.
Proof.
  intros Hallowed. apply not_true_is_false. revert Hallowed.
  unfold allowed, white_space, in_blocked_range.
  rewrite !orb_true_iff, !between_spec, !Z.eqb_eq. lia.
Qed.

Lemma scan_of_allowed (nickname : list Z) :
  forallb allowed nickname = true → scan nickname = true.
Proof.
  induction nickname as [|c rest IH]; [done|].
  cbn [forallb scan]. rewrite andb_true_iff. intros [Hc Hrest].
  rewrite (allowed_is_not_blocked c Hc). by apply IH.
Qed.

(** X20.  [isValidNickname] accepts exactly the non-empty strings made of
    the code units of the pattern: ASCII letters and digits, hyphen,
    underscore and white space.  The loop over the code points after the
    pattern test never rejects anything: no allowed code unit lies in one
    of its six ranges, so the function is the pattern test. *)
Theorem isValidNickname_is_the_pattern (nickname : list Z) :
  isValidNickname nickname = allowedPattern_test nickname ∧
  (isValidNickname nickname = true ↔
   nickname ≠ [] ∧ Forall (λ c, allowed c = true) nickname) ∧
  (allowedPattern_test nickname = true → scan nickname = true).
Proof.
  assert (allowedPattern_test nickname = true ↔
          nickname ≠ [] ∧ Forall (λ c, allowed c = true) nickname) as Hpattern.
  { unfold allowedPattern_test. destruct nickname as [|c rest].
    - split; [done|]. by intros [? _].
    - rewrite forallb_forall, Forall_forall. split.
      + intros Hall. split; [done|]. intros x Hx. by apply Hall, list_elem_of_In.
      + intros [_ Hall] x Hx. by apply Hall, list_elem_of_In. }
  assert (allowedPattern_test nickname = true → scan nickname = true) as Hscan.
  { unfold allowedPattern_test. destruct nickname; [done|]. apply scan_of_allowed. }
  assert (isValidNickname nickname = allowedPattern_test nickname) as Heq.
  { unfold isValidNickname. destruct (allowedPattern_test nickname); [|done].
    cbn [negb]. by apply Hscan. }
  split; [done|]. split; [by rewrite Heq|done].
Qed.

End NicknameProofs.
